(** * Billboard-Artists: the collaboration graph engine

    A shallow embedding of the query engine ([backend/data_access.py]),
    the graph builder ([backend/scripts/data_processor.py]), the graph
    sampler ([backend/scripts/visualize.py]) and the song key
    ([scripts/process_csv.py]), with the properties of the specification
    stated over it.

    Conventions of the embedding.
    - A Python [str] is a [string]; a character is a code point below 256
      (the Latin-1 part of Unicode), which is where [str.strip] and
      [str.lower] are modelled.
    - A Python [dict] is an association list in insertion order with unique
      keys: assigning to a present key keeps its place, assigning to a new
      key appends.
    - A Python [set] is a duplicate-free list, in the order of insertion.
      Python leaves the order of iteration over a set unspecified: the
      statements below are about membership, counts and sorted lists, and
      where the source numbers the elements of a set as it enumerates them
      (the exception names) the order is a parameter.
    - Non-negative Python integers (counts, degrees, the limit of the
      sampler) are [nat]; the rank of a song is a [Z].
    - A loop that the source bounds by a queue is given fuel, with a proof
      that the fuel given is enough. *)

From Stdlib Require Import List String Ascii Bool Arith ZArith Lia.
From Stdlib Require Import Permutation Sorted.
From Stdlib Require Import DecimalString DecimalPos DecimalZ.
Import ListNotations.
Open Scope string_scope.
Open Scope list_scope.
Open Scope nat_scope.

(** ** Python strings *)

Module PyStr.

(** [str.isspace] on one character, for code points below 256. *)
Definition isspace (c : ascii) : bool :=
  let n := nat_of_ascii c in
  ((9 <=? n) && (n <=? 13)) || ((28 <=? n) && (n <=? 32))
  || (n =? 133) || (n =? 160).

Fixpoint lstrip (s : string) : string :=
  match s with
  | EmptyString => EmptyString
  | String c s' => if isspace c then lstrip s' else s
  end.

Fixpoint rstrip (s : string) : string :=
  match s with
  | EmptyString => EmptyString
  | String c s' =>
      match rstrip s' with
      | EmptyString => if isspace c then EmptyString else String c EmptyString
      | r => String c r
      end
  end.

(** [s.strip()] *)
Definition strip (s : string) : string := rstrip (lstrip s).

(** A string of whitespace only. *)
Fixpoint all_space (s : string) : bool :=
  match s with
  | EmptyString => true
  | String c s' => isspace c && all_space s'
  end.

(** [str.lower] on one character, for code points below 256. *)
Definition lower_char (c : ascii) : ascii :=
  let n := nat_of_ascii c in
  if ((65 <=? n) && (n <=? 90))
     || ((192 <=? n) && (n <=? 222) && negb (n =? 215))
  then ascii_of_nat (n + 32) else c.

Fixpoint lower (s : string) : string :=
  match s with
  | EmptyString => EmptyString
  | String c s' => String (lower_char c) (lower s')
  end.

(** [s.startswith(p)] *)
Definition startswith (s p : string) : bool := String.prefix p s.

(** [sub in s] *)
Fixpoint contains (sub s : string) : bool :=
  String.prefix sub s ||
  match s with
  | EmptyString => false
  | String _ s' => contains sub s'
  end.

(** [s.split(sep)] for a non-empty [sep]: the leftmost occurrences of [sep],
    not overlapping.  [skip] counts the characters of a matched separator
    still to pass over; the result is the part being read and the parts
    after it. *)
Fixpoint split_aux (sep s : string) (skip : nat) : string * list string :=
  match s with
  | EmptyString => (EmptyString, [])
  | String c s' =>
      match skip with
      | S k => split_aux sep s' k
      | O =>
          if String.prefix sep s
          then (EmptyString,
                let '(p, ps) := split_aux sep s' (String.length sep - 1) in
                p :: ps)
          else let '(p, ps) := split_aux sep s' 0 in (String c p, ps)
      end
  end.

Definition split (s sep : string) : list string :=
  let '(p, ps) := split_aux sep s 0 in p :: ps.

(** [sep.join(parts)] *)
Definition join (sep : string) (parts : list string) : string :=
  String.concat sep parts.

(** [re.subn(re.escape(pat), tok, s)] for a non-empty [pat]: every leftmost
    non-overlapping occurrence of the literal [pat] becomes [tok]; the
    number of replacements is returned with the new string. *)
Fixpoint subn_aux (pat tok s : string) (skip : nat) : string * nat :=
  match s with
  | EmptyString => (EmptyString, 0)
  | String c s' =>
      match skip with
      | S k => subn_aux pat tok s' k
      | O =>
          if String.prefix pat s
          then let '(r, n) := subn_aux pat tok s' (String.length pat - 1) in
               ((tok ++ r)%string, S n)
          else let '(r, n) := subn_aux pat tok s' 0 in (String c r, n)
      end
  end.

Definition subn (pat tok s : string) : string * nat := subn_aux pat tok s 0.

(** Membership of a string in a list or set, [x in xs]. *)
Definition mem (x : string) (xs : list string) : bool :=
  existsb (String.eqb x) xs.

(** [set.add] *)
Definition set_add (x : string) (xs : list string) : list string :=
  if mem x xs then xs else xs ++ [x].

(** [a.union(b)] *)
Definition set_union (a b : list string) : list string :=
  fold_left (fun acc x => set_add x acc) b a.

(** The order of Python on strings: code points, left to right. *)
Definition str_leb (a b : string) : bool := String.leb a b.

End PyStr.

(** ** Python dictionaries *)

Module PyDict.

Section Dict.
Context {V : Type}.

Definition dict := list (string * V).

Fixpoint get (d : dict) (k : string) : option V :=
  match d with
  | [] => None
  | (k', v) :: d' => if String.eqb k' k then Some v else get d' k
  end.

(** [d[k] = v] *)
Fixpoint set (d : dict) (k : string) (v : V) : dict :=
  match d with
  | [] => [(k, v)]
  | (k', v') :: d' =>
      if String.eqb k' k then (k', v) :: d' else (k', v') :: set d' k v
  end.

(** [del d[k]] for a key that may be absent *)
Fixpoint del (d : dict) (k : string) : dict :=
  match d with
  | [] => []
  | (k', v') :: d' => if String.eqb k' k then d' else (k', v') :: del d' k
  end.

Definition keys (d : dict) : list string := map fst d.

Definition has (d : dict) (k : string) : bool :=
  match get d k with Some _ => true | None => false end.

End Dict.

Arguments dict V : clear implicits.

End PyDict.

Import PyStr PyDict.

(** ** The query engine, [DataAccessLayer] *)

(** The value of a connection, [{'count': c, 'degree': k}]. *)
Record Connection := mkConnection { count : nat; degree : nat }.

(** [songs_to_artists]: serialised song key to the artists of the song. *)
Definition SongIndex := dict (list string).

(** The body of the scan over one song's artists: every artist of the song
    other than [artist_name] has its tally raised by one. *)
Definition tally_song (artist_name : string) (connections : dict nat)
    (artists : list string) : dict nat :=
  fold_left
    (fun conn other_artist =>
       if negb (String.eqb other_artist artist_name)
       then set conn other_artist
              (match get conn other_artist with Some n => n | None => 0 end + 1)
       else conn)
    artists connections.

(** [for song, artists in self.songs_to_artists.items(): ...], the scan
    shared by the two functions below, from the tally [connections]. *)
Definition scan (artist_name : string) (songs_to_artists : SongIndex)
    (connections : dict nat) : dict nat :=
  fold_left
    (fun conn (entry : string * list string) =>
       if mem artist_name (snd entry)
       then tally_song artist_name conn (snd entry)
       else conn)
    songs_to_artists connections.

Definition _get_direct_collaborators_raw (songs_to_artists : SongIndex)
    (artist_name : string) : dict nat :=
  let artist_name := strip artist_name in
  scan artist_name songs_to_artists [].

Definition _get_direct_connections (songs_to_artists : SongIndex)
    (artist_name : string) : dict Connection :=
  let artist_name := strip artist_name in
  let connections := scan artist_name songs_to_artists [] in
  fold_left
    (fun result (kv : string * nat) =>
       set result (fst kv) (mkConnection (snd kv) 1))
    connections [].

(** The state of the traversal: the visited set, the queue and the result. *)
Record BfsState := mkBfs {
  visited : list string;
  queue : list (string * nat);
  connections : dict Connection
}.

(** The body of [for collab, count in direct_collabs.items()]. *)
Definition bfs_visit (current_degree : nat) (st : BfsState)
    (kv : string * nat) : BfsState :=
  let collab := fst kv in
  if negb (mem collab (visited st)) then
    if negb (has (connections st) collab) then
      mkBfs (collab :: visited st)
            (queue st ++ [(collab, current_degree + 1)])
            (set (connections st) collab
                 (mkConnection (snd kv) (current_degree + 1)))
    else st
  else st.

(** [while queue: ...], one iteration per unit of fuel. *)
Fixpoint bfs_loop (fuel : nat) (songs_to_artists : SongIndex)
    (max_degree : nat) (st : BfsState) : option (dict Connection) :=
  match queue st with
  | [] => Some (connections st)
  | (current_artist, current_degree) :: rest =>
      match fuel with
      | O => None
      | S fuel' =>
          let st := mkBfs (visited st) rest (connections st) in
          if max_degree <=? current_degree
          then bfs_loop fuel' songs_to_artists max_degree st
          else
            let direct_collabs :=
              _get_direct_collaborators_raw songs_to_artists current_artist in
            bfs_loop fuel' songs_to_artists max_degree
              (fold_left (bfs_visit current_degree) direct_collabs st)
      end
  end.

(** Every artist name of the index, with repetitions. *)
Definition all_names (songs_to_artists : SongIndex) : list string :=
  List.concat (map snd songs_to_artists).

(** Each artist enters the queue at most once, so this many iterations are
    enough (shown below). *)
Definition bfs_fuel (songs_to_artists : SongIndex) : nat :=
  S (List.length (all_names songs_to_artists)).

Definition _get_connections_bfs (songs_to_artists : SongIndex)
    (artist_name : string) (max_degree : nat) : option (dict Connection) :=
  let artist_name := strip artist_name in
  bfs_loop (bfs_fuel songs_to_artists) songs_to_artists max_degree
    (mkBfs [artist_name] [(artist_name, 0)] []).

Definition get_artist_connections (songs_to_artists : SongIndex)
    (artist_name : string) (degree : nat) : option (dict Connection) :=
  if degree =? 1
  then Some (_get_direct_connections songs_to_artists artist_name)
  else _get_connections_bfs songs_to_artists artist_name degree.

Definition artist_exists (songs_to_artists : SongIndex)
    (artist_name : string) : bool :=
  existsb (fun entry : string * list string => mem artist_name (snd entry))
    songs_to_artists.

(** ** The song-collaboration graph of a song index *)

(** Two distinct artists are adjacent when some song lists both. *)
Definition adjacent (idx : SongIndex) (x y : string) : Prop :=
  exists song artists,
    In (song, artists) idx /\ In x artists /\ In y artists /\ y <> x.

(** [hops idx x n y]: a walk of [n] edges leads from [x] to [y]. *)
Inductive hops (idx : SongIndex) (x : string) : nat -> string -> Prop :=
| hops_O : hops idx x 0 x
| hops_S n y z : hops idx x n y -> adjacent idx y z -> hops idx x (S n) z.

(** [k] is the least number of hops from [x] to [y]. *)
Definition min_hops (idx : SongIndex) (x y : string) (k : nat) : Prop :=
  hops idx x k y /\ forall n, hops idx x n y -> k <= n.

(** The data model's invariant on artist names: whitespace-trimmed. *)
Definition trimmed (a : string) : Prop := strip a = a.

Definition trimmed_index (idx : SongIndex) : Prop :=
  forall a, In a (all_names idx) -> trimmed a.

(** What the conversion loop of [_get_direct_connections] makes of one
    entry of the tally. *)
Definition to_connection (kv : string * nat) : string * Connection :=
  (fst kv, mkConnection (snd kv) 1).

(** ** The invariant of the traversal

    [s] is the artist the traversal starts from and [d] the bound on the
    depth.  [cur] is the artist whose collaborators are being visited, if
    any; [m] is the depth below which the graph has been explored. *)

Section BfsInvariant.
Variables (idx : SongIndex) (s : string) (d : nat).

(** Every neighbour of [x] has been seen, if the depth of [x] is below the
    bound. *)
Definition explored (vis : list string) (x : string) : Prop :=
  forall k, min_hops idx s x k -> k < d ->
  forall y, adjacent idx x y -> In y vis.

(** The queue holds entries of depth [m], then entries of depth [m + 1]. *)
Definition two_levels (m : nat) (q : list (string * nat)) : Prop :=
  exists q1 q2, q = q1 ++ q2 /\
    Forall (fun p => snd p = m) q1 /\ Forall (fun p => snd p = m + 1) q2.

Record bfs_inv (cur : option string) (m : nat) (st : BfsState) : Prop := {
  inv_visited : forall x,
    In x (visited st) <-> x = s \/ In x (keys (connections st));
  inv_connections : forall b c,
    get (connections st) b = Some c ->
    b <> s /\ degree c <= d /\ min_hops idx s b (degree c);
  inv_queue : forall x k,
    In (x, k) (queue st) ->
    In x (visited st) /\ min_hops idx s x k /\ k <= d /\ strip x = x;
  inv_levels : two_levels m (queue st);
  inv_below : forall y n, hops idx s n y -> n <= m -> In y (visited st);
  inv_explored : forall x,
    In x (visited st) ->
    cur = Some x \/ (exists k, In (x, k) (queue st))
    \/ explored (visited st) x
}.

(** What the result of a traversal must be: its keys are the artists other
    than [s] within [d] hops of [s], and the degree recorded for each is
    its least number of hops. *)
Definition bfs_result (r : dict Connection) : Prop :=
  (forall b, In b (keys r) <->
             b <> s /\ exists n, n <= d /\ hops idx s n b)
  /\ (forall b c, get r b = Some c -> min_hops idx s b (degree c)).

End BfsInvariant.

(** The artists of the index not yet visited, with repetitions. *)
Definition unvisited (idx : SongIndex) (vis : list string) : list string :=
  filter (fun a => negb (mem a vis)) (all_names idx).

(** The measure that bounds the iterations left. *)
Definition bfs_measure (idx : SongIndex) (st : BfsState) : nat :=
  List.length (queue st) + List.length (unvisited idx (visited st)).

(** A small index used in the examples: three songs, a chain of three
    artists and a soloist. *)
Definition sample_index : SongIndex :=
  [ ("Song A/////Artist X&&&Artist Y/////1", ["Artist X"; "Artist Y"]);
    ("Song B/////Artist Y&&&Artist Z/////2", ["Artist Y"; "Artist Z"]);
    ("Song C/////Solo/////3", ["Solo"]) ].

(** ** Python values used by the builder *)

(** [str(n)] for an integer. *)
Definition str_of_Z (z : Z) : string := NilEmpty.string_of_int (Z.to_int z).

Definition str_of_nat (n : nat) : string := str_of_Z (Z.of_nat n).

(** [d.get(k, default)] *)
Definition getd {V} (d : dict V) (k : string) (default : V) : V :=
  match get d k with Some v => v | None => default end.

(** [sorted(xs)] for a list of keys ordered by [leb]: a stable sort. *)
Fixpoint insert_sorted {A} (leb : A -> A -> bool) (x : A) (l : list A)
  : list A :=
  match l with
  | [] => [x]
  | y :: l' => if leb x y then x :: l else y :: insert_sorted leb x l'
  end.

Definition sorted {A} (leb : A -> A -> bool) (l : list A) : list A :=
  fold_right (insert_sorted leb) [] l.

(** What a call returns or raises. *)
Inductive exn : Type :=
| StopIteration
| ValueError (msg : string).

Inductive outcome (A : Type) : Type :=
| Return (a : A)
| Raise (e : exn).
Arguments Return {A} a.
Arguments Raise {A} e.

(** ** The artist extractor, [DataProcessor._extract_artists] *)

(** The exception names, in the order of the source text.  [EXCEPTIONS] is
    a set in the source; the order of its enumeration is the parameter
    [excs] of the functions below. *)
Definition EXCEPTIONS : list string :=
  [ "Tyler, the Creator";
    "Tyler, The Creator";
    "John Scott Trotter & His Orchestra";
    "Ralph Carmichael Orchestra and Chorus";
    "AC/DC";
    "Earth, Wind & Fire" ].

Definition delimiters : list string :=
  [","; "&"; "/"; " x "; " with "; " Featuring "].

(** [f"__EXC_{idx}__"], the placeholder of the exception at [idx]. *)
Definition exc_token (idx : nat) : string :=
  ("__EXC_" ++ str_of_nat idx ++ "__")%string.

(** [for idx, exc in enumerate(EXCEPTIONS): ...]: each exception name found
    in the string is replaced by its token, and the token is recorded. *)
Fixpoint protect (excs : list string) (idx : nat) (tokenized : string)
    (token_map : dict string) : string * dict string :=
  match excs with
  | [] => (tokenized, token_map)
  | exc :: rest =>
      let token := exc_token idx in
      let '(tokenized', n) := subn exc token tokenized in
      protect rest (S idx) tokenized'
        (if 0 <? n then set token_map token exc else token_map)
  end.

(** [for delim in delimiters: ...] *)
Definition split_delimiters (tokenized : string) : list string :=
  fold_left
    (fun temp delim => flat_map (fun part => split part delim) temp)
    delimiters [tokenized].

(** [for a in temp: ...]: trim, drop the empty, restore the tokens. *)
Definition restore (token_map : dict string) (temp : list string)
  : list string :=
  fold_left
    (fun result a =>
       let a := strip a in
       if (a =? "")%string then result
       else match get token_map a with
            | Some exc => set_add exc result
            | None => set_add a result
            end)
    temp [].

Definition split_artists (excs : list string) (s : string) : list string :=
  if (s =? "N/A")%string then []
  else
    let s := strip s in
    let '(tokenized, token_map) := protect excs 0 s [] in
    restore token_map (split_delimiters tokenized).

Definition _extract_artists (excs : list string)
    (artist_str featured_str : string) : list string :=
  let main_artists := split_artists excs artist_str in
  let featured_artists := split_artists excs featured_str in
  set_union main_artists featured_artists.

(** ** The graph builder, [DataProcessor] *)

(** [collaborations]: artist to collaborator to weight. *)
Definition Adjacency := dict (dict nat).

(** The body of [for other_artist in artists] for one [artist]. *)
Definition update_pair (artist : string) (collaborations : Adjacency)
    (other_artist : string) : Adjacency :=
  if negb (other_artist =? artist)%string then
    let inner := getd collaborations artist [] in
    let inner :=
      if negb (has inner other_artist) then set inner other_artist 0
      else inner in
    set collaborations artist
      (set inner other_artist (getd inner other_artist 0 + 1))
  else collaborations.

(** The body of [for artist in artists]. *)
Definition update_artist (artists : list string) (collaborations : Adjacency)
    (artist : string) : Adjacency :=
  let collaborations :=
    if negb (has collaborations artist) then set collaborations artist []
    else collaborations in
  fold_left (update_pair artist) artists collaborations.

Definition _update_collaborations (collaborations : Adjacency)
    (artists : list string) : Adjacency :=
  fold_left (update_artist artists) artists collaborations.

(** The key of a song in the index. *)
Definition song_key (title : string) (artists : list string)
    (position : string) : string :=
  (title ++ "/////" ++ join "&&&" (sorted str_leb artists) ++ "/////"
     ++ position)%string.

(** The body of [for row_num, row in enumerate(reader, 1)]. *)
Definition build_row (excs : list string) (acc : Adjacency * SongIndex)
    (row : list string) : Adjacency * SongIndex :=
  match row with
  | [position; title; artist_str; featured] =>
      let artists := _extract_artists excs artist_str featured in
      match artists with
      | [] => acc
      | _ =>
          let songs_to_artists :=
            set (snd acc) (song_key title artists position) artists in
          (_update_collaborations (fst acc) artists, songs_to_artists)
      end
  | _ => acc
  end.

(** [file] is the rows of the CSV file, the header first; [next(reader)]
    raises [StopIteration] when there is no header. *)
Definition _build_relationship_dicts (excs : list string)
    (file : list (list string)) : outcome (Adjacency * SongIndex) :=
  match file with
  | [] => Raise StopIteration
  | _header :: rows => Return (fold_left (build_row excs) rows ([], []))
  end.

(** The two checks that raise; the loop after them only logs. *)
Definition _validate_data (collaborations : Adjacency)
    (songs_to_artists : SongIndex) : outcome unit :=
  match collaborations with
  | [] => Raise (ValueError "No collaborations found")
  | _ =>
      match songs_to_artists with
      | [] => Raise (ValueError "No songs found")
      | _ => Return tt
      end
  end.

(** What a file of the output directory holds. *)
Inductive Json : Type :=
| JsonAdjacency (d : Adjacency)
| JsonSongIndex (d : SongIndex).

(** The files, by path. *)
Definition FileSystem := dict Json.

(** Processing reads and writes files and may raise. *)
Definition Process (A : Type) : Type := FileSystem -> outcome A * FileSystem.

Definition ret {A} (a : A) : Process A := fun fs => (Return a, fs).

Definition lift {A} (r : outcome A) : Process A := fun fs => (r, fs).

Definition bind {A B} (m : Process A) (k : A -> Process B) : Process B :=
  fun fs =>
    match m fs with
    | (Return a, fs') => k a fs'
    | (Raise e, fs') => (Raise e, fs')
    end.

Notation "x <- m ;; k" := (bind m (fun x => k))
  (at level 61, m at next level, right associativity).

(** [path.with_suffix(f"{path.suffix}.backup")] *)
Definition backup_path (filepath : string) : string :=
  (filepath ++ ".backup")%string.

Definition _save_with_backup (data : Json) (filepath : string)
  : Process unit :=
  fun fs =>
    let fs :=
      match get fs filepath with
      | Some old => set (del fs filepath) (backup_path filepath) old
      | None => fs
      end in
    (Return tt, set fs filepath data).

Record ProcessingConfig := mkConfig {
  input_file : string;
  collaborations_output : string;
  songs_output : string;
  min_collaboration_count : nat
}.

(** [file] is what [config.input_file] holds. *)
Definition process_data (config : ProcessingConfig) (excs : list string)
    (file : list (list string)) : Process (Adjacency * SongIndex) :=
  built <- lift (_build_relationship_dicts excs file) ;;
  _ <- lift (_validate_data (fst built) (snd built)) ;;
  _ <- _save_with_backup (JsonAdjacency (fst built))
         (collaborations_output config) ;;
  _ <- _save_with_backup (JsonSongIndex (snd built)) (songs_output config) ;;
  ret built.

(** The weight stored for the pair, if [a] has an entry for [b]. *)
Definition weight (collaborations : Adjacency) (a b : string) : option nat :=
  match get collaborations a with
  | Some inner => get inner b
  | None => None
  end.

(** The artists the builder extracts from a row; none from a row that is
    skipped. *)
Definition row_artists (excs : list string) (row : list string)
  : list string :=
  match row with
  | [_; _; artist_str; featured] => _extract_artists excs artist_str featured
  | _ => []
  end.

(** The number of rows on which both artists appear. *)
Definition rows_with (excs : list string) (a b : string)
    (rows : list (list string)) : nat :=
  List.length
    (filter (fun row => mem a (row_artists excs row)
                        && mem b (row_artists excs row)) rows).

(** The number of songs of the index on which both artists appear. *)
Definition songs_with (a b : string) (songs_to_artists : SongIndex) : nat :=
  List.length
    (filter (fun entry : string * list string =>
               mem a (snd entry) && mem b (snd entry)) songs_to_artists).

(** The entry of the song index a row gives, a row that is skipped giving
    none. *)
Definition row_entry (excs : list string) (row : list string) : SongIndex :=
  match row with
  | [position; title; artist_str; featured] =>
      match _extract_artists excs artist_str featured with
      | [] => []
      | artists => [(song_key title artists position, artists)]
      end
  | _ => []
  end.

Definition row_entries (excs : list string) (rows : list (list string))
  : SongIndex :=
  flat_map (row_entry excs) rows.

(** The song keys of the rows. *)
Definition row_keys (excs : list string) (rows : list (list string))
  : list string :=
  keys (row_entries excs rows).

(** A weight as the adjacency map stores it: no entry for a pair that
    never met. *)
Definition stored (n : nat) : option nat :=
  match n with O => None | _ => Some n end.

(** The claim that the weights count distinct songs, for one file. *)
Definition weights_count_distinct_songs (excs : list string)
    (file : list (list string)) : Prop :=
  forall collaborations songs_to_artists a b,
    _build_relationship_dicts excs file
    = Return (collaborations, songs_to_artists) ->
    a <> b ->
    weight collaborations a b = stored (songs_with a b songs_to_artists).

(** The rows of the specification's example, under a header. *)
Definition example_file : list (list string) :=
  [ ["position"; "track"; "artist"; "featured_artists"];
    ["1"; "Song A"; "Artist X"; "Artist Y"];
    ["2"; "Song B"; "Artist X"; "N/A"] ].

(** A file in which one song occurs on two rows. *)
Definition duplicate_file : list (list string) :=
  [ ["position"; "track"; "artist"; "featured_artists"];
    ["1"; "Song A"; "Artist X"; "Artist Y"];
    ["1"; "Song A"; "Artist X"; "Artist Y"] ].

(** A weight raised [n] times: an absent entry is created at the first. *)
Definition bump (n : nat) (w : option nat) : option nat :=
  match n with
  | O => w
  | _ => Some (match w with Some v => v | None => 0 end + n)
  end.

(** How often the ordered pair [(a, b)] of distinct artists is met when
    [a] ranges over [l1] and [b] over [l2]. *)
Definition pair_count (l1 l2 : list string) (a b : string) : nat :=
  if string_dec a b then 0
  else count_occ string_dec l1 a * count_occ string_dec l2 b.

(** The same over the rows of a file. *)
Definition pairs_in_rows (excs : list string) (a b : string)
    (rows : list (list string)) : nat :=
  list_sum
    (map (fun row => pair_count (row_artists excs row) (row_artists excs row)
                       a b) rows).

(** ** Search, [DataAccessLayer.search_artists] *)

(** The key the results are sorted by: the tier, then the name. *)
Definition sort_key (query_lower artist : string) : nat * string :=
  let artist_lower := lower artist in
  if (artist_lower =? query_lower)%string then (0, artist)
  else if startswith artist_lower query_lower then (1, artist)
  else (2, artist).

(** [k1 <= k2] on the tuples of Python. *)
Definition key_leb (k1 k2 : nat * string) : bool :=
  (fst k1 <? fst k2) || ((fst k1 =? fst k2) && str_leb (snd k1) (snd k2)).

(** The loops that collect the matching names into a set. *)
Definition collect_matches (query_lower : string)
    (songs_to_artists : SongIndex) : list string :=
  fold_left
    (fun artist_set (artists : list string) =>
       fold_left
         (fun artist_set artist =>
            if contains query_lower (lower artist)
            then set_add artist artist_set
            else artist_set)
         artists artist_set)
    (map snd songs_to_artists) [].

(** The order [results.sort(key=sort_key)] sorts by. *)
Definition key_le (query_lower a b : string) : bool :=
  key_leb (sort_key query_lower a) (sort_key query_lower b).

Definition search_artists (songs_to_artists : SongIndex) (query : string)
  : list string :=
  if (strip query =? "")%string then []
  else
    let query_lower := lower query in
    let results := collect_matches query_lower songs_to_artists in
    let results := sorted (key_le query_lower) results in
    firstn 20 results.

(** The three ways a name can match a query, without regard to case. *)
Definition exact_match (query artist : string) : Prop :=
  lower artist = lower query.

Definition prefix_match (query artist : string) : Prop :=
  exists rest, lower artist = (lower query ++ rest)%string.

Definition substring_match (query artist : string) : Prop :=
  exists pre post, lower artist = (pre ++ lower query ++ post)%string.

(** The lexicographic order on names. *)
Definition str_lt (a b : string) : Prop := String.compare a b = Lt.

(** [a] is ranked before [b]: exact matches first, then prefix matches,
    then the rest, and by name within a tier. *)
Inductive ranked_before (query a b : string) : Prop :=
| exact_first :
    exact_match query a -> ~ exact_match query b -> ranked_before query a b
| prefix_next :
    ~ exact_match query a -> prefix_match query a ->
    ~ exact_match query b -> ~ prefix_match query b ->
    ranked_before query a b
| by_name :
    (exact_match query a <-> exact_match query b) ->
    (prefix_match query a <-> prefix_match query b) ->
    str_lt a b -> ranked_before query a b.

(** ** The subgraph query, [get_artist_connections_graph] *)

(** [{'id': a, 'name': a, 'degree': n}] *)
Record Node := mkNode {
  node_id : string;
  node_name : string;
  node_degree : nat
}.

(** [{'source': a, 'target': b, 'weight': w, 'name': "a - b"}] *)
Record Edge := mkEdge {
  edge_source : string;
  edge_target : string;
  edge_weight : nat;
  edge_name : string
}.

(** The state of the traversal: [visited], [queue] and [all_artists]. *)
Record ReachState := mkReach {
  reach_visited : list string;
  reach_queue : list (string * nat);
  all_artists : list string
}.

(** The body of [for collaborator in collaborators]. *)
Definition reach_visit (current_degree : nat) (st : ReachState)
    (collaborator : string) : ReachState :=
  if negb (mem collaborator (reach_visited st)) then
    mkReach (collaborator :: reach_visited st)
            (reach_queue st ++ [(collaborator, current_degree + 1)])
            (set_add collaborator (all_artists st))
  else st.

(** [while queue: ...], one iteration per unit of fuel. *)
Fixpoint reach_loop (fuel : nat) (songs_to_artists : SongIndex)
    (degree : nat) (st : ReachState) : option (list string) :=
  match reach_queue st with
  | [] => Some (all_artists st)
  | (current_artist, current_degree) :: rest =>
      match fuel with
      | O => None
      | S fuel' =>
          let st := mkReach (reach_visited st) rest (all_artists st) in
          if current_degree <? degree then
            let collaborators :=
              _get_direct_collaborators_raw songs_to_artists current_artist in
            reach_loop fuel' songs_to_artists degree
              (fold_left (reach_visit current_degree) (keys collaborators) st)
          else reach_loop fuel' songs_to_artists degree st
      end
  end.

(** [tuple(sorted([artist, collaborator]))] *)
Definition sorted_pair (artist collaborator : string) : string * string :=
  match sorted str_leb [artist; collaborator] with
  | [a; b] => (a, b)
  | _ => (artist, collaborator)
  end.

Definition pair_mem (p : string * string) (ps : list (string * string))
  : bool :=
  existsb (fun q => String.eqb (fst p) (fst q) && String.eqb (snd p) (snd q))
    ps.

(** The body of [for collaborator, count in connections.items()]. *)
Definition edge_visit (all : list string) (artist : string)
    (acc : list Edge * list (string * string)) (kv : string * nat)
  : list Edge * list (string * string) :=
  let collaborator := fst kv in
  if mem collaborator all then
    let pair := sorted_pair artist collaborator in
    if negb (pair_mem pair (snd acc)) then
      (fst acc
         ++ [mkEdge (fst pair) (snd pair) (snd kv)
               (fst pair ++ " - " ++ snd pair)%string],
       pair :: snd acc)
    else acc
  else acc.

Definition get_artist_connections_graph (songs_to_artists : SongIndex)
    (artist_name : string) (degree : nat)
  : option (list Node * list Edge) :=
  let artist_name := strip artist_name in
  match reach_loop (bfs_fuel songs_to_artists) songs_to_artists degree
          (mkReach [artist_name] [(artist_name, 0)] [artist_name]) with
  | None => None
  | Some all =>
      let nodes :=
        map (fun artist =>
               mkNode artist artist
                 (List.length
                    (_get_direct_collaborators_raw songs_to_artists artist)))
          all in
      let edges :=
        fst (fold_left
               (fun acc artist =>
                  fold_left (edge_visit all artist)
                    (_get_direct_collaborators_raw songs_to_artists artist)
                    acc)
               all ([], [])) in
      Some (nodes, edges)
  end.

(** The measure that bounds the iterations left of this traversal. *)
Definition reach_measure (idx : SongIndex) (st : ReachState) : nat :=
  List.length (reach_queue st)
  + List.length (unvisited idx (reach_visited st)).

(** ** The graph sampler, [shrink_graph_degree]

    A [networkx.Graph] is its adjacency: node to neighbour to edge weight,
    every edge stored at both ends. *)

Definition Graph := dict (dict nat).

(** [graph.number_of_nodes()] *)
Definition number_of_nodes (g : Graph) : nat := List.length g.

(** [list(graph.nodes)] *)
Definition nodes (g : Graph) : list string := keys g.

(** [graph.degree[n]]: a loop counts twice. *)
Definition graph_degree (g : Graph) (n : string) : nat :=
  let nbrs := getd g n [] in
  List.length nbrs + (if has nbrs n then 1 else 0).

(** [graph.remove_node(n)] for a node of the graph: the edges at [n] are
    removed at their other ends, then [n] itself. *)
Definition remove_node (g : Graph) (n : string) : Graph :=
  let nbrs := keys (getd g n []) in
  let g :=
    fold_left
      (fun g u =>
         match get g u with
         | Some adj_u => set g u (del adj_u n)
         | None => g
         end)
      nbrs g in
  del g n.

(** A dictionary keyed by degree, [degree_dct]. *)
Fixpoint bucket_add (d : list (nat * list string)) (k : nat) (n : string)
  : list (nat * list string) :=
  match d with
  | [] => [(k, [n])]
  | (k', ns) :: d' =>
      if k' =? k then (k', ns ++ [n]) :: d' else (k', ns) :: bucket_add d' k n
  end.

Fixpoint bucket_get (d : list (nat * list string)) (k : nat) : list string :=
  match d with
  | [] => []
  | (k', ns) :: d' => if k' =? k then ns else bucket_get d' k
  end.

(** [degree.add(deg_n)] on a set of integers. *)
Definition degree_add (k : nat) (s : list nat) : list nat :=
  if existsb (Nat.eqb k) s then s else s ++ [k].

(** [for n in new_graph: ...]: the set of degrees and the nodes of each
    degree, in the order of the graph. *)
Definition degree_groups (g : Graph)
  : list nat * list (nat * list string) :=
  fold_left
    (fun acc n =>
       let deg_n := graph_degree g n in
       (degree_add deg_n (fst acc), bucket_add (snd acc) deg_n n))
    (nodes g) ([], []).

(** The [while] loop: [lst_degree] is what is left of the sorted degrees
    from [index] on. *)
Fixpoint shrink_loop (new_graph : Graph)
    (degree_dct : list (nat * list string)) (lst_degree : list nat)
    (reduction_goal : nat) : Graph :=
  match lst_degree with
  | [] => new_graph
  | dg :: rest =>
      if reduction_goal =? 0 then new_graph
      else
        let rem_vertices := bucket_get degree_dct dg in
        if List.length rem_vertices <=? reduction_goal then
          shrink_loop (fold_left remove_node rem_vertices new_graph)
            degree_dct rest (reduction_goal - List.length rem_vertices)
        else
          fold_left remove_node (firstn reduction_goal rem_vertices) new_graph
  end.

(** [limit >= 0] is the precondition of the source. *)
Definition shrink_graph_degree (graph : Graph) (limit : nat) : Graph :=
  let new_graph := graph in
  let new_graph_size := number_of_nodes new_graph in
  if new_graph_size <=? limit then new_graph
  else
    let '(degree, degree_dct) := degree_groups new_graph in
    let lst_degree := sorted Nat.leb degree in
    shrink_loop new_graph degree_dct lst_degree (new_graph_size - limit).

(** The vertices the loop removes, in the order it removes them. *)
Fixpoint removed_vertices (degree_dct : list (nat * list string))
    (lst_degree : list nat) (reduction_goal : nat) : list string :=
  match lst_degree with
  | [] => []
  | dg :: rest =>
      if reduction_goal =? 0 then []
      else
        let rem_vertices := bucket_get degree_dct dg in
        if List.length rem_vertices <=? reduction_goal then
          rem_vertices
            ++ removed_vertices degree_dct rest
                 (reduction_goal - List.length rem_vertices)
        else firstn reduction_goal rem_vertices
  end.

(** The vertices whose degree is one of [lst]. *)
Definition in_degrees (deg : string -> nat) (lst : list nat) (n : string)
  : bool :=
  existsb (Nat.eqb (deg n)) lst.

(** A path of four artists with a pendant fifth: degrees 1, 2, 3, 1, 1. *)
Definition sample_graph : Graph :=
  [ ("A", [("B", 1)]);
    ("B", [("A", 1); ("C", 2)]);
    ("C", [("B", 2); ("D", 1); ("E", 1)]);
    ("D", [("C", 1)]);
    ("E", [("C", 1)]) ].

(** ** The song key, [Song] of [process_csv.py] *)

Record Song := mkSong {
  title : string;
  artists : list string;
  top_rank : Z
}.

(** [int(s)] on a decimal numeral: surrounding whitespace, a sign, and
    single underscores between digits are accepted. *)
Definition is_digit (c : ascii) : bool :=
  let n := nat_of_ascii c in (48 <=? n) && (n <=? 57).

(** A string of decimal digits. *)
Fixpoint all_digits (s : string) : bool :=
  match s with
  | EmptyString => true
  | String c s' => is_digit c && all_digits s'
  end.

(** The digits are well grouped: a digit first and last, no two underscores
    in a row. *)
Fixpoint well_grouped (s : string) (after_digit : bool) : bool :=
  match s with
  | EmptyString => after_digit
  | String c s' =>
      if is_digit c then well_grouped s' true
      else if Ascii.eqb c "_" then after_digit && well_grouped s' false
      else false
  end.

Fixpoint drop_underscores (s : string) : string :=
  match s with
  | EmptyString => EmptyString
  | String c s' =>
      if Ascii.eqb c "_" then drop_underscores s'
      else String c (drop_underscores s')
  end.

Definition int_of_digits (s : string) : option Z :=
  if well_grouped s false
  then option_map Z.of_uint (NilEmpty.uint_of_string (drop_underscores s))
  else None.

Definition py_int (s : string) : option Z :=
  match strip s with
  | String "+" digits => int_of_digits digits
  | String "-" digits => option_map Z.opp (int_of_digits digits)
  | digits => int_of_digits digits
  end.

Definition serialise (song : Song) : string :=
  (title song ++ "/////" ++ join "&&&" (artists song) ++ "/////"
     ++ str_of_Z (top_rank song))%string.

(** The unpacking raises unless the string has three parts, and [int]
    unless the third is a numeral. *)
Definition deserialise (serialised_song : string) : outcome Song :=
  match split serialised_song "/////" with
  | [title; artists_str; top_rank_str] =>
      match py_int top_rank_str with
      | Some top_rank => Return (mkSong title (split artists_str "&&&") top_rank)
      | None => Raise (ValueError "invalid literal for int()")
      end
  | _ => Raise (ValueError "wrong number of values to unpack")
  end.

(** The precondition of [serialise], as its docstring has it. *)
Definition no_delimiter (s : string) : Prop :=
  contains "/////" s = false /\ contains "&&&" s = false.

Definition serialisable (song : Song) : Prop :=
  no_delimiter (title song) /\ Forall no_delimiter (artists song).

(** The last character of a string is not [c]. *)
Fixpoint not_ending_with (c : ascii) (s : string) : bool :=
  match s with
  | EmptyString => true
  | String a EmptyString => negb (Ascii.eqb a c)
  | String _ s' => not_ending_with c s'
  end.

(** No artist before the last ends with an ampersand, and the last does
    not end with a slash. *)
Fixpoint artists_end_well (l : list string) : bool :=
  match l with
  | [] => false
  | [a] => not_ending_with "/" a
  | a :: l' => not_ending_with "&" a && artists_end_well l'
  end.

(** ** The orders in which a set can be enumerated *)

Fixpoint insert_everywhere {A} (x : A) (l : list A) : list (list A) :=
  match l with
  | [] => [[x]]
  | y :: l' => (x :: l) :: map (cons y) (insert_everywhere x l')
  end.

Fixpoint permutations {A} (l : list A) : list (list A) :=
  match l with
  | [] => [[]]
  | x :: l' => flat_map (insert_everywhere x) (permutations l')
  end.

(** An artist field in which an exception name is followed by text that
    no delimiter separates from it. *)
Definition embedded_field : string := "Tyler, the Creator feat. Frank Ocean".

(** The extractor returns one name, a placeholder followed by the rest of
    the field. *)
Definition token_leaks (excs : list string) : bool :=
  existsb
    (fun idx =>
       if list_eq_dec string_dec
            (_extract_artists excs embedded_field "N/A")
            [(exc_token idx ++ " feat. Frank Ocean")%string]
       then true else false)
    (seq 0 (List.length EXCEPTIONS)).

(** Every character of [s] is [ch]; no character of [s] is [ch]. *)
Fixpoint all_char (ch : ascii) (s : string) : bool :=
  match s with
  | EmptyString => true
  | String c s' => Ascii.eqb c ch && all_char ch s'
  end.

Fixpoint char_free (ch : ascii) (s : string) : bool :=
  match s with
  | EmptyString => true
  | String c s' => negb (Ascii.eqb c ch) && char_free ch s'
  end.

(** No occurrence of [sep] starts inside [a] when [tail] follows [a]. *)
Definition clear_before (sep a tail : string) : Prop :=
  forall a1 x a2,
    a = (a1 ++ String x a2)%string ->
    String.prefix sep (String x a2 ++ tail) = false.

(** ** The two traversals side by side *)


(** The two ends of an edge. *)
Definition edge_ends (e : Edge) : string * string :=
  (edge_source e, edge_target e).

(** What the loops over the edges keep true of the edges and of the pairs
    seen so far. *)
Definition edges_ok (all : list string)
    (acc : list Edge * list (string * string)) : Prop :=
  (forall e, In e (fst acc) ->
     In (edge_source e) all /\ In (edge_target e) all
     /\ str_leb (edge_source e) (edge_target e) = true)
  /\ map edge_ends (fst acc) = rev (snd acc)
  /\ NoDup (snd acc).

(** ** The first builder, [src/scripts/process_csv.py] *)

Module ProcessCsv.

(** [split_artists]: the field is split as it is, and no name is kept
    whole. *)
Definition split_artists (artist_str : string) : list string :=
  if (artist_str =? "N/A")%string then []
  else
    fold_left
      (fun result a =>
         if (strip a =? "")%string then result else set_add (strip a) result)
      (split_delimiters artist_str) [].

(** The body of [for other_artist in collaborating_artists]. *)
Definition update_pair (artist : string) (collabs : Adjacency)
    (other_artist : string) : Adjacency :=
  if (other_artist =? artist)%string then collabs
  else
    let inner := getd collabs artist [] in
    if negb (has inner other_artist)
    then set collabs artist (set inner other_artist 1)
    else set collabs artist
           (set inner other_artist (getd inner other_artist 0 + 1)).

(** The body of [for artist in collaborating_artists]. *)
Definition update_artist (collaborating_artists : list string)
    (collabs : Adjacency) (artist : string) : Adjacency :=
  let collabs :=
    if negb (has collabs artist) then set collabs artist [] else collabs in
  fold_left (update_pair artist) collaborating_artists collabs.

Definition update_collab_counts (collabs : Adjacency)
    (collaborating_artists : list string) : Adjacency :=
  fold_left (update_artist collaborating_artists) collaborating_artists
    collabs.

(** The body of [for row in reader]: the unpacking raises unless the row
    has four fields, and [int] unless the first is a numeral. *)
Definition build_row (acc : Adjacency * SongIndex) (row : list string)
  : outcome (Adjacency * SongIndex) :=
  match row with
  | [top_rank; title; artists_str; featured] =>
      let artists :=
        set_union (split_artists artists_str) (split_artists featured) in
      match py_int top_rank with
      | Some rank =>
          let song := mkSong title artists rank in
          let songs_artists := set (snd acc) (serialise song) artists in
          Return (update_collab_counts (fst acc) artists, songs_artists)
      | None => Raise (ValueError "invalid literal for int()")
      end
  | _ => Raise (ValueError "wrong number of values to unpack")
  end.

Fixpoint build_rows (rows : list (list string))
    (acc : Adjacency * SongIndex) : outcome (Adjacency * SongIndex) :=
  match rows with
  | [] => Return acc
  | row :: rest =>
      match build_row acc row with
      | Return acc' => build_rows rest acc'
      | Raise e => Raise e
      end
  end.

Definition build_relationship_dicts (file : list (list string))
  : outcome (Adjacency * SongIndex) :=
  match file with
  | [] => Raise StopIteration
  | _header :: rows => build_rows rows ([], [])
  end.

End ProcessCsv.

(** A field that is trimmed and in which no exception name occurs. *)
Definition plain_field (excs : list string) (s : string) : Prop :=
  strip s = s /\ Forall (fun exc => contains exc s = false) excs.


(** ** The random sampler, [shrink_graph_random] *)

(** [choice(seq)] raises on an empty sequence; [rand] is the number drawn
    for this call, used below the length of the sequence. *)
Definition choice (rand : nat) (seq : list string) : option string :=
  match seq with
  | [] => None
  | _ => nth_error seq (rand mod List.length seq)
  end.

(** The [while] loop; [rands i] is the number drawn at iteration [i]. *)
Fixpoint random_loop (rands : nat -> nat) (i : nat) (new_graph : Graph)
    (reduction_goal : nat) : option Graph :=
  match reduction_goal with
  | O => Some new_graph
  | S goal =>
      match choice (rands i) (nodes new_graph) with
      | Some n => random_loop rands (S i) (remove_node new_graph n) goal
      | None => None
      end
  end.

Definition shrink_graph_random (rands : nat -> nat) (graph : Graph)
    (limit : nat) : option Graph :=
  let new_graph := graph in
  if number_of_nodes new_graph <=? limit then Some new_graph
  else random_loop rands 0 new_graph (number_of_nodes new_graph - limit).

(** No neighbour twice at a node. *)
Definition inner_NoDup (g : Graph) : Prop :=
  forall u adj, get g u = Some adj -> NoDup (keys adj).

(** The first loop of [remove_node]: the edges at [n] are removed at their
    other ends. *)
Definition detach (n : string) (nbrs : list string) (g : Graph) : Graph :=
  fold_left
    (fun g u =>
       match get g u with
       | Some adj_u => set g u (del adj_u n)
       | None => g
       end) nbrs g.

(** What [networkx] keeps true of an undirected graph: the nodes and the
    neighbours of a node are the keys of dictionaries, and an edge is
    stored at both ends with one weight. *)
Definition undirected (g : Graph) : Prop :=
  NoDup (nodes g)
  /\ inner_NoDup g
  /\ (forall u v, weight g u v = weight g v u).

(** ** The graph of the adjacency map, [create_graph_from_json] *)

(** [graph.add_node(n, name=str(n))]; the attribute is the node itself. *)
Definition add_node (g : Graph) (n : string) : Graph :=
  if has g n then g else set g n [].

(** [graph.add_edge(u, v, weight=w)] *)
Definition add_edge (g : Graph) (u v : string) (w : nat) : Graph :=
  let g := add_node g u in
  let g := add_node g v in
  let g := set g u (set (getd g u []) v w) in
  set g v (set (getd g v []) u w).

(** [data] is what the file holds. *)
Definition create_graph_from_json (data : Adjacency) : Graph :=
  fold_left
    (fun graph (item : string * dict nat) =>
       let '(artist_a, other_dict) := item in
       fold_left
         (fun graph (edge : string * nat) =>
            let '(artist_b, weight) := edge in
            let graph := add_node graph artist_a in
            let graph := add_node graph artist_b in
            add_edge graph artist_a artist_b weight)
         other_dict graph)
    data [].

(** A decoded JSON object of objects: no key twice. *)
Definition json_object (data : Adjacency) : Prop :=
  NoDup (keys data)
  /\ forall a inner, get data a = Some inner -> NoDup (keys inner).

(** The edges of the file in the order the two loops meet them, and the
    body of the inner loop. *)
Definition json_edges (data : Adjacency) : list (string * string * nat) :=
  flat_map
    (fun item : string * dict nat =>
       map (fun edge : string * nat => (fst item, fst edge, snd edge))
         (snd item))
    data.

Definition add_json_edge (graph : Graph) (e : string * string * nat)
  : Graph :=
  let '(artist_a, artist_b, weight) := e in
  let graph := add_node graph artist_a in
  let graph := add_node graph artist_b in
  add_edge graph artist_a artist_b weight.

(** ** The cleaner, [src/scripts/initial_cleaner.py] *)

Module InitialCleaner.

(** A value of [best_records]. *)
Record BestRecord := mkRecord {
  position : Z;
  track : string;
  artist : string;
  featured_artists : string
}.

(** A key of [best_records]: [(track, artist, featured_artists)]. *)
Definition Key : Type := string * string * string.

Definition key_eqb (a b : Key) : bool :=
  let '(a1, a2, a3) := a in
  let '(b1, b2, b3) := b in
  ((a1 =? b1) && (a2 =? b2) && (a3 =? b3))%string.

(** [best_records[key]] for a key that may be absent *)
Fixpoint lookup (best_records : list (Key * BestRecord)) (key : Key)
  : option BestRecord :=
  match best_records with
  | [] => None
  | (k, r) :: rest => if key_eqb k key then Some r else lookup rest key
  end.

(** [best_records[key] = record] *)
Fixpoint store (best_records : list (Key * BestRecord)) (key : Key)
    (record : BestRecord) : list (Key * BestRecord) :=
  match best_records with
  | [] => [(key, record)]
  | (k, r) :: rest =>
      if key_eqb k key then (k, record) :: rest
      else (k, r) :: store rest key record
  end.

(** The body of [for row in reader]: the unpacking raises unless the row
    has five fields; a row whose position is no numeral is skipped. *)
Definition clean_row (best_records : list (Key * BestRecord))
    (row : list string) : outcome (list (Key * BestRecord)) :=
  match row with
  | [_date; position_str; track; artist; featured_artists] =>
      match py_int (strip position_str) with
      | None => Return best_records
      | Some position =>
          let key := (strip track, strip artist, strip featured_artists) in
          if match lookup best_records key with
             | None => true
             | Some best => (position <? InitialCleaner.position best)%Z
             end
          then Return (store best_records key
                         (mkRecord position (strip track) (strip artist)
                            (strip featured_artists)))
          else Return best_records
      end
  | _ => Raise (ValueError "wrong number of values to unpack")
  end.

Fixpoint clean_rows (rows : list (list string))
    (best_records : list (Key * BestRecord))
  : outcome (list (Key * BestRecord)) :=
  match rows with
  | [] => Return best_records
  | row :: rest =>
      match clean_row best_records row with
      | Return best_records' => clean_rows rest best_records'
      | Raise e => Raise e
      end
  end.

(** [writer.writerow(record)] *)
Definition record_row (record : BestRecord) : list string :=
  [ str_of_Z (position record); track record; artist record;
    featured_artists record ].

(** What [write_to_new] writes: the header, then the records in the order
    of the dictionary. *)
Definition write_to_new (best_records : list (Key * BestRecord))
  : list (list string) :=
  ["position"; "track"; "artist"; "featured_artists"]
    :: map record_row (map snd best_records).

(** [file] is what the input file holds; the result is what the output
    file holds. *)
Definition main (file : list (list string)) : outcome (list (list string)) :=
  match file with
  | [] => Raise StopIteration
  | _header :: rows =>
      match clean_rows rows [] with
      | Return best_records => Return (write_to_new best_records)
      | Raise e => Raise e
      end
  end.

(** The key of a record, and the key and the position read from a row that
    is not skipped. *)
Definition record_key (record : BestRecord) : Key :=
  (track record, artist record, featured_artists record).

Definition parsed_row (row : list string) : option (Key * Z) :=
  match row with
  | [_date; position_str; track; artist; featured_artists] =>
      option_map
        (fun position =>
           ((strip track, strip artist, strip featured_artists), position))
        (py_int (strip position_str))
  | _ => None
  end.

(** What holds of [best_records] when the rows [seen] have been read. *)
Record cleaned (seen : list (list string)) (d : list (Key * BestRecord))
  : Prop := {
  cleaned_NoDup : NoDup (map fst d);
  cleaned_rows : forall k r, lookup d k = Some r ->
    record_key r = k
    /\ exists row, In row seen /\ parsed_row row = Some (k, position r);
  cleaned_best : forall row k p, In row seen ->
    parsed_row row = Some (k, p) ->
    exists r, lookup d k = Some r /\ (position r <= p)%Z
}.

End InitialCleaner.

(** ** The graph endpoint, [generate_graph] of [app.py] *)

(** A value of the settings object: an integer, a boolean, [null], or
    something else (a string, a float, a list, an object). *)
Inductive Setting : Type :=
| SInt (z : Z)
| SBool (b : bool)
| SNull
| SOther.

(** [{"source": .., "target": .., "weight": .., "degree": .., "name": ..}] *)
Record GraphEdge := mkGraphEdge {
  ge_source : string;
  ge_target : string;
  ge_weight : nat;
  ge_degree : nat;
  ge_name : string
}.

(** What the endpoint answers: the content of a [JSONResponse], or the
    status code of an [HTTPException]. *)
Inductive Response (A : Type) : Type :=
| JSONResponse (content : A)
| HTTPException (status_code : nat).
Arguments JSONResponse {A} content.
Arguments HTTPException {A} status_code.

(** [l[:k]] for an integer [k]: a negative [k] counts from the end. *)
Definition slice_to {A} (l : list A) (k : Z) : list A :=
  if (0 <=? k)%Z then firstn (Z.to_nat k) l
  else firstn (List.length l - Z.to_nat (- k)) l.

(** [l[:v]] for a value [v]: a boolean is an integer, [None] is no bound,
    anything else raises [TypeError]. *)
Definition slice_by {A} (l : list A) (v : Setting) : option (list A) :=
  match v with
  | SInt k => Some (slice_to l k)
  | SBool b => Some (slice_to l (if b then 1 else 0)%Z)
  | SNull => Some l
  | SOther => None
  end.

(** [sum(d.values())] *)
Definition sum_values (d : dict nat) : nat := list_sum (map snd d).

(** The order of [key=lambda x: -sum(x[1].values())]. *)
Definition by_degree (x y : string * dict nat) : bool :=
  (- Z.of_nat (sum_values (snd x)) <=? - Z.of_nat (sum_values (snd y)))%Z.

(** [collaborations] is what the data file holds, [None] when there is no
    file: the exception raised with status 404 is caught by the handler of
    the function and raised again with status 500, as is every other. *)
Definition generate_graph (collaborations : option Adjacency)
    (settings : dict Setting) : Response (list Node * list GraphEdge) :=
  match collaborations with
  | None => HTTPException 500
  | Some collaborations =>
      let vertex_limit := getd settings "vertexLimit" (SInt 100) in
      let sorted_artists := sorted by_degree collaborations in
      match slice_by sorted_artists vertex_limit with
      | None => HTTPException 500
      | Some sliced =>
          let limited_artists := map fst sliced in
          let node_set :=
            fold_left (fun s artist => set_add artist s) limited_artists []
          in
          let nodes :=
            map (fun artist =>
                   mkNode artist artist
                     (sum_values (getd collaborations artist [])))
              limited_artists in
          let edges :=
            flat_map
              (fun artist =>
                 let degree := sum_values (getd collaborations artist []) in
                 flat_map
                   (fun item : string * nat =>
                      let '(collaborator, weight) := item in
                      if mem collaborator node_set
                      then [mkGraphEdge artist collaborator weight degree
                              artist]
                      else [])
                   (getd collaborations artist []))
              limited_artists in
          JSONResponse (nodes, edges)
      end
  end.

(* ================================================================== *)
(** * Properties *)

(** ** Strings *)

Module PyStrFacts.

Lemma rstrip_keep c s : isspace c = false -> rstrip (String c s) = String c (rstrip s).
Proof. intros H; simpl; rewrite H; destruct (rstrip s); reflexivity. Qed.

Lemma rstrip_idem s : rstrip (rstrip s) = rstrip s.
Proof.
  induction s as [|c s IH]; simpl; [reflexivity|].
  destruct (rstrip s) as [|a r] eqn:E.
  - destruct (isspace c) eqn:Hc; simpl; [reflexivity | now rewrite Hc].
  - change (rstrip (String c (String a r))) with
      (match rstrip (String a r) with
       | EmptyString => if isspace c then EmptyString else String c EmptyString
       | r0 => String c r0 end).
    rewrite IH; reflexivity.
Qed.

Lemma lstrip_head s :
  lstrip s = EmptyString \/
  exists c r, lstrip s = String c r /\ isspace c = false.
Proof.
  induction s as [|c s IH]; simpl; [now left|].
  destruct (isspace c) eqn:Hc; [exact IH|].
  right; exists c, s; auto.
Qed.

Lemma lstrip_fix c r : isspace c = false -> lstrip (String c r) = String c r.
Proof. intros H; simpl; now rewrite H. Qed.

Lemma strip_idem s : strip (strip s) = strip s.
Proof.
  unfold strip.
  destruct (lstrip_head s) as [E | (c & r & E & Hc)]; rewrite E.
  - reflexivity.
  - rewrite (rstrip_keep _ _ Hc), (lstrip_fix _ _ Hc), <- (rstrip_keep _ _ Hc).
    apply rstrip_idem.
Qed.

Lemma lstrip_pad w s : all_space w = true -> lstrip (w ++ s) = lstrip s.
Proof.
  induction w as [|c w IH]; simpl; intros H; [reflexivity|].
  apply andb_true_iff in H as [Hc Hw]; rewrite Hc; auto.
Qed.

Lemma rstrip_all_space w : all_space w = true -> rstrip w = EmptyString.
Proof.
  induction w as [|c w IH]; simpl; intros H; [reflexivity|].
  apply andb_true_iff in H as [Hc Hw]; rewrite (IH Hw), Hc; reflexivity.
Qed.

Lemma rstrip_pad s w : all_space w = true -> rstrip (s ++ w) = rstrip s.
Proof.
  intros Hw; induction s as [|c s IH]; simpl.
  - now apply rstrip_all_space.
  - now rewrite IH.
Qed.

Lemma lstrip_app_nonempty s w :
  lstrip s <> EmptyString -> lstrip (s ++ w) = (lstrip s ++ w)%string.
Proof.
  induction s as [|c s IH]; simpl; intros H; [congruence|].
  destruct (isspace c); [now apply IH | reflexivity].
Qed.

Lemma lstrip_all_space s : lstrip s = EmptyString -> all_space s = true.
Proof.
  induction s as [|c s IH]; simpl; intros H; [reflexivity|].
  destruct (isspace c); [now apply IH | discriminate].
Qed.

Lemma lstrip_space_empty w : all_space w = true -> lstrip w = EmptyString.
Proof.
  induction w as [|c w IH]; simpl; intros H; [reflexivity|].
  apply andb_true_iff in H as [Hc Hw]; rewrite Hc; auto.
Qed.

(** Whitespace around a name does not change what [strip] returns. *)
Lemma strip_pad l s r :
  all_space l = true -> all_space r = true ->
  strip (l ++ s ++ r) = strip s.
Proof.
  intros Hl Hr; unfold strip.
  rewrite (lstrip_pad _ _ Hl).
  destruct (lstrip s) as [|c t] eqn:E.
  - rewrite (lstrip_pad _ _ (lstrip_all_space _ E)).
    rewrite (lstrip_space_empty _ Hr); reflexivity.
  - rewrite lstrip_app_nonempty by (rewrite E; discriminate).
    rewrite E. now apply rstrip_pad.
Qed.

End PyStrFacts.

(** ** Dictionaries *)

Module PyDictFacts.

Lemma mem_In x xs : mem x xs = true <-> In x xs.
Proof.
  unfold mem; rewrite existsb_exists; split.
  - intros (y & Hy & E); apply String.eqb_eq in E; now subst.
  - intros H; exists x; split; [assumption | apply String.eqb_refl].
Qed.

Lemma mem_false x xs : mem x xs = false <-> ~ In x xs.
Proof.
  rewrite <- mem_In; destruct (mem x xs); split; congruence.
Qed.

Section Facts.
Context {V : Type}.
Implicit Types (d : dict V) (k : string) (v : V).

Lemma keys_set d k v y : In y (keys (set d k v)) <-> y = k \/ In y (keys d).
Proof.
  induction d as [|[k' v'] d IH]; simpl.
  - intuition.
  - destruct (String.eqb_spec k' k) as [->|N]; simpl; [intuition|].
    rewrite IH; intuition.
Qed.

Lemma get_set_same d k v : get (set d k v) k = Some v.
Proof.
  induction d as [|[k' v'] d IH]; simpl.
  - now rewrite String.eqb_refl.
  - destruct (String.eqb_spec k' k) as [->|N]; simpl.
    + now rewrite String.eqb_refl.
    + apply String.eqb_neq in N; now rewrite N.
Qed.

Lemma get_set_other d k v k' : k <> k' -> get (set d k v) k' = get d k'.
Proof.
  intros N; induction d as [|[a w] d IH]; simpl.
  - apply String.eqb_neq in N; now rewrite N.
  - destruct (String.eqb_spec a k) as [->|N']; simpl.
    + apply String.eqb_neq in N; now rewrite N.
    + now rewrite IH.
Qed.

Lemma get_None d k : get d k = None <-> ~ In k (keys d).
Proof.
  induction d as [|[a w] d IH]; simpl; [intuition|].
  destruct (String.eqb_spec a k) as [->|N].
  - split; [discriminate | intuition].
  - rewrite IH; intuition.
Qed.

Lemma get_Some_In d k v : get d k = Some v -> In k (keys d).
Proof.
  intros H; destruct (in_dec string_dec k (keys d)) as [I|N]; [assumption|].
  apply get_None in N; congruence.
Qed.

Lemma get_In d k v : get d k = Some v -> In (k, v) d.
Proof.
  induction d as [|[a w] d IH]; simpl; [discriminate|].
  destruct (String.eqb_spec a k) as [->|N]; intros H.
  - injection H as ->; now left.
  - right; auto.
Qed.

Lemma In_keys_get d k : In k (keys d) -> exists v, get d k = Some v.
Proof.
  intros H; destruct (get d k) eqn:E; [eauto|].
  apply get_None in E; contradiction.
Qed.

Lemma has_true d k : has d k = true <-> In k (keys d).
Proof.
  unfold has; destruct (get d k) eqn:E.
  - split; [intros _; eapply get_Some_In; eauto | reflexivity].
  - apply get_None in E; split; [discriminate | contradiction].
Qed.

Lemma has_false d k : has d k = false <-> ~ In k (keys d).
Proof. rewrite <- has_true; destruct (has d k); split; congruence. Qed.

Lemma set_new d k v : ~ In k (keys d) -> set d k v = d ++ [(k, v)].
Proof.
  induction d as [|[a w] d IH]; simpl; intros N; [reflexivity|].
  destruct (String.eqb_spec a k) as [->|N']; [intuition|].
  rewrite IH; intuition.
Qed.

Lemma keys_set_present d k v : In k (keys d) -> keys (set d k v) = keys d.
Proof.
  induction d as [|[a w] d IH]; simpl; intros H; [contradiction|].
  destruct (String.eqb_spec a k) as [->|N]; simpl; [reflexivity|].
  rewrite IH; intuition.
Qed.

Lemma NoDup_keys_set d k v : NoDup (keys d) -> NoDup (keys (set d k v)).
Proof.
  intros H; destruct (in_dec string_dec k (keys d)) as [I|N].
  - now rewrite keys_set_present.
  - rewrite set_new by assumption; unfold keys; rewrite map_app; simpl.
    apply NoDup_app; [assumption | repeat constructor; intros [] | ].
    intros a Ha [<-|[]]; contradiction.
Qed.

Lemma get_NoDup_In d k v : NoDup (keys d) -> In (k, v) d -> get d k = Some v.
Proof.
  induction d as [|[a w] d IH]; simpl; intros ND H; [contradiction|].
  inversion ND as [|? ? Na ND']; subst.
  destruct H as [E|H].
  - injection E as -> ->; now rewrite String.eqb_refl.
  - destruct (String.eqb_spec a k) as [->|N]; [|auto].
    exfalso; apply Na; change (In (fst (k, v)) (map fst d)); now apply in_map.
Qed.

End Facts.

End PyDictFacts.

Import PyStrFacts PyDictFacts.

(** ** Direct collaborators *)

Module DirectFacts.

Lemma tally_song_keys a artists : forall conn y,
  In y (keys (tally_song a conn artists)) <->
  In y (keys conn) \/ (In y artists /\ y <> a).
Proof.
  unfold tally_song; induction artists as [|o artists IH]; intros conn y; simpl.
  - intuition.
  - rewrite IH; destruct (String.eqb_spec o a) as [->|N]; simpl.
    + intuition; subst; intuition.
    + rewrite keys_set; intuition; subst; intuition.
Qed.

Lemma tally_song_NoDup a artists : forall conn,
  NoDup (keys conn) -> NoDup (keys (tally_song a conn artists)).
Proof.
  unfold tally_song; induction artists as [|o artists IH]; intros conn H; simpl.
  - assumption.
  - apply IH; destruct (negb (o =? a)%string); [now apply NoDup_keys_set | assumption].
Qed.

Lemma scan_keys a idx : forall conn y,
  In y (keys (scan a idx conn)) <->
  In y (keys conn) \/
  exists song artists, In (song, artists) idx /\ In a artists /\ In y artists /\ y <> a.
Proof.
  unfold scan; induction idx as [|[song artists] idx IH]; intros conn y; simpl.
  - split; [auto | intros [H | (s & l & [] & _)]; assumption].
  - rewrite IH; destruct (mem a artists) eqn:M.
    + apply mem_In in M; rewrite tally_song_keys; split.
      * intros [[H | [H1 H2]] | (s & l & H)].
        -- now left.
        -- right; exists song, artists; auto.
        -- right; destruct H as (H1 & H2); exists s, l; auto.
      * intros [H | (s & l & [E | H1] & H2 & H3 & H4)].
        -- auto.
        -- injection E as <- <-; auto.
        -- right; exists s, l; auto.
    + apply mem_false in M; split.
      * intros [H | (s & l & H1 & H2)]; [now left|].
        right; exists s, l; auto.
      * intros [H | (s & l & [E | H1] & H2 & H3 & H4)].
        -- auto.
        -- injection E as <- <-; contradiction.
        -- right; exists s, l; auto.
Qed.

Lemma scan_NoDup a idx : forall conn,
  NoDup (keys conn) -> NoDup (keys (scan a idx conn)).
Proof.
  unfold scan; induction idx as [|[song artists] idx IH]; intros conn H; simpl.
  - assumption.
  - apply IH; destruct (mem a artists); [now apply tally_song_NoDup | assumption].
Qed.

Lemma raw_scan idx a :
  _get_direct_collaborators_raw idx a = scan (strip a) idx [].
Proof. reflexivity. Qed.

(** The keys of the raw tally are the neighbours in the graph. *)
Lemma raw_keys idx a y :
  In y (keys (_get_direct_collaborators_raw idx a)) <-> adjacent idx (strip a) y.
Proof.
  rewrite raw_scan, scan_keys; unfold adjacent; simpl; intuition.
Qed.

Lemma raw_NoDup idx a : NoDup (keys (_get_direct_collaborators_raw idx a)).
Proof. rewrite raw_scan; apply scan_NoDup; constructor. Qed.

Lemma raw_strip idx a :
  _get_direct_collaborators_raw idx (strip a) = _get_direct_collaborators_raw idx a.
Proof. unfold _get_direct_collaborators_raw; now rewrite strip_idem. Qed.

Lemma adjacent_names idx x y : adjacent idx x y -> In y (all_names idx).
Proof.
  intros (s & l & H & _ & Hy & _); unfold all_names.
  apply in_concat; exists l; split; [|assumption].
  change l with (snd (s, l)); now apply in_map.
Qed.

Lemma adjacent_sym idx x y : adjacent idx x y -> adjacent idx y x.
Proof.
  intros (s & l & H & Hx & Hy & N); exists s, l; repeat split; auto.
Qed.

Lemma raw_length idx a :
  List.length (_get_direct_collaborators_raw idx a) <= List.length (all_names idx).
Proof.
  rewrite <- (length_map fst); apply NoDup_incl_length; [apply raw_NoDup|].
  intros y Hy; apply raw_keys in Hy; eapply adjacent_names; eauto.
Qed.

Lemma convert_map (l : dict nat) : forall (acc : dict Connection),
  NoDup (keys acc ++ keys l) ->
  fold_left (fun result (kv : string * nat) =>
               set result (fst kv) (mkConnection (snd kv) 1)) l acc
  = acc ++ map to_connection l.
Proof.
  induction l as [|[k n] l IH]; intros acc H; simpl.
  - now rewrite app_nil_r.
  - assert (Hk : ~ In k (keys acc)).
    { apply NoDup_remove_2 in H; intros I; apply H, in_or_app; now left. }
    rewrite IH.
    + rewrite set_new by assumption; now rewrite <- app_assoc.
    + rewrite set_new by assumption; unfold keys in *.
      rewrite map_app, <- app_assoc; exact H.
Qed.

End DirectFacts.

(** ** The traversal at depth one *)

Module ShortcutFacts.
Import DirectFacts.

Lemma direct_as_map idx a :
  _get_direct_connections idx a
  = map to_connection (_get_direct_collaborators_raw idx a).
Proof.
  unfold _get_direct_connections, _get_direct_collaborators_raw.
  rewrite convert_map; [reflexivity|].
  simpl; apply scan_NoDup; constructor.
Qed.

(** Visiting collaborators none of which was seen before. *)
Lemma visit_fresh deg (l : dict nat) : forall st,
  NoDup (keys l) ->
  (forall k, In k (keys l) ->
             ~ In k (visited st) /\ ~ In k (keys (connections st))) ->
  fold_left (bfs_visit deg) l st
  = mkBfs (rev (keys l) ++ visited st)
          (queue st ++ map (fun kv => (fst kv, deg + 1)) l)
          (connections st
             ++ map (fun kv => (fst kv, mkConnection (snd kv) (deg + 1))) l).
Proof.
  induction l as [|[k n] l IH]; intros [vis q conn] ND Hfresh; simpl in *.
  - now rewrite !app_nil_r.
  - inversion ND as [|? ? Hk ND']; subst.
    destruct (Hfresh k (or_introl eq_refl)) as [Hv Hc].
    unfold bfs_visit at 2; simpl.
    apply mem_false in Hv as Mv; rewrite Mv; simpl.
    apply has_false in Hc as Mc; rewrite Mc; simpl.
    rewrite IH; simpl.
    + rewrite set_new by assumption.
      rewrite <- !app_assoc; reflexivity.
    + assumption.
    + intros k' Hk'; destruct (Hfresh k' (or_intror Hk')) as [Hv' Hc'].
      split.
      * intros [<-|I]; contradiction.
      * intros I; apply keys_set in I as [->|I]; contradiction.
Qed.

(** A queue of entries at the depth bound is emptied without effect. *)
Lemma drain idx d : forall fuel st,
  Forall (fun q => d <= snd q) (queue st) ->
  List.length (queue st) <= fuel ->
  bfs_loop fuel idx d st = Some (connections st).
Proof.
  induction fuel as [|fuel IH]; intros [vis q conn] Hq Hl; simpl in *.
  - destruct q; [reflexivity | simpl in Hl; lia].
  - destruct q as [|[c k] q]; [reflexivity|].
    inversion Hq as [|? ? Hk Hq']; subst; simpl in *.
    apply Nat.leb_le in Hk; rewrite Hk.
    apply (IH (mkBfs vis q conn)); simpl; [assumption | lia].
Qed.

(** The traversal bounded by one hop computes the direct connections. *)
Lemma bfs_degree_one idx a :
  _get_connections_bfs idx a 1 = Some (_get_direct_connections idx a).
Proof.
  unfold _get_connections_bfs, bfs_fuel; simpl.
  rewrite raw_strip.
  rewrite visit_fresh; simpl.
  - rewrite drain; simpl.
    + now rewrite direct_as_map.
    + apply Forall_forall; intros q Hq; apply in_map_iff in Hq as (kv & <- & _).
      simpl; lia.
    + rewrite length_map; apply raw_length.
  - apply raw_NoDup.
  - intros k Hk; apply raw_keys in Hk; split; [|intros []].
    intros [E|[]]; destruct Hk as (_ & _ & _ & _ & _ & N).
    congruence.
Qed.

End ShortcutFacts.

(** ** The traversal in general *)

Module BfsFacts.
Import DirectFacts.

Section Correct.
Variables (idx : SongIndex) (s : string) (d : nat).
Hypothesis Htrim : trimmed_index idx.
Hypothesis Hs : strip s = s.

Lemma min_hops_unique x k k' :
  min_hops idx s x k -> min_hops idx s x k' -> k = k'.
Proof. intros [H1 H2] [H3 H4]; apply Nat.le_antisymm; auto. Qed.

Lemma min_hops_start : min_hops idx s s 0.
Proof. split; [constructor | intros; lia]. Qed.

Lemma hops_zero n y : hops idx s n y -> n = 0 -> y = s.
Proof. intros H; destruct H; [reflexivity | discriminate]. Qed.

Lemma visited_min_hops cur m st x :
  bfs_inv idx s d cur m st -> In x (visited st) ->
  exists k, min_hops idx s x k /\ k <= d.
Proof.
  intros I Hx; apply (inv_visited _ _ _ _ _ _ I) in Hx as [->|Hx].
  - exists 0; split; [apply min_hops_start | lia].
  - apply In_keys_get in Hx as [c Hc].
    apply (inv_connections _ _ _ _ _ _ I) in Hc as (_ & H1 & H2); eauto.
Qed.

Lemma explored_mono vis vis' x :
  incl vis vis' -> explored idx s d vis x -> explored idx s d vis' x.
Proof. intros Hi H k Hk Hd y Hy; apply Hi; eapply H; eauto. Qed.

Lemma initial_inv : bfs_inv idx s d None 0 (mkBfs [s] [(s, 0)] []).
Proof.
  constructor; simpl.
  - intros x; split; [intros [<-|[]]; now left | intros [->|[]]; now left].
  - discriminate.
  - intros x k [E|[]]; injection E as <- <-.
    repeat split; [now left | constructor | intros; lia | lia | exact Hs].
  - exists [(s, 0)], []; repeat constructor.
  - intros y n H Hn; left; symmetry; eapply hops_zero; eauto; lia.
  - intros x [<-|[]]; right; left; exists 0; now left.
Qed.

(** When the head of the queue lies one level up, the level below is
    exhausted. *)
Lemma relevel m st x rest :
  bfs_inv idx s d None m st -> queue st = (x, m + 1) :: rest ->
  bfs_inv idx s d None (m + 1) st.
Proof.
  intros I Hq.
  destruct (inv_levels _ _ _ _ _ _ I) as (q1 & q2 & E & F1 & F2).
  assert (q1 = []) as ->.
  { destruct q1 as [|p q1]; [reflexivity|].
    rewrite Hq in E; injection E as <- _.
    inversion F1; subst; simpl in *; lia. }
  simpl in E; subst q2.
  assert (Hd : m + 1 <= d).
  { apply (inv_queue _ _ _ _ _ _ I x (m + 1)); rewrite Hq; now left. }
  constructor; try apply I.
  - exists (queue st), []; rewrite app_nil_r; repeat split; auto.
  - intros y n H Hn.
    destruct (Nat.le_gt_cases n m) as [L|G];
      [eapply (inv_below _ _ _ _ _ _ I); eauto|].
    assert (n = S m) as -> by lia.
    inversion H as [|n' y' z Hy' Hadj]; subst.
    assert (Vy' : In y' (visited st))
      by (eapply (inv_below _ _ _ _ _ _ I); eauto).
    destruct (visited_min_hops _ _ _ _ I Vy') as (k & Hk & _).
    assert (k <= m) by (apply Hk; assumption).
    destruct (inv_explored _ _ _ _ _ _ I y' Vy') as [C | [(k' & Q) | Ex]].
    + discriminate.
    + exfalso.
      destruct (inv_queue _ _ _ _ _ _ I _ _ Q) as (_ & Hk' & _).
      rewrite (min_hops_unique _ _ _ Hk' Hk) in Q.
      rewrite Forall_forall in F2; apply F2 in Q; simpl in Q; lia.
    + eapply Ex; eauto; lia.
Qed.

Lemma head_level m st x k rest :
  bfs_inv idx s d None m st -> queue st = (x, k) :: rest ->
  bfs_inv idx s d None k st.
Proof.
  intros I Hq.
  destruct (inv_levels _ _ _ _ _ _ I) as (q1 & q2 & E & F1 & F2).
  rewrite Hq in E; destruct q1 as [|p q1]; simpl in E.
  - subst q2; inversion F2; subst; simpl in *; subst k.
    eapply relevel; eauto.
  - injection E as <- _; inversion F1; subst; simpl in *; subst; assumption.
Qed.

Lemma pop_inv m st x rest :
  bfs_inv idx s d None m st -> queue st = (x, m) :: rest ->
  bfs_inv idx s d (Some x) m (mkBfs (visited st) rest (connections st)).
Proof.
  intros I Hq; constructor; simpl; try apply I.
  - intros y k H; apply (inv_queue _ _ _ _ _ _ I); rewrite Hq; now right.
  - destruct (inv_levels _ _ _ _ _ _ I) as (q1 & q2 & E & F1 & F2).
    rewrite Hq in E; destruct q1 as [|p q1]; simpl in E.
    + subst q2; inversion F2; subst; simpl in *; lia.
    + injection E as _ ->; inversion F1; subst.
      exists q1, q2; auto.
  - intros y Hy.
    destruct (inv_explored _ _ _ _ _ _ I y Hy) as [C | [(k & Q) | Ex]].
    + discriminate.
    + rewrite Hq in Q; destruct Q as [E|Q].
      * injection E as -> ->; now left.
      * right; left; eauto.
    + right; right; assumption.
Qed.

Lemma skip_inv m st x :
  bfs_inv idx s d (Some x) m st -> min_hops idx s x m -> d <= m ->
  bfs_inv idx s d None m st.
Proof.
  intros I Hx Hd; constructor; try apply I.
  intros y Hy.
  destruct (inv_explored _ _ _ _ _ _ I y Hy) as [C | [Q | Ex]]; auto.
  injection C as <-; right; right.
  intros k Hk Hlt; rewrite (min_hops_unique _ _ _ Hk Hx) in Hlt; lia.
Qed.

Lemma finish_inv m st x :
  bfs_inv idx s d (Some x) m st ->
  (forall y, adjacent idx x y -> In y (visited st)) ->
  bfs_inv idx s d None m st.
Proof.
  intros I Hx; constructor; try apply I.
  intros y Hy.
  destruct (inv_explored _ _ _ _ _ _ I y Hy) as [C | [Q | Ex]]; auto.
  injection C as <-; right; right; intros k _ _; exact Hx.
Qed.

Lemma visit_inv m st x kv :
  bfs_inv idx s d (Some x) m st -> min_hops idx s x m -> m < d ->
  adjacent idx x (fst kv) ->
  bfs_inv idx s d (Some x) m (bfs_visit m st kv)
  /\ In (fst kv) (visited (bfs_visit m st kv))
  /\ incl (visited st) (visited (bfs_visit m st kv)).
Proof.
  intros I Hx Hd Hadj; unfold bfs_visit.
  destruct (mem (fst kv) (visited st)) eqn:M; simpl.
  { apply mem_In in M; split; [assumption | split; [assumption | apply incl_refl]]. }
  apply mem_false in M.
  destruct (has (connections st) (fst kv)) eqn:Hc; simpl.
  { exfalso; apply M; apply (inv_visited _ _ _ _ _ _ I); right.
    apply has_true; exact Hc. }
  assert (Hnew : min_hops idx s (fst kv) (m + 1)).
  { split.
    - rewrite Nat.add_1_r; econstructor; [apply Hx | assumption].
    - intros n Hn; destruct (Nat.le_gt_cases n m) as [L|G]; [|lia].
      exfalso; apply M; eapply (inv_below _ _ _ _ _ _ I); eauto. }
  assert (Hne : fst kv <> s).
  { intros E; apply M, (inv_visited _ _ _ _ _ _ I); now left. }
  split; [|split; [now left | intros y Hy; now right]].
  constructor; simpl.
  - intros y; rewrite keys_set, (inv_visited _ _ _ _ _ _ I y).
    intuition congruence.
  - intros b c; destruct (string_dec (fst kv) b) as [<-|N].
    + rewrite get_set_same; intros E; injection E as <-; simpl.
      split; [assumption | split; [lia | exact Hnew]].
    + rewrite get_set_other by assumption; apply I.
  - intros y k Hy; apply in_app_or in Hy as [Hy|[E|[]]].
    + destruct (inv_queue _ _ _ _ _ _ I _ _ Hy) as (H1 & H2 & H3 & H4).
      split; [now right | split; [assumption | split; assumption]].
    + injection E as <- <-.
      split; [now left | split; [exact Hnew | split; [lia|]]].
      apply Htrim; eapply adjacent_names; eauto.
  - destruct (inv_levels _ _ _ _ _ _ I) as (q1 & q2 & E & F1 & F2).
    exists q1, (q2 ++ [(fst kv, m + 1)]); rewrite E, app_assoc.
    repeat split; auto.
    apply Forall_app; split; [assumption | repeat constructor].
  - intros y n H Hn; right; eapply (inv_below _ _ _ _ _ _ I); eauto.
  - intros y [<-|Hy].
    + right; left; exists (m + 1); apply in_or_app; right; now left.
    + destruct (inv_explored _ _ _ _ _ _ I y Hy) as [C | [(k & Q) | Ex]].
      * now left.
      * right; left; exists k; apply in_or_app; now left.
      * right; right; eapply explored_mono; [|eassumption].
        intros z Hz; now right.
Qed.

Lemma fold_visit_inv m x : forall (l : dict nat) st,
  bfs_inv idx s d (Some x) m st -> min_hops idx s x m -> m < d ->
  (forall y, In y (keys l) -> adjacent idx x y) ->
  bfs_inv idx s d (Some x) m (fold_left (bfs_visit m) l st)
  /\ (forall y, In y (keys l) ->
                In y (visited (fold_left (bfs_visit m) l st)))
  /\ incl (visited st) (visited (fold_left (bfs_visit m) l st)).
Proof.
  induction l as [|kv l IH]; intros st I Hx Hd Hadj; simpl.
  - split; [assumption | split; [intros y [] | apply incl_refl]].
  - destruct (visit_inv m st x kv I Hx Hd) as (I' & Hin & Hincl).
    { apply Hadj; now left. }
    destruct (IH _ I' Hx Hd) as (I'' & Hin' & Hincl').
    { intros y Hy; apply Hadj; now right. }
    split; [assumption | split; [| eapply incl_tran; eauto]].
    intros y [<-|Hy]; [apply Hincl', Hin | now apply Hin'].
Qed.

(** One iteration of the loop on an artist above the bound. *)
Lemma expand_inv m st x rest :
  bfs_inv idx s d None m st -> queue st = (x, m) :: rest -> m < d ->
  bfs_inv idx s d None m
    (fold_left (bfs_visit m) (_get_direct_collaborators_raw idx x)
       (mkBfs (visited st) rest (connections st))).
Proof.
  intros I Hq Hd.
  destruct (inv_queue _ _ _ _ _ _ I x m) as (_ & Hx & _ & Hsx);
    [rewrite Hq; now left|].
  assert (Hadj : forall y,
    In y (keys (_get_direct_collaborators_raw idx x)) <-> adjacent idx x y)
    by (intros y; rewrite raw_keys, Hsx; reflexivity).
  destruct (fold_visit_inv m x (_get_direct_collaborators_raw idx x) _
              (pop_inv _ _ _ _ I Hq) Hx Hd) as (I' & Hin & _).
  { intros y; apply Hadj. }
  eapply finish_inv; [exact I'|].
  intros y Hy; apply Hin, Hadj, Hy.
Qed.

Lemma final_result m st :
  bfs_inv idx s d None m st -> queue st = [] ->
  bfs_result idx s d (connections st).
Proof.
  intros I Hq.
  assert (Hall : forall n y, hops idx s n y -> n <= d -> In y (visited st)).
  { intros n y H; induction H as [|n y z Hy IH Hadj]; intros Hn.
    - apply (inv_visited _ _ _ _ _ _ I); now left.
    - assert (Vy : In y (visited st)) by (apply IH; lia).
      destruct (visited_min_hops _ _ _ _ I Vy) as (k & Hk & _).
      assert (k <= n) by (apply Hk; assumption).
      destruct (inv_explored _ _ _ _ _ _ I y Vy) as [C | [(k' & Q) | Ex]].
      + discriminate.
      + rewrite Hq in Q; destruct Q.
      + eapply Ex; eauto; lia. }
  split.
  - intros b; split.
    + intros Hb; apply In_keys_get in Hb as [c Hc].
      apply (inv_connections _ _ _ _ _ _ I) in Hc as (H1 & H2 & H3 & _).
      split; [assumption | exists (degree c); auto].
    + intros (Hb & n & Hn & Hh).
      assert (Vb : In b (visited st)) by (eapply Hall; eauto).
      apply (inv_visited _ _ _ _ _ _ I) in Vb as [->|Vb]; [congruence | exact Vb].
  - intros b c Hc; now apply (inv_connections _ _ _ _ _ _ I) in Hc.
Qed.

(** Whatever the loop returns is the result the specification asks for. *)
Lemma loop_correct : forall fuel st m r,
  bfs_inv idx s d None m st ->
  bfs_loop fuel idx d st = Some r ->
  bfs_result idx s d r.
Proof.
  induction fuel as [|fuel IH]; intros st m r I; simpl;
    destruct (queue st) as [|[x k] rest] eqn:Hq.
  - intros E; injection E as <-; eapply final_result; eauto.
  - discriminate.
  - intros E; injection E as <-; eapply final_result; eauto.
  - pose proof (head_level _ _ _ _ _ I Hq) as Ik.
    destruct (d <=? k) eqn:Hd.
    + apply Nat.leb_le in Hd; apply (IH _ k).
      eapply skip_inv; [eapply pop_inv; eauto | | assumption].
      apply (inv_queue _ _ _ _ _ _ I x k); rewrite Hq; now left.
    + apply Nat.leb_gt in Hd; apply (IH _ k).
      eapply expand_inv; eauto.
Qed.

End Correct.

End BfsFacts.

(** ** The traversal terminates *)

Module BfsTermination.
Import DirectFacts.

Lemma filter_length_mono {A} (p q : A -> bool) (l : list A) :
  (forall a, p a = true -> q a = true) ->
  List.length (filter p l) <= List.length (filter q l).
Proof.
  intros H; induction l as [|a l IH]; simpl; [lia|].
  destruct (p a) eqn:P; [rewrite (H _ P); simpl; lia|].
  destruct (q a); simpl; lia.
Qed.

Lemma filter_length_lt {A} (p q : A -> bool) (l : list A) c :
  (forall a, p a = true -> q a = true) ->
  In c l -> p c = false -> q c = true ->
  List.length (filter p l) < List.length (filter q l).
Proof.
  intros H Hc Pc Qc; induction l as [|a l IH]; simpl; [contradiction|].
  pose proof (filter_length_mono p q l H).
  destruct Hc as [->|Hc].
  - rewrite Pc, Qc; simpl; lia.
  - specialize (IH Hc).
    destruct (p a) eqn:P; [rewrite (H _ P); simpl; lia|].
    destruct (q a); simpl; lia.
Qed.

Lemma unvisited_lt idx c vis :
  In c (all_names idx) -> ~ In c vis ->
  List.length (unvisited idx (c :: vis)) < List.length (unvisited idx vis).
Proof.
  intros Hc Hv; unfold unvisited.
  apply filter_length_lt with (c := c); auto.
  - intros a; unfold mem; simpl.
    destruct (a =? c)%string; simpl; [discriminate | auto].
  - unfold mem; simpl; now rewrite String.eqb_refl.
  - apply mem_false in Hv; now rewrite Hv.
Qed.

Section Total.
Variables (idx : SongIndex) (d : nat).

Lemma visit_measure deg st kv :
  In (fst kv) (all_names idx) ->
  bfs_measure idx (bfs_visit deg st kv) <= bfs_measure idx st.
Proof.
  intros Hk; unfold bfs_visit.
  destruct (mem (fst kv) (visited st)) eqn:M; simpl; [lia|].
  destruct (has (connections st) (fst kv)); simpl; [lia|].
  apply mem_false in M.
  pose proof (unvisited_lt idx (fst kv) (visited st) Hk M) as L.
  unfold bfs_measure; cbn [queue visited]; rewrite length_app; cbn [List.length].
  lia.
Qed.

Lemma fold_measure deg : forall (l : dict nat) st,
  (forall y, In y (keys l) -> In y (all_names idx)) ->
  bfs_measure idx (fold_left (bfs_visit deg) l st) <= bfs_measure idx st.
Proof.
  induction l as [|kv l IH]; intros st H; simpl; [lia|].
  etransitivity; [apply IH | apply visit_measure].
  - intros y Hy; apply H; now right.
  - apply H; now left.
Qed.

(** With fuel for the measure the loop returns. *)
Lemma loop_total : forall fuel st,
  bfs_measure idx st <= fuel ->
  exists r, bfs_loop fuel idx d st = Some r.
Proof.
  induction fuel as [|fuel IH]; intros [vis q conn] H; simpl;
    destruct q as [|[x k] rest]; eauto.
  - unfold bfs_measure in H; simpl in H; lia.
  - assert (Hp : bfs_measure idx (mkBfs vis rest conn) <= fuel)
      by (unfold bfs_measure in *; simpl in *; lia).
    destruct (d <=? k); [now apply IH|].
    apply IH; etransitivity; [apply fold_measure | exact Hp].
    intros y Hy; apply raw_keys in Hy; eapply adjacent_names; eauto.
Qed.

Lemma initial_measure a :
  bfs_measure idx (mkBfs [a] [(a, 0)] []) <= bfs_fuel idx.
Proof.
  unfold bfs_measure, bfs_fuel, unvisited; simpl.
  pose proof (filter_length_le (fun x => negb (mem x [a])) (all_names idx)).
  simpl in *; lia.
Qed.

End Total.

End BfsTermination.

(** The traversal returns, and returns the artists within the bound with
    their least numbers of hops. *)
Lemma bfs_correct idx a d :
  trimmed_index idx ->
  exists r, _get_connections_bfs idx a d = Some r
            /\ bfs_result idx (strip a) d r.
Proof.
  intros Htrim; unfold _get_connections_bfs.
  destruct (BfsTermination.loop_total idx d _ _
              (BfsTermination.initial_measure idx (strip a))) as [r Hr].
  exists r; split; [assumption|].
  eapply BfsFacts.loop_correct; eauto.
  apply BfsFacts.initial_inv, strip_idem.
Qed.

(** ** Neighbourhood queries *)

Example bfs_sample :
  _get_connections_bfs sample_index "Artist X" 2
  = Some [ ("Artist Y", mkConnection 1 1); ("Artist Z", mkConnection 1 2) ].
Proof. reflexivity. Qed.

Example direct_sample :
  _get_direct_connections sample_index " Artist Y "
  = [ ("Artist X", mkConnection 1 1); ("Artist Z", mkConnection 1 1) ].
Proof. reflexivity. Qed.

Lemma sample_index_trimmed : trimmed_index sample_index.
Proof.
  intros a H; simpl in H.
  repeat (destruct H as [<-|H]; [reflexivity|]); contradiction.
Defined.

(** C1. For every artist [A] and every bound [d >= 1], the neighbours
    within degree [d] -- through [get_artist_connections] as through the
    traversal [_get_connections_bfs] -- are returned, and are exactly the
    artists other than [A] that some walk of at most [d] hops of the
    song-collaboration graph reaches from [A]; the degree recorded for each
    is the least number of hops of any walk from [A] to it; [A] itself is
    not in the result.  Artist names are trimmed, as the data model has
    them. *)
Theorem neighbors_within_degree_correct
    (idx : SongIndex) (A : string) (d : nat) :
  trimmed_index idx -> strip A = A -> 1 <= d ->
  exists r,
    get_artist_connections idx A d = Some r
    /\ _get_connections_bfs idx A d = Some r
    /\ (forall b, In b (keys r) <->
                  b <> A /\ exists n, n <= d /\ hops idx A n b)
    /\ (forall b c, get r b = Some c -> min_hops idx A b (degree c))
    /\ ~ In A (keys r).
Proof.
  intros Htrim HA Hd.
  destruct (bfs_correct idx A d Htrim) as (r & Hr & Hset & Hmin).
  rewrite HA in Hset, Hmin.
  exists r; split; [|split; [assumption | split; [assumption | split]]].
  - unfold get_artist_connections; destruct (d =? 1) eqn:E; [|assumption].
    apply Nat.eqb_eq in E; subst d.
    now rewrite <- ShortcutFacts.bfs_degree_one.
  - assumption.
  - intros H; apply Hset in H as [N _]; now apply N.
Qed.

Lemma neighbors_within_degree_witness :
  exists r,
    get_artist_connections sample_index "Artist X" 2 = Some r
    /\ _get_connections_bfs sample_index "Artist X" 2 = Some r
    /\ (forall b, In b (keys r) <->
                  b <> "Artist X"
                  /\ exists n, n <= 2 /\ hops sample_index "Artist X" n b)
    /\ (forall b c, get r b = Some c ->
                    min_hops sample_index "Artist X" b (degree c))
    /\ ~ In "Artist X" (keys r).
Proof.
  apply (neighbors_within_degree_correct sample_index "Artist X" 2).
  - exact sample_index_trimmed.
  - reflexivity.
  - lia.
Defined.

(** C4. For every artist [A], the query at degree 1 and the traversal
    bounded by one hop agree: both return the dictionary of direct
    connections of [A], the same collaborators with the same counts (and
    degree 1), in the same order. *)
Theorem degree_one_shortcut_equivalence (idx : SongIndex) (A : string) :
  get_artist_connections idx A 1 = Some (_get_direct_connections idx A)
  /\ _get_connections_bfs idx A 1 = Some (_get_direct_connections idx A).
Proof.
  split; [reflexivity | apply ShortcutFacts.bfs_degree_one].
Qed.

(** ** The graph builder *)

Module BuilderFacts.

Ltac string_cases :=
  repeat match goal with
         | |- context [string_dec ?x ?y] => destruct (string_dec x y)
         end;
  subst; simpl; try congruence; try lia.

Lemma bump_bump n m w : bump n (bump m w) = bump (m + n) w.
Proof.
  destruct m as [|m]; [reflexivity|].
  destruct n as [|n]; simpl.
  - now rewrite Nat.add_0_r.
  - f_equal; lia.
Qed.

Lemma weight_set collaborations k inner a b :
  weight (set collaborations k inner) a b
  = if string_dec a k then get inner b else weight collaborations a b.
Proof.
  unfold weight; destruct (string_dec a k) as [->|N].
  - now rewrite get_set_same.
  - rewrite get_set_other; [reflexivity | congruence].
Qed.

Lemma weight_getd collaborations a b :
  get (getd collaborations a []) b = weight collaborations a b.
Proof.
  unfold weight, getd, Adjacency, dict in *.
  destruct (get collaborations a); reflexivity.
Qed.

Lemma weight_update_pair artist collaborations other a b :
  weight (update_pair artist collaborations other) a b
  = bump (if string_dec a artist
          then if string_dec b other
               then if string_dec b a then 0 else 1
               else 0
          else 0)
         (weight collaborations a b).
Proof.
  unfold update_pair.
  destruct (String.eqb_spec other artist) as [->|N]; simpl.
  { destruct (string_dec a artist) as [->|]; [|reflexivity].
    destruct (string_dec b artist) as [->|]; [|reflexivity].
    destruct (string_dec artist artist); [reflexivity | contradiction]. }
  rewrite weight_set.
  destruct (string_dec a artist) as [->|Na]; [|reflexivity].
  set (inner := getd collaborations artist []).
  assert (Hw : forall x, get inner x = weight collaborations artist x)
    by (intros x; apply weight_getd).
  destruct (string_dec b other) as [->|Nb].
  - destruct (string_dec other artist) as [|_]; [contradiction|].
    rewrite get_set_same; simpl; f_equal.
    unfold getd, has; rewrite <- Hw.
    destruct (get inner other) eqn:E; simpl.
    + now rewrite E.
    + now rewrite get_set_same.
  - rewrite get_set_other by congruence; simpl.
    destruct (has inner other); simpl; [apply Hw|].
    rewrite get_set_other by congruence; apply Hw.
Qed.

Lemma weight_inner_loop artist (l : list string) : forall collaborations a b,
  weight (fold_left (update_pair artist) l collaborations) a b
  = bump (if string_dec a artist
          then if string_dec b a then 0 else count_occ string_dec l b
          else 0)
         (weight collaborations a b).
Proof.
  induction l as [|o l IH]; intros collaborations a b; simpl.
  - destruct (string_dec a artist); [destruct (string_dec b a)|]; reflexivity.
  - rewrite IH, weight_update_pair, bump_bump; f_equal.
    string_cases.
Qed.

Lemma weight_update_artist l collaborations artist a b :
  weight (update_artist l collaborations artist) a b
  = bump (if string_dec a artist
          then if string_dec b a then 0 else count_occ string_dec l b
          else 0)
         (weight collaborations a b).
Proof.
  unfold update_artist; rewrite weight_inner_loop; f_equal.
  destruct (has collaborations artist) eqn:H; simpl; [reflexivity|].
  rewrite weight_set; destruct (string_dec a artist) as [->|]; [|reflexivity].
  unfold weight, has in *; destruct (get collaborations artist); [discriminate|].
  reflexivity.
Qed.

Lemma weight_outer_loop l2 (l1 : list string) : forall collaborations a b,
  weight (fold_left (update_artist l2) l1 collaborations) a b
  = bump (pair_count l1 l2 a b) (weight collaborations a b).
Proof.
  unfold pair_count.
  induction l1 as [|o l1 IH]; intros collaborations a b; simpl.
  - destruct (string_dec a b); reflexivity.
  - rewrite IH, weight_update_artist, bump_bump; f_equal.
    string_cases.
Qed.

Lemma weight_update_collaborations collaborations artists a b :
  weight (_update_collaborations collaborations artists) a b
  = bump (pair_count artists artists a b) (weight collaborations a b).
Proof. apply weight_outer_loop. Qed.

Lemma pair_count_sym l a b : pair_count l l a b = pair_count l l b a.
Proof.
  unfold pair_count.
  string_cases.
Qed.

Lemma build_row_weight excs acc row a b :
  weight (fst (build_row excs acc row)) a b
  = bump (pair_count (row_artists excs row) (row_artists excs row) a b)
         (weight (fst acc) a b).
Proof.
  unfold build_row, row_artists.
  destruct row as [|position [|title [|artist_str [|featured [|]]]]];
    try (unfold pair_count; destruct (string_dec a b); reflexivity).
  destruct (_extract_artists excs artist_str featured) as [|x l] eqn:E.
  - unfold pair_count; destruct (string_dec a b); reflexivity.
  - simpl fst; apply weight_update_collaborations.
Qed.

(** The weight after the rows: raised once for every meeting of the pair. *)
Lemma build_rows_weight excs rows : forall acc a b,
  weight (fst (fold_left (build_row excs) rows acc)) a b
  = bump (pairs_in_rows excs a b rows) (weight (fst acc) a b).
Proof.
  unfold pairs_in_rows.
  induction rows as [|row rows IH]; intros acc a b; simpl; [reflexivity|].
  now rewrite IH, build_row_weight, bump_bump.
Qed.

Lemma pairs_in_rows_sym excs rows a b :
  pairs_in_rows excs a b rows = pairs_in_rows excs b a rows.
Proof.
  unfold pairs_in_rows; f_equal; apply map_ext; intros row.
  apply pair_count_sym.
Qed.

End BuilderFacts.

(** ** Sets of artists *)

Module SetFacts.

Lemma set_add_In x xs y : In y (set_add x xs) <-> y = x \/ In y xs.
Proof.
  unfold set_add; destruct (mem x xs) eqn:M.
  - apply mem_In in M; intuition; subst; assumption.
  - rewrite in_app_iff; simpl; intuition.
Qed.

Lemma set_add_NoDup x xs : NoDup xs -> NoDup (set_add x xs).
Proof.
  intros H; unfold set_add; destruct (mem x xs) eqn:M; [assumption|].
  apply mem_false in M; apply NoDup_app; [assumption | repeat constructor; intros [] |].
  intros a Ha [<-|[]]; contradiction.
Qed.

Lemma set_union_NoDup b : forall a, NoDup a -> NoDup (set_union a b).
Proof.
  unfold set_union; induction b as [|x b IH]; intros a H; simpl; [assumption|].
  apply IH, set_add_NoDup, H.
Qed.

Lemma set_union_In b : forall a y, In y (set_union a b) <-> In y a \/ In y b.
Proof.
  unfold set_union; induction b as [|x b IH]; intros a y; simpl; [intuition|].
  rewrite IH, set_add_In; intuition.
Qed.

Lemma restore_NoDup token_map temp : NoDup (restore token_map temp).
Proof.
  unfold restore.
  assert (G : forall acc, NoDup acc ->
    NoDup (fold_left
      (fun result a =>
         let a := strip a in
         if (a =? "")%string then result
         else match get token_map a with
              | Some exc => set_add exc result
              | None => set_add a result
              end) temp acc)).
  { induction temp as [|a temp IH]; intros acc H; simpl; [assumption|].
    apply IH; destruct (strip a =? "")%string; [assumption|].
    destruct (get token_map (strip a)); now apply set_add_NoDup. }
  apply G; constructor.
Qed.

Lemma split_artists_NoDup excs s : NoDup (split_artists excs s).
Proof.
  unfold split_artists; destruct (s =? "N/A")%string; [constructor|].
  destruct (protect excs 0 (strip s) []); apply restore_NoDup.
Qed.

Lemma extract_artists_NoDup excs a f : NoDup (_extract_artists excs a f).
Proof. apply set_union_NoDup, split_artists_NoDup. Qed.

Lemma row_artists_NoDup excs row : NoDup (row_artists excs row).
Proof.
  unfold row_artists.
  destruct row as [|position [|title [|artist_str [|featured [|]]]]];
    try constructor.
  apply extract_artists_NoDup.
Qed.

Lemma count_occ_NoDup (l : list string) a :
  NoDup l -> count_occ string_dec l a = if mem a l then 1 else 0.
Proof.
  intros H; destruct (mem a l) eqn:M.
  - apply mem_In in M.
    apply NoDup_count_occ with (decA := string_dec) (x := a) in H as H'.
    apply (count_occ_In string_dec) in M; lia.
  - apply mem_false in M; now apply count_occ_not_In.
Qed.

End SetFacts.

Module BuilderCounts.
Import BuilderFacts SetFacts.

Lemma pairs_rows_with excs a b rows :
  a <> b -> pairs_in_rows excs a b rows = rows_with excs a b rows.
Proof.
  intros N; unfold pairs_in_rows, rows_with.
  induction rows as [|row rows IH]; simpl; [reflexivity|].
  rewrite IH; unfold pair_count.
  destruct (string_dec a b); [contradiction|].
  rewrite !count_occ_NoDup by apply row_artists_NoDup.
  destruct (mem a (row_artists excs row)), (mem b (row_artists excs row));
    reflexivity.
Qed.

Lemma bump_None n : bump n None = stored n.
Proof. destruct n; reflexivity. Qed.

Lemma row_entry_cases excs row :
  (row_entry excs row = [] /\ row_artists excs row = [])
  \/ exists k, row_entry excs row = [(k, row_artists excs row)]
               /\ row_artists excs row <> [].
Proof.
  unfold row_entry, row_artists.
  destruct row as [|position [|title [|artist_str [|featured [|]]]]]; auto.
  destruct (_extract_artists excs artist_str featured); [auto|].
  right; eexists; split; [reflexivity | discriminate].
Qed.

Lemma snd_build_row excs acc row :
  snd (build_row excs acc row)
  = match row_entry excs row with
    | [] => snd acc
    | e :: _ => set (snd acc) (fst e) (snd e)
    end.
Proof.
  unfold build_row, row_entry.
  destruct row as [|position [|title [|artist_str [|featured [|]]]]]; auto.
  destruct (_extract_artists excs artist_str featured); reflexivity.
Qed.

(** With song keys that differ, the index lists the rows one by one. *)
Lemma build_rows_songs excs rows : forall acc,
  NoDup (keys (snd acc) ++ row_keys excs rows) ->
  snd (fold_left (build_row excs) rows acc) = snd acc ++ row_entries excs rows.
Proof.
  unfold row_keys, row_entries.
  induction rows as [|row rows IH]; intros acc H; simpl.
  - now rewrite app_nil_r.
  - simpl in H.
    destruct (row_entry_cases excs row) as [[E _] | (k & E & _)];
      rewrite E in *; simpl in H.
    + rewrite IH; rewrite snd_build_row, E; [reflexivity | exact H].
    + assert (Hk : ~ In k (keys (snd acc))).
      { apply NoDup_remove_2 in H; intros I; apply H, in_or_app; now left. }
      rewrite IH; rewrite snd_build_row, E; simpl;
        rewrite set_new by assumption.
      * now rewrite <- app_assoc.
      * unfold keys in *; rewrite map_app, <- app_assoc; exact H.
Qed.

Lemma songs_with_entries excs a b rows :
  songs_with a b (row_entries excs rows) = rows_with excs a b rows.
Proof.
  unfold songs_with, rows_with, row_entries.
  induction rows as [|row rows IH]; simpl; [reflexivity|].
  rewrite filter_app, length_app, IH.
  destruct (row_entry_cases excs row) as [[-> ->] | (k & -> & _)]; simpl.
  - reflexivity.
  - destruct (_ && _); reflexivity.
Qed.

End BuilderCounts.

(** ** Weights, symmetry and the refresh *)

(** The example of the specification: two rows, one collaboration. *)
Example build_example :
  _build_relationship_dicts EXCEPTIONS example_file
  = Return
      ( [ ("Artist X", [("Artist Y", 1)]); ("Artist Y", [("Artist X", 1)]) ],
        [ ("Song A/////Artist X&&&Artist Y/////1", ["Artist X"; "Artist Y"]);
          ("Song B/////Artist X/////2", ["Artist X"]) ] ).
Proof. reflexivity. Qed.

(** What the builder makes of a song that occurs on two rows. *)
Example build_duplicate :
  _build_relationship_dicts EXCEPTIONS duplicate_file
  = Return
      ( [ ("Artist X", [("Artist Y", 2)]); ("Artist Y", [("Artist X", 2)]) ],
        [ ("Song A/////Artist X&&&Artist Y/////1", ["Artist X"; "Artist Y"]) ] ).
Proof. reflexivity. Qed.

(** C2, as stated, fails: with one song on two rows the pair's weight is 2,
    and the song index holds one song on which both appear. *)
Lemma duplicate_rows_counted_twice :
  ~ weights_count_distinct_songs EXCEPTIONS duplicate_file.
Proof.
  intros H.
  specialize (H _ _ "Artist X" "Artist Y" build_duplicate).
  assert (N : "Artist X" <> "Artist Y") by discriminate.
  specialize (H N); vm_compute in H; discriminate.
Qed.

(** C2, amended.  For every file, the weight stored for a pair of distinct
    artists is the number of rows on which both appear, a pair that never
    met having no entry: a song that occurs on several rows is counted once
    per row.  When no two rows give the same song key, this is the number
    of songs of the index on which both appear. *)
Theorem weight_counts_rows
    (excs : list string) (file : list (list string))
    (collaborations : Adjacency) (songs_to_artists : SongIndex)
    (A B : string) :
  _build_relationship_dicts excs file
  = Return (collaborations, songs_to_artists) ->
  A <> B ->
  weight collaborations A B = stored (rows_with excs A B (tl file))
  /\ (NoDup (row_keys excs (tl file)) ->
      weight collaborations A B = stored (songs_with A B songs_to_artists)).
Proof.
  intros Hb N; destruct file as [|header rows]; [discriminate|].
  simpl in *; injection Hb as Hb.
  assert (Hc : collaborations = fst (fold_left (build_row excs) rows ([], [])))
    by now rewrite Hb.
  assert (Hs : songs_to_artists
               = snd (fold_left (build_row excs) rows ([], [])))
    by now rewrite Hb.
  assert (Hw : weight collaborations A B = stored (rows_with excs A B rows)).
  { rewrite Hc, BuilderFacts.build_rows_weight; simpl.
    rewrite BuilderCounts.bump_None.
    now rewrite BuilderCounts.pairs_rows_with. }
  split; [exact Hw|].
  intros ND; rewrite Hw, Hs.
  rewrite BuilderCounts.build_rows_songs by exact ND; simpl.
  now rewrite BuilderCounts.songs_with_entries.
Qed.

Lemma weight_counts_rows_witness :
  weight [ ("Artist X", [("Artist Y", 1)]); ("Artist Y", [("Artist X", 1)]) ]
    "Artist X" "Artist Y"
  = stored (rows_with EXCEPTIONS "Artist X" "Artist Y" (tl example_file))
  /\ (NoDup (row_keys EXCEPTIONS (tl example_file)) ->
      weight
        [ ("Artist X", [("Artist Y", 1)]); ("Artist Y", [("Artist X", 1)]) ]
        "Artist X" "Artist Y"
      = stored
          (songs_with "Artist X" "Artist Y"
             [ ("Song A/////Artist X&&&Artist Y/////1",
                ["Artist X"; "Artist Y"]);
               ("Song B/////Artist X/////2", ["Artist X"]) ])).
Proof.
  apply (weight_counts_rows EXCEPTIONS example_file).
  - reflexivity.
  - discriminate.
Defined.

(** C3.  For every file, the adjacency map the builder makes is symmetric:
    for all artists [A] and [B], [A] has an entry for [B] exactly when [B]
    has one for [A], and the two weights are equal. *)
Theorem adjacency_symmetric
    (excs : list string) (file : list (list string))
    (collaborations : Adjacency) (songs_to_artists : SongIndex) :
  _build_relationship_dicts excs file
  = Return (collaborations, songs_to_artists) ->
  forall A B, weight collaborations A B = weight collaborations B A.
Proof.
  intros Hb A B; destruct file as [|header rows]; [discriminate|].
  simpl in Hb; injection Hb as Hb.
  assert (Hc : collaborations = fst (fold_left (build_row excs) rows ([], [])))
    by now rewrite Hb.
  rewrite Hc, !BuilderFacts.build_rows_weight; simpl.
  now rewrite BuilderFacts.pairs_in_rows_sym.
Qed.

Lemma adjacency_symmetric_witness :
  weight [ ("Artist X", [("Artist Y", 1)]); ("Artist Y", [("Artist X", 1)]) ]
    "Artist X" "Artist Y"
  = weight
      [ ("Artist X", [("Artist Y", 1)]); ("Artist Y", [("Artist X", 1)]) ]
      "Artist Y" "Artist X".
Proof.
  apply (adjacency_symmetric EXCEPTIONS example_file _
           [ ("Song A/////Artist X&&&Artist Y/////1",
              ["Artist X"; "Artist Y"]);
             ("Song B/////Artist X/////2", ["Artist X"]) ]).
  reflexivity.
Defined.

(** A failed refresh leaves every file as it was. *)
Lemma process_data_raise_unchanged config excs file fs e fs' :
  process_data config excs file fs = (Raise e, fs') -> fs' = fs.
Proof.
  unfold process_data, bind, lift, ret, _save_with_backup.
  destruct (_build_relationship_dicts excs file) as [[c s]|]; simpl.
  - destruct (_validate_data c s); simpl; [discriminate|].
    intros H; now injection H.
  - intros H; now injection H.
Qed.

(** C8.  For every file whose build yields an empty adjacency map or an
    empty song index, the refresh raises, and no file is written, renamed
    or removed: the files are those before the call. *)
Theorem empty_result_aborts_before_write
    (config : ProcessingConfig) (excs : list string)
    (file : list (list string))
    (collaborations : Adjacency) (songs_to_artists : SongIndex)
    (fs : FileSystem) :
  _build_relationship_dicts excs file
  = Return (collaborations, songs_to_artists) ->
  collaborations = [] \/ songs_to_artists = [] ->
  exists msg,
    process_data config excs file fs = (Raise (ValueError msg), fs).
Proof.
  intros Hb He; unfold process_data, bind, lift; rewrite Hb; simpl.
  destruct collaborations as [|c cs]; simpl; [eauto|].
  destruct He as [He|He]; [discriminate|]; subst; simpl; eauto.
Qed.

Lemma empty_result_aborts_witness :
  exists msg,
    process_data (mkConfig "cleaned.csv" "collaborations.json"
                    "songs_to_artists.json" 1)
      EXCEPTIONS [["position"; "track"; "artist"; "featured_artists"]]
      [ ("collaborations.json", JsonAdjacency [("Artist X", [])]);
        ("songs_to_artists.json",
         JsonSongIndex [("Song B/////Artist X/////2", ["Artist X"])]) ]
    = (Raise (ValueError msg),
       [ ("collaborations.json", JsonAdjacency [("Artist X", [])]);
         ("songs_to_artists.json",
          JsonSongIndex [("Song B/////Artist X/////2", ["Artist X"])]) ]).
Proof.
  apply (empty_result_aborts_before_write _ EXCEPTIONS _ [] []).
  - reflexivity.
  - now left.
Defined.

(** A refresh that succeeds keeps the previous files as backups. *)
Example process_data_example :
  snd (process_data (mkConfig "cleaned.csv" "c.json" "s.json" 1)
         EXCEPTIONS example_file [("c.json", JsonAdjacency [])])
  = [ ("c.json.backup", JsonAdjacency []);
      ("c.json",
       JsonAdjacency
         [ ("Artist X", [("Artist Y", 1)]); ("Artist Y", [("Artist X", 1)]) ]);
      ("s.json",
       JsonSongIndex
         [ ("Song A/////Artist X&&&Artist Y/////1", ["Artist X"; "Artist Y"]);
           ("Song B/////Artist X/////2", ["Artist X"]) ]) ].
Proof. reflexivity. Qed.

(** ** The subgraph query returns *)

Module ReachFacts.
Import DirectFacts.

Section Total.
Variables (idx : SongIndex) (d : nat).

Lemma reach_visit_measure deg st c :
  In c (all_names idx) ->
  reach_measure idx (reach_visit deg st c) <= reach_measure idx st.
Proof.
  intros Hc; unfold reach_visit.
  destruct (mem c (reach_visited st)) eqn:M; simpl; [lia|].
  apply mem_false in M.
  pose proof (BfsTermination.unvisited_lt idx c (reach_visited st) Hc M) as L.
  unfold reach_measure; cbn [reach_queue reach_visited].
  rewrite length_app; cbn [List.length]; lia.
Qed.

Lemma reach_fold_measure deg : forall (l : list string) st,
  (forall y, In y l -> In y (all_names idx)) ->
  reach_measure idx (fold_left (reach_visit deg) l st) <= reach_measure idx st.
Proof.
  induction l as [|c l IH]; intros st H; simpl; [lia|].
  etransitivity; [apply IH | apply reach_visit_measure].
  - intros y Hy; apply H; now right.
  - apply H; now left.
Qed.

Lemma reach_loop_total : forall fuel st,
  reach_measure idx st <= fuel ->
  exists all, reach_loop fuel idx d st = Some all.
Proof.
  induction fuel as [|fuel IH]; intros [vis q all] H; simpl;
    destruct q as [|[x k] rest]; eauto.
  - unfold reach_measure in H; simpl in H; lia.
  - assert (Hp : reach_measure idx (mkReach vis rest all) <= fuel)
      by (unfold reach_measure in *; simpl in *; lia).
    destruct (k <? d); [|now apply IH].
    apply IH; etransitivity; [apply reach_fold_measure | exact Hp].
    intros y Hy; apply raw_keys in Hy; eapply adjacent_names; eauto.
Qed.

End Total.

(** The subgraph query returns a graph. *)
Lemma get_artist_connections_graph_total idx a d :
  exists g, get_artist_connections_graph idx a d = Some g.
Proof.
  unfold get_artist_connections_graph.
  destruct (reach_loop_total idx d (bfs_fuel idx)
              (mkReach [strip a] [(strip a, 0)] [strip a])) as [all ->];
    [|eauto].
  exact (BfsTermination.initial_measure idx (strip a)).
Qed.

End ReachFacts.

(** ** Trimming of the artist name *)

Lemma direct_connections_trim idx l x r :
  all_space l = true -> all_space r = true ->
  _get_direct_connections idx (l ++ x ++ r)
  = _get_direct_connections idx (strip x).
Proof.
  intros Hl Hr; unfold _get_direct_connections.
  now rewrite strip_pad, strip_idem.
Qed.

Lemma get_artist_connections_trim idx l x r d :
  all_space l = true -> all_space r = true ->
  get_artist_connections idx (l ++ x ++ r) d
  = get_artist_connections idx (strip x) d.
Proof.
  intros Hl Hr.
  unfold get_artist_connections, _get_connections_bfs, _get_direct_connections.
  now rewrite strip_pad, strip_idem.
Qed.

Lemma connections_graph_trim idx l x r d :
  all_space l = true -> all_space r = true ->
  get_artist_connections_graph idx (l ++ x ++ r) d
  = get_artist_connections_graph idx (strip x) d.
Proof.
  intros Hl Hr; unfold get_artist_connections_graph.
  now rewrite strip_pad, strip_idem.
Qed.

(** C7 fails on the existence check: [artist_exists] compares the name as
    it is given, so an artist of the index is not found under its name
    with a space before it, while the neighbour queries and the subgraph
    query trim the name and answer as for the trimmed name. *)
Theorem artist_exists_does_not_trim :
  artist_exists sample_index "Artist X" = true
  /\ artist_exists sample_index " Artist X" = false
  /\ strip " Artist X" = "Artist X"
  /\ get_artist_connections sample_index " Artist X" 1
     = get_artist_connections sample_index "Artist X" 1
  /\ get_artist_connections sample_index " Artist X" 2
     = get_artist_connections sample_index "Artist X" 2
  /\ get_artist_connections_graph sample_index " Artist X" 2
     = get_artist_connections_graph sample_index "Artist X" 2.
Proof. repeat split. Qed.

(** ** The names the builder records are trimmed *)

Module TrimmedFacts.
Import SetFacts.

Lemma restore_trimmed (token_map : dict string) temp :
  (forall k v, get token_map k = Some v -> trimmed v) ->
  Forall trimmed (restore token_map temp).
Proof.
  intros Hm; unfold restore.
  assert (G : forall acc, Forall trimmed acc ->
    Forall trimmed (fold_left
      (fun result a =>
         let a := strip a in
         if (a =? "")%string then result
         else match get token_map a with
              | Some exc => set_add exc result
              | None => set_add a result
              end) temp acc)).
  { induction temp as [|a temp IH]; intros acc H; simpl; [assumption|].
    apply IH; destruct (strip a =? "")%string; [assumption|].
    destruct (get token_map (strip a)) as [exc|] eqn:E;
      apply Forall_forall; intros x Hx; apply set_add_In in Hx as [->|Hx];
      try (rewrite Forall_forall in H; now apply H).
    - eapply Hm; eauto.
    - apply strip_idem. }
  apply G; constructor.
Qed.

Lemma protect_trimmed excs : forall idx s (token_map : dict string),
  Forall trimmed excs ->
  (forall k v, get token_map k = Some v -> trimmed v) ->
  forall k v, get (snd (protect excs idx s token_map)) k = Some v -> trimmed v.
Proof.
  induction excs as [|exc excs IH]; intros idx s token_map He Hm; simpl.
  - exact Hm.
  - inversion He as [|? ? Hexc He']; subst.
    destruct (subn exc (exc_token idx) s) as [s' n].
    apply IH; [assumption|].
    destruct (0 <? n); [|exact Hm].
    intros k v; destruct (string_dec (exc_token idx) k) as [<-|N].
    + rewrite get_set_same; intros E; injection E as <-; exact Hexc.
    + rewrite get_set_other by assumption; apply Hm.
Qed.

Lemma split_artists_trimmed excs s :
  Forall trimmed excs -> Forall trimmed (split_artists excs s).
Proof.
  intros He; unfold split_artists; destruct (s =? "N/A")%string; [constructor|].
  destruct (protect excs 0 (strip s) []) as [tokenized token_map] eqn:E.
  apply restore_trimmed.
  change token_map with (snd (tokenized, token_map)); rewrite <- E.
  apply protect_trimmed; [assumption | discriminate].
Qed.

Lemma extract_artists_trimmed excs a f :
  Forall trimmed excs -> Forall trimmed (_extract_artists excs a f).
Proof.
  intros He; apply Forall_forall; intros x Hx.
  apply set_union_In in Hx as [Hx|Hx];
    eapply Forall_forall in Hx; eauto using split_artists_trimmed.
Qed.

Lemma all_names_set (d : SongIndex) k v a :
  In a (all_names (set d k v)) -> In a v \/ In a (all_names d).
Proof.
  unfold all_names; induction d as [|[k' v'] d IH]; simpl.
  - rewrite app_nil_r; auto.
  - destruct (k' =? k)%string; simpl; rewrite !in_app_iff; intuition.
Qed.

Lemma build_rows_trimmed excs rows : forall acc,
  Forall trimmed excs ->
  trimmed_index (snd acc) ->
  trimmed_index (snd (fold_left (build_row excs) rows acc)).
Proof.
  induction rows as [|row rows IH]; intros acc He Ha; simpl; [assumption|].
  apply IH; [assumption|].
  rewrite BuilderCounts.snd_build_row.
  destruct (BuilderCounts.row_entry_cases excs row) as [[-> _] | (k & -> & _)];
    [assumption|].
  intros a H; simpl in H; apply all_names_set in H as [H|H]; [|now apply Ha].
  unfold row_artists in H.
  destruct row as [|position [|title [|artist_str [|featured [|]]]]];
    try contradiction.
  pose proof (extract_artists_trimmed excs artist_str featured He) as Ht.
  rewrite Forall_forall in Ht; now apply Ht.
Qed.

Lemma exceptions_trimmed excs :
  Permutation EXCEPTIONS excs -> Forall trimmed excs.
Proof.
  intros H; eapply Permutation_Forall; [exact H|].
  repeat constructor.
Qed.

(** Whatever the order of the exception names, the song index the builder
    makes holds trimmed names only: the data model's invariant. *)
Lemma built_index_trimmed excs file collaborations songs_to_artists :
  Permutation EXCEPTIONS excs ->
  _build_relationship_dicts excs file
  = Return (collaborations, songs_to_artists) ->
  trimmed_index songs_to_artists.
Proof.
  intros He Hb; destruct file as [|header rows]; [discriminate|].
  simpl in Hb; injection Hb as Hb.
  assert (Hs : songs_to_artists
               = snd (fold_left (build_row excs) rows ([], [])))
    by now rewrite Hb.
  rewrite Hs; apply build_rows_trimmed.
  - now apply exceptions_trimmed.
  - intros a [].
Qed.

End TrimmedFacts.

(** The neighbourhood query on an index the builder made: the hypothesis
    on the names of the index is met by construction. *)
Corollary neighbors_in_built_index
    excs file collaborations songs_to_artists A d :
  Permutation EXCEPTIONS excs ->
  _build_relationship_dicts excs file
  = Return (collaborations, songs_to_artists) ->
  exists r, _get_connections_bfs songs_to_artists A d = Some r
            /\ bfs_result songs_to_artists (strip A) d r.
Proof.
  intros He Hb; apply bfs_correct.
  eapply TrimmedFacts.built_index_trimmed; eauto.
Qed.

(** ** The order on strings *)

Module OrderFacts.

Lemma ascii_compare_refl c : Ascii.compare c c = Eq.
Proof. apply N.compare_refl. Qed.

Lemma ascii_lt_trans a b c :
  Ascii.compare a b = Lt -> Ascii.compare b c = Lt -> Ascii.compare a c = Lt.
Proof.
  unfold Ascii.compare; rewrite !N.compare_lt_iff; apply N.lt_trans.
Qed.

Lemma compare_refl s : String.compare s s = Eq.
Proof. induction s; simpl; [reflexivity | now rewrite ascii_compare_refl]. Qed.

Lemma compare_lt_trans : forall a b c,
  String.compare a b = Lt -> String.compare b c = Lt ->
  String.compare a c = Lt.
Proof.
  induction a as [|x a IH]; intros [|y b] [|z c]; simpl; try discriminate; auto.
  destruct (Ascii.compare x y) eqn:Exy; try discriminate;
    destruct (Ascii.compare y z) eqn:Eyz; try discriminate; intros H1 H2.
  - apply Ascii.compare_eq_iff in Exy, Eyz; subst.
    rewrite ascii_compare_refl; eauto.
  - apply Ascii.compare_eq_iff in Exy; subst; now rewrite Eyz.
  - apply Ascii.compare_eq_iff in Eyz; subst; now rewrite Exy.
  - now rewrite (ascii_lt_trans _ _ _ Exy Eyz).
Qed.

Lemma str_leb_iff a b : str_leb a b = true <-> a = b \/ str_lt a b.
Proof.
  unfold str_leb, String.leb, str_lt.
  destruct (String.compare a b) eqn:E.
  - apply String.compare_eq_iff in E; intuition.
  - intuition.
  - split; [discriminate|].
    intros [->|H]; [rewrite compare_refl in E|]; discriminate.
Qed.

Lemma str_leb_trans a b c :
  str_leb a b = true -> str_leb b c = true -> str_leb a c = true.
Proof.
  rewrite !str_leb_iff; intros [->|H1] [->|H2]; auto.
  right; eapply compare_lt_trans; eauto.
Qed.

Lemma str_leb_total a b : str_leb a b = true \/ str_leb b a = true.
Proof. apply String.leb_total. Qed.

End OrderFacts.

(** ** Sorting *)

Module SortFacts.

Section Sort.
Context {A : Type} (leb : A -> A -> bool).
Hypothesis leb_total : forall a b, leb a b = true \/ leb b a = true.
Hypothesis leb_trans :
  forall a b c, leb a b = true -> leb b c = true -> leb a c = true.

Let le (a b : A) : Prop := leb a b = true.

Lemma insert_sorted_perm x l : Permutation (insert_sorted leb x l) (x :: l).
Proof.
  induction l as [|y l IH]; simpl; [reflexivity|].
  destruct (leb x y); [reflexivity|].
  rewrite IH; apply perm_swap.
Qed.

Lemma sorted_perm l : Permutation (sorted leb l) l.
Proof.
  induction l as [|x l IH]; simpl; [reflexivity|].
  rewrite insert_sorted_perm; now constructor.
Qed.

Lemma insert_sorted_strongly x l :
  StronglySorted le l -> StronglySorted le (insert_sorted leb x l).
Proof.
  induction l as [|y l IH]; intros H; simpl.
  - repeat constructor.
  - inversion H as [|? ? Hl Hy]; subst.
    destruct (leb x y) eqn:E.
    + constructor; [assumption|].
      constructor; [exact E|].
      eapply Forall_impl; [|exact Hy].
      intros z Hz; eapply leb_trans; eauto.
    + constructor; [now apply IH|].
      assert (Hyx : le y x) by (destruct (leb_total x y); [congruence | assumption]).
      eapply Permutation_Forall;
        [symmetry; apply insert_sorted_perm | constructor; assumption].
Qed.

Lemma sorted_strongly l : StronglySorted le (sorted leb l).
Proof.
  induction l as [|x l IH]; simpl; [constructor|].
  now apply insert_sorted_strongly.
Qed.

End Sort.

Lemma StronglySorted_strict {A} (R R' : A -> A -> Prop) l :
  (forall a b, R a b -> a <> b -> R' a b) ->
  NoDup l -> StronglySorted R l -> StronglySorted R' l.
Proof.
  intros H ND S; induction S as [|a l S IH Ha]; [constructor|].
  inversion ND as [|? ? Na ND']; subst.
  constructor; [auto|].
  rewrite Forall_forall in *; intros b Hb; apply H; [auto|].
  intros ->; contradiction.
Qed.

End SortFacts.

(** ** Search *)

Module SearchFacts.
Import OrderFacts SortFacts.

Lemma prefix_iff p : forall s,
  String.prefix p s = true <-> exists rest, s = (p ++ rest)%string.
Proof.
  induction p as [|c p IH]; intros s; simpl.
  - split; [intros _; exists s; reflexivity | intros _; now destruct s].
  - destruct s as [|c' s]; simpl.
    + split; [discriminate | intros [r H]; discriminate].
    + destruct (ascii_dec c c') as [->|N].
      * rewrite IH; split; intros [r H]; exists r; [now rewrite H | now injection H].
      * split; [discriminate | intros [r H]; injection H; congruence].
Qed.

Lemma contains_iff sub : forall s,
  contains sub s = true <->
  exists pre post, s = (pre ++ sub ++ post)%string.
Proof.
  induction s as [|c s IH].
  - change (contains sub EmptyString)
      with (String.prefix sub EmptyString || false).
    rewrite orb_false_r, prefix_iff; split.
    + intros [r H]; exists EmptyString, r; exact H.
    + intros (pre & post & H); destruct pre; [eauto | discriminate].
  - change (contains sub (String c s))
      with (String.prefix sub (String c s) || contains sub s).
    rewrite orb_true_iff, prefix_iff, IH; split.
    + intros [[r H] | (pre & post & H)].
      * exists EmptyString, r; exact H.
      * exists (String c pre), post; simpl; now rewrite H.
    + intros (pre & post & H); destruct pre as [|c' pre]; simpl in H.
      * left; eauto.
      * right; injection H as _ H; eauto.
Qed.

Section Collect.
Variable query_lower : string.

Let step (artist_set : list string) (artist : string) : list string :=
  if contains query_lower (lower artist)
  then set_add artist artist_set else artist_set.

Lemma collect_song_In artists : forall acc a,
  In a (fold_left step artists acc) <->
  In a acc \/ (In a artists /\ contains query_lower (lower a) = true).
Proof.
  induction artists as [|x artists IH]; intros acc a; simpl.
  - intuition.
  - rewrite IH; unfold step.
    destruct (contains query_lower (lower x)) eqn:E.
    + rewrite SetFacts.set_add_In; intuition; subst; auto.
    + intuition; subst; congruence.
Qed.

Lemma collect_song_NoDup artists : forall acc,
  NoDup acc -> NoDup (fold_left step artists acc).
Proof.
  induction artists as [|x artists IH]; intros acc H; simpl; [assumption|].
  apply IH; unfold step; destruct (contains query_lower (lower x));
    [now apply SetFacts.set_add_NoDup | assumption].
Qed.

Lemma collect_In (songs : list (list string)) : forall acc a,
  In a (fold_left (fun s artists => fold_left step artists s) songs acc) <->
  In a acc
  \/ (In a (List.concat songs) /\ contains query_lower (lower a) = true).
Proof.
  induction songs as [|l songs IH]; intros acc a; simpl.
  - intuition.
  - rewrite IH, collect_song_In, in_app_iff; intuition.
Qed.

Lemma collect_NoDup (songs : list (list string)) : forall acc,
  NoDup acc ->
  NoDup (fold_left (fun s artists => fold_left step artists s) songs acc).
Proof.
  induction songs as [|l songs IH]; intros acc H; simpl; [assumption|].
  now apply IH, collect_song_NoDup.
Qed.

End Collect.

Lemma collect_matches_In query idx a :
  In a (collect_matches (lower query) idx) <->
  In a (all_names idx) /\ substring_match query a.
Proof.
  unfold collect_matches, substring_match, all_names.
  rewrite collect_In, contains_iff; simpl; intuition.
Qed.

Lemma collect_matches_NoDup query_lower idx :
  NoDup (collect_matches query_lower idx).
Proof. apply collect_NoDup; constructor. Qed.

(** The tier of the key says which way the name matches. *)
Lemma sort_key_snd ql a : snd (sort_key ql a) = a.
Proof.
  unfold sort_key; destruct (_ =? _)%string; [reflexivity|].
  destruct (startswith _ _); reflexivity.
Qed.

Lemma sort_key_tier query a :
  (fst (sort_key (lower query) a) = 0 /\ exact_match query a)
  \/ (fst (sort_key (lower query) a) = 1
      /\ ~ exact_match query a /\ prefix_match query a)
  \/ (fst (sort_key (lower query) a) = 2
      /\ ~ exact_match query a /\ ~ prefix_match query a).
Proof.
  unfold sort_key, exact_match, prefix_match, startswith.
  destruct (String.eqb_spec (lower a) (lower query)) as [E|N]; [now left|].
  destruct (String.prefix (lower query) (lower a)) eqn:P; right.
  - left; apply prefix_iff in P; auto.
  - right; repeat split; auto.
    intros H; apply prefix_iff in H; congruence.
Qed.

Lemma exact_prefix query a : exact_match query a -> prefix_match query a.
Proof.
  unfold exact_match, prefix_match; intros ->; exists EmptyString.
  clear; induction (lower query); simpl; congruence.
Qed.

Lemma key_le_total ql a b : key_le ql a b = true \/ key_le ql b a = true.
Proof.
  unfold key_le, key_leb.
  destruct (Nat.lt_total (fst (sort_key ql a)) (fst (sort_key ql b)))
    as [H | [H | H]].
  - left; apply Nat.ltb_lt in H; now rewrite H.
  - rewrite H, Nat.eqb_refl, Nat.ltb_irrefl; simpl.
    apply str_leb_total.
  - right; apply Nat.ltb_lt in H; now rewrite H.
Qed.

Lemma key_le_trans ql a b c :
  key_le ql a b = true -> key_le ql b c = true -> key_le ql a c = true.
Proof.
  unfold key_le, key_leb; rewrite !orb_true_iff, !andb_true_iff.
  rewrite !Nat.ltb_lt, !Nat.eqb_eq.
  intros [H1 | [H1 L1]] [H2 | [H2 L2]].
  - left; lia.
  - left; lia.
  - left; lia.
  - right; split; [lia | eapply str_leb_trans; eauto].
Qed.

Lemma key_le_ranked query a b :
  key_le (lower query) a b = true -> a <> b -> ranked_before query a b.
Proof.
  unfold key_le, key_leb; rewrite orb_true_iff, andb_true_iff.
  rewrite Nat.ltb_lt, Nat.eqb_eq, !sort_key_snd, str_leb_iff.
  intros H N.
  destruct (sort_key_tier query a) as [[Ta Ha] | [(Ta & Ha & Pa) | (Ta & Ha & Pa)]],
           (sort_key_tier query b) as [[Tb Hb] | [(Tb & Hb & Pb) | (Tb & Hb & Pb)]];
    rewrite Ta, Tb in H;
    try (destruct H as [H | [H _]]; lia);
    try (now apply exact_first);
    try (now apply prefix_next);
    (destruct H as [H | [_ [H | H]]]; [lia | contradiction |]);
    apply by_name; intuition; auto using exact_prefix.
Qed.

End SearchFacts.

Lemma strip_empty_all_space q : (strip q =? "")%string = all_space q.
Proof.
  unfold strip; destruct (all_space q) eqn:E.
  - now rewrite (lstrip_space_empty _ E).
  - destruct (lstrip_head q) as [H | (c & r & H & Hc)].
    + apply lstrip_all_space in H; congruence.
    + rewrite H, (rstrip_keep _ _ Hc); reflexivity.
Qed.

(** C5.  For every query, search returns the empty list when the query is
    empty or whitespace-only.  Otherwise it returns the first 20 entries
    (all of them when there are fewer) of the list [L] of the distinct
    artist names of the song index of which the query is a substring
    without regard to case, in the order that puts exact matches first,
    prefix matches next, the other matches last, and the names of one tier
    in lexicographic order.  The result has at most 20 entries. *)
Theorem search_ranked_and_capped (idx : SongIndex) (query : string) :
  (if all_space query
   then search_artists idx query = []
   else exists L,
       search_artists idx query = firstn 20 L
       /\ NoDup L
       /\ (forall a, In a L <->
                     In a (all_names idx) /\ substring_match query a)
       /\ StronglySorted (ranked_before query) L)
  /\ List.length (search_artists idx query) <= 20.
Proof.
  unfold search_artists; rewrite strip_empty_all_space.
  destruct (all_space query); [split; [reflexivity | simpl; lia]|].
  split; [|apply firstn_le_length].
  set (L := sorted (key_le (lower query))
              (collect_matches (lower query) idx)).
  assert (HP : Permutation L (collect_matches (lower query) idx))
    by apply SortFacts.sorted_perm.
  assert (ND : NoDup L).
  { eapply Permutation_NoDup; [symmetry; exact HP|].
    apply SearchFacts.collect_matches_NoDup. }
  exists L; split; [reflexivity | split; [exact ND | split]].
  - intros a; rewrite <- SearchFacts.collect_matches_In; split; intros H.
    + eapply Permutation_in; [exact HP | exact H].
    + eapply Permutation_in; [symmetry; exact HP | exact H].
  - eapply SortFacts.StronglySorted_strict;
      [ | exact ND
        | apply (SortFacts.sorted_strongly (key_le (lower query)));
          [apply SearchFacts.key_le_total | apply SearchFacts.key_le_trans] ].
    intros a b; apply SearchFacts.key_le_ranked.
Qed.

Example search_sample :
  search_artists
    [ ("k1", ["Drake"; "Drake Bell"; "drake"; "Sir Drake"; "Nick Drake"]);
      ("k2", ["DRAKE"; "Drake"; "Adrake"; "Zed"]) ] "drake"
  = ["DRAKE"; "Drake"; "drake"; "Drake Bell"; "Adrake"; "Nick Drake";
     "Sir Drake"].
Proof. reflexivity. Qed.

(** ** The graph sampler *)

Module GraphFacts.

(** *** Removing nodes *)

Lemma keys_del_notin {V} (d : dict V) n : ~ In n (keys d) -> del d n = d.
Proof.
  induction d as [|[k v] d IH]; simpl; intros H; [reflexivity|].
  destruct (String.eqb_spec k n) as [->|N]; [intuition|].
  rewrite IH; intuition.
Qed.

Lemma keys_del_In {V} (d : dict V) n x :
  NoDup (keys d) -> (In x (keys (del d n)) <-> In x (keys d) /\ x <> n).
Proof.
  induction d as [|[k v] d IH]; simpl; intros ND; [intuition|].
  inversion ND as [|? ? Hk ND']; subst.
  destruct (String.eqb_spec k n) as [->|N]; simpl.
  - split; [intros H; split; [now right | intros ->; contradiction]|].
    intros [[E|H] Hx]; [congruence | assumption].
  - rewrite IH by assumption; split.
    + intros [<-|[H1 H2]]; auto.
    + intros [[<-|H] Hx]; auto.
Qed.

Lemma keys_del_NoDup {V} (d : dict V) n :
  NoDup (keys d) -> NoDup (keys (del d n)).
Proof.
  induction d as [|[k v] d IH]; simpl; intros ND; [constructor|].
  inversion ND as [|? ? Hk ND']; subst.
  destruct (String.eqb_spec k n) as [->|N]; simpl; [assumption|].
  constructor; [|auto].
  intros H; apply keys_del_In in H; intuition.
Qed.

Lemma keys_del_length {V} (d : dict V) n :
  In n (keys d) -> S (List.length (del d n)) = List.length d.
Proof.
  induction d as [|[k v] d IH]; simpl; intros H; [contradiction|].
  destruct (String.eqb_spec k n) as [->|N]; simpl; [reflexivity|].
  rewrite IH; [reflexivity | intuition].
Qed.

Lemma detach_keys n (nbrs : list string) : forall g : Graph,
  keys (fold_left
          (fun g u =>
             match get g u with
             | Some adj_u => set g u (del adj_u n)
             | None => g
             end) nbrs g)
  = keys g.
Proof.
  induction nbrs as [|u nbrs IH]; intros g; simpl; [reflexivity|].
  rewrite IH; destruct (get g u) eqn:E; [|reflexivity].
  apply keys_set_present; eapply get_Some_In; eauto.
Qed.

Lemma remove_node_In g n x :
  NoDup (nodes g) ->
  (In x (nodes (remove_node g n)) <-> In x (nodes g) /\ x <> n).
Proof.
  intros ND; unfold nodes, remove_node in *.
  rewrite keys_del_In, detach_keys; [reflexivity|].
  now rewrite detach_keys.
Qed.

Lemma remove_node_NoDup g n :
  NoDup (nodes g) -> NoDup (nodes (remove_node g n)).
Proof.
  intros ND; unfold nodes, remove_node in *.
  apply keys_del_NoDup; now rewrite detach_keys.
Qed.

Lemma detach_length n (nbrs : list string) (g : Graph) :
  List.length
    (fold_left
       (fun g u =>
          match get g u with
          | Some adj_u => set g u (del adj_u n)
          | None => g
          end) nbrs g)
  = List.length g.
Proof.
  pose proof (f_equal (@List.length string) (detach_keys n nbrs g)) as H.
  unfold keys in H; now rewrite !length_map in H.
Qed.

Lemma remove_node_length g n :
  In n (nodes g) ->
  S (List.length (nodes (remove_node g n))) = List.length (nodes g).
Proof.
  intros H; unfold nodes, remove_node in *.
  unfold keys at 1 3; rewrite !length_map, keys_del_length.
  - apply detach_length.
  - now rewrite detach_keys.
Qed.

(** The nodes left after the removal of a list of distinct nodes. *)
Lemma remove_nodes (R : list string) : forall g,
  NoDup (nodes g) -> NoDup R -> incl R (nodes g) ->
  NoDup (nodes (fold_left remove_node R g))
  /\ (forall x, In x (nodes (fold_left remove_node R g)) <->
                In x (nodes g) /\ ~ In x R)
  /\ List.length (nodes (fold_left remove_node R g)) + List.length R
     = List.length (nodes g).
Proof.
  induction R as [|r R IH]; intros g ND NR Hincl; simpl.
  - split; [assumption | split; [intuition | lia]].
  - inversion NR as [|? ? Hr NR']; subst.
    destruct (IH (remove_node g r)) as (H1 & H2 & H3).
    + now apply remove_node_NoDup.
    + assumption.
    + intros x Hx; apply remove_node_In; [assumption|].
      split; [apply Hincl; now right | intros ->; contradiction].
    + split; [assumption | split].
      * intros x; rewrite H2, remove_node_In by assumption.
        intuition; subst; auto.
      * pose proof (remove_node_length g r (Hincl r (or_introl eq_refl))).
        lia.
Qed.

Lemma shrink_loop_removed dct lst : forall g goal,
  shrink_loop g dct lst goal
  = fold_left remove_node (removed_vertices dct lst goal) g.
Proof.
  induction lst as [|dg rest IH]; intros g goal; simpl; [reflexivity|].
  destruct (goal =? 0); [reflexivity|].
  destruct (_ <=? _); [|reflexivity].
  now rewrite IH, fold_left_app.
Qed.


(** *** The groups of equal degree *)

Lemma bucket_get_add d k n k' :
  bucket_get (bucket_add d k n) k'
  = if k =? k' then bucket_get d k' ++ [n] else bucket_get d k'.
Proof.
  induction d as [|[a ns] d IH]; simpl.
  - destruct (k =? k'); reflexivity.
  - destruct (Nat.eqb_spec a k) as [E|N]; simpl.
    + rewrite E; destruct (k =? k'); reflexivity.
    + destruct (Nat.eqb_spec a k') as [E'|N']; [|exact IH].
      destruct (Nat.eqb_spec k k'); [congruence | reflexivity].
Qed.

Lemma degree_add_In k s x : In x (degree_add k s) <-> x = k \/ In x s.
Proof.
  unfold degree_add; destruct (existsb (Nat.eqb k) s) eqn:E.
  - apply existsb_exists in E as (y & Hy & Ey); apply Nat.eqb_eq in Ey; subst y.
    intuition; subst; assumption.
  - rewrite in_app_iff; simpl; intuition.
Qed.

Lemma degree_add_NoDup k s : NoDup s -> NoDup (degree_add k s).
Proof.
  intros H; unfold degree_add; destruct (existsb (Nat.eqb k) s) eqn:E;
    [assumption|].
  apply NoDup_app; [assumption | repeat constructor; intros [] |].
  intros a Ha [E'|[]]; subst a.
  assert (existsb (Nat.eqb k) s = true); [|congruence].
  apply existsb_exists; exists k; split; [assumption | apply Nat.eqb_refl].
Qed.

Section Groups.
Variable deg : string -> nat.

Let step (acc : list nat * list (nat * list string)) (n : string) :=
  (degree_add (deg n) (fst acc), bucket_add (snd acc) (deg n) n).

Lemma groups_buckets (l : list string) : forall acc k,
  bucket_get (snd (fold_left step l acc)) k
  = bucket_get (snd acc) k ++ filter (fun n => deg n =? k) l.
Proof.
  induction l as [|n l IH]; intros acc k; simpl.
  - now rewrite app_nil_r.
  - rewrite IH; unfold step; simpl; rewrite bucket_get_add.
    destruct (deg n =? k); [now rewrite <- app_assoc | reflexivity].
Qed.

Lemma groups_degrees_In (l : list string) : forall acc k,
  In k (fst (fold_left step l acc)) <->
  In k (fst acc) \/ exists n, In n l /\ deg n = k.
Proof.
  induction l as [|n l IH]; intros acc k; simpl.
  - split; [auto | intros [H | (n & [] & _)]; assumption].
  - rewrite IH; unfold step; simpl; rewrite degree_add_In; split.
    + intros [[->|H] | (m & Hm & E)]; eauto.
    + intros [H | (m & [<-|Hm] & E)]; eauto.
Qed.

Lemma groups_degrees_NoDup (l : list string) : forall acc,
  NoDup (fst acc) -> NoDup (fst (fold_left step l acc)).
Proof.
  induction l as [|n l IH]; intros acc H; simpl; [assumption|].
  apply IH; unfold step; simpl; now apply degree_add_NoDup.
Qed.

End Groups.

Lemma degree_groups_buckets g k :
  bucket_get (snd (degree_groups g)) k
  = filter (fun n => graph_degree g n =? k) (nodes g).
Proof. unfold degree_groups; now rewrite groups_buckets. Qed.

Lemma degree_groups_In g k :
  In k (fst (degree_groups g)) <->
  exists n, In n (nodes g) /\ graph_degree g n = k.
Proof.
  unfold degree_groups; rewrite groups_degrees_In; simpl; intuition.
Qed.

Lemma degree_groups_NoDup g : NoDup (fst (degree_groups g)).
Proof. unfold degree_groups; apply groups_degrees_NoDup; constructor. Qed.

(** The sorted degrees increase strictly. *)
Lemma sorted_degrees_increasing (s : list nat) :
  NoDup s -> StronglySorted lt (sorted Nat.leb s).
Proof.
  intros ND.
  apply SortFacts.StronglySorted_strict
    with (R := fun a b => (a <=? b) = true).
  - intros a b H N; apply Nat.leb_le in H; lia.
  - eapply Permutation_NoDup; [symmetry; apply SortFacts.sorted_perm | exact ND].
  - apply SortFacts.sorted_strongly.
    + intros a b; rewrite !Nat.leb_le; lia.
    + intros a b c; rewrite !Nat.leb_le; lia.
Qed.

(** *** The order of removal *)

Section Removal.
Variables (deg : string -> nat) (nds : list string)
          (dct : list (nat * list string)).
Hypothesis nds_NoDup : NoDup nds.
Hypothesis dct_buckets :
  forall k, bucket_get dct k = filter (fun n => deg n =? k) nds.

Lemma in_degrees_In lst n : in_degrees deg lst n = true <-> In (deg n) lst.
Proof.
  unfold in_degrees; rewrite existsb_exists; split.
  - intros (k & Hk & E); apply Nat.eqb_eq in E; now rewrite E.
  - intros H; exists (deg n); split; [assumption | apply Nat.eqb_refl].
Qed.

Lemma bucket_In k n :
  In n (bucket_get dct k) <-> In n nds /\ deg n = k.
Proof. rewrite dct_buckets, filter_In, Nat.eqb_eq; reflexivity. Qed.

Lemma bucket_NoDup k : NoDup (bucket_get dct k).
Proof. rewrite dct_buckets; now apply NoDup_filter. Qed.

Lemma in_degrees_cons_length dg rest :
  ~ In dg rest ->
  List.length (filter (in_degrees deg (dg :: rest)) nds)
  = List.length (bucket_get dct dg)
    + List.length (filter (in_degrees deg rest) nds).
Proof.
  intros Hdg; rewrite dct_buckets; clear nds_NoDup dct_buckets.
  induction nds as [|n l IH]; simpl; [reflexivity|].
  unfold in_degrees at 1; simpl.
  fold (in_degrees deg rest n).
  destruct (deg n =? dg) eqn:E; simpl.
  - apply Nat.eqb_eq in E.
    destruct (in_degrees deg rest n) eqn:E'.
    + apply in_degrees_In in E'; congruence.
    + simpl; rewrite IH; reflexivity.
  - destruct (in_degrees deg rest n); simpl; rewrite IH; lia.
Qed.

Lemma removed_vertices_spec : forall lst goal,
  StronglySorted lt lst ->
  NoDup (removed_vertices dct lst goal)
  /\ (forall u, In u (removed_vertices dct lst goal) ->
                In u nds /\ In (deg u) lst)
  /\ (goal <= List.length (filter (in_degrees deg lst) nds) ->
      List.length (removed_vertices dct lst goal) = goal)
  /\ (forall u v, In u (removed_vertices dct lst goal) ->
                  In v nds -> In (deg v) lst ->
                  ~ In v (removed_vertices dct lst goal) ->
                  deg u <= deg v).
Proof.
  induction lst as [|dg rest IH]; intros goal Hs; simpl.
  - split; [constructor | split; [intros u [] | split; [|intros u v []]]].
    assert (E : filter (in_degrees deg []) nds = [])
      by (clear; induction nds; simpl; auto).
    rewrite E; simpl; lia.
  - inversion Hs as [|? ? Hs' Hlt]; subst.
    rewrite Forall_forall in Hlt.
    assert (Hdg : ~ In dg rest) by (intros H; apply Hlt in H; lia).
    destruct (goal =? 0) eqn:G.
    { apply Nat.eqb_eq in G; subst goal.
      split; [constructor | split; [intros u [] | split; [reflexivity|]]].
      intros u v []. }
    apply Nat.eqb_neq in G.
    destruct (List.length (bucket_get dct dg) <=? goal) eqn:L.
    + apply Nat.leb_le in L.
      destruct (IH (goal - List.length (bucket_get dct dg)) Hs')
        as (N' & M' & Len' & O').
      split; [|split; [|split]].
      * apply NoDup_app; [apply bucket_NoDup | assumption |].
        intros u Hu Hu'; apply bucket_In in Hu as [_ Hu].
        apply M' in Hu' as [_ Hu']; congruence.
      * intros u Hu; apply in_app_or in Hu as [Hu|Hu].
        -- apply bucket_In in Hu as [H1 H2]; split; [assumption | now left].
        -- apply M' in Hu as [H1 H2]; split; [assumption | now right].
      * intros Hg; rewrite in_degrees_cons_length in Hg by assumption.
        rewrite length_app, Len'; lia.
      * intros u v Hu Hv Hdv Hnv.
        assert (Hv' : dg < deg v).
        { destruct Hdv as [E|Hdv]; [|now apply Hlt].
          exfalso; apply Hnv, in_or_app; left; apply bucket_In; auto. }
        apply in_app_or in Hu as [Hu|Hu].
        -- apply bucket_In in Hu as [_ Hu]; lia.
        -- apply O'; auto.
           ++ destruct Hdv as [E|Hdv]; [lia | assumption].
           ++ intros H; apply Hnv, in_or_app; now right.
    + apply Nat.leb_gt in L.
      assert (Hsub : forall u, In u (firstn goal (bucket_get dct dg)) ->
                               In u (bucket_get dct dg)).
      { intros u Hu; rewrite <- (firstn_skipn goal); apply in_or_app; now left. }
      split; [|split; [|split]].
      * pose proof (bucket_NoDup dg) as ND.
        rewrite <- (firstn_skipn goal) in ND.
        now apply NoDup_app_remove_r in ND.
      * intros u Hu; apply Hsub, bucket_In in Hu as [H1 H2].
        split; [assumption | now left].
      * intros _; apply firstn_length_le; lia.
      * intros u v Hu Hv Hdv _.
        apply Hsub, bucket_In in Hu as [_ Hu].
        destruct Hdv as [E|Hdv]; [lia | apply Hlt in Hdv; lia].
Qed.

End Removal.

End GraphFacts.

Example shrink_sample :
  shrink_graph_degree sample_graph 3
  = [ ("B", [("C", 2)]); ("C", [("B", 2); ("E", 1)]); ("E", [("C", 1)]) ].
Proof. reflexivity. Qed.

(** C9.  For every graph [G] and every limit [k], the sampler returns [G]
    when [k] is at least the number of vertices; otherwise it returns a
    graph of exactly [k] vertices, all of them vertices of [G], in which
    every removed vertex has a degree in [G] at most that of every vertex
    that is kept. *)
Theorem shrink_by_degree_removes_lowest (G : Graph) (k : nat) :
  NoDup (nodes G) ->
  if number_of_nodes G <=? k then shrink_graph_degree G k = G
  else
    List.length (nodes (shrink_graph_degree G k)) = k
    /\ incl (nodes (shrink_graph_degree G k)) (nodes G)
    /\ forall u v,
         In u (nodes G) -> ~ In u (nodes (shrink_graph_degree G k)) ->
         In v (nodes (shrink_graph_degree G k)) ->
         graph_degree G u <= graph_degree G v.
Proof.
  intros ND; unfold shrink_graph_degree.
  destruct (number_of_nodes G <=? k) eqn:Hk; [reflexivity|].
  apply Nat.leb_gt in Hk.
  assert (Hsize : number_of_nodes G = List.length (nodes G))
    by (unfold number_of_nodes, nodes, keys; now rewrite length_map).
  destruct (degree_groups G) as [dgs dct] eqn:Hg.
  assert (Hdct : forall d, bucket_get dct d
                           = filter (fun n => graph_degree G n =? d) (nodes G)).
  { intros d; rewrite <- GraphFacts.degree_groups_buckets, Hg; reflexivity. }
  assert (Hdgs : forall n, In n (nodes G) ->
                           In (graph_degree G n) (sorted Nat.leb dgs)).
  { intros n Hn.
    eapply Permutation_in; [symmetry; apply SortFacts.sorted_perm|].
    change dgs with (fst (dgs, dct)); rewrite <- Hg.
    apply GraphFacts.degree_groups_In; eauto. }
  assert (Hsorted : StronglySorted lt (sorted Nat.leb dgs)).
  { apply GraphFacts.sorted_degrees_increasing.
    change dgs with (fst (dgs, dct)); rewrite <- Hg.
    apply GraphFacts.degree_groups_NoDup. }
  rewrite GraphFacts.shrink_loop_removed.
  destruct (GraphFacts.removed_vertices_spec (graph_degree G) (nodes G) dct
              ND Hdct (sorted Nat.leb dgs) (number_of_nodes G - k) Hsorted)
    as (HN & HM & HL & HO).
  destruct (GraphFacts.remove_nodes _ G ND HN) as (_ & HI & Hlen).
  { intros u Hu; now apply HM in Hu. }
  assert (Hall : filter (in_degrees (graph_degree G) (sorted Nat.leb dgs))
                   (nodes G) = nodes G).
  { apply forallb_filter_id, forallb_forall; intros n Hn.
    apply GraphFacts.in_degrees_In; auto. }
  rewrite Hall in HL.
  split; [lia | split].
  - intros v Hv; now apply HI in Hv.
  - intros u v Hu Hnu Hv; apply HI in Hv as [Hv Hnv].
    apply HO; auto.
    destruct (in_dec string_dec u
                (removed_vertices dct (sorted Nat.leb dgs)
                   (number_of_nodes G - k))) as [I|N]; [assumption|].
    exfalso; apply Hnu, HI; auto.
Qed.

Lemma shrink_by_degree_witness :
  List.length (nodes (shrink_graph_degree sample_graph 3)) = 3
  /\ incl (nodes (shrink_graph_degree sample_graph 3)) (nodes sample_graph)
  /\ forall u v,
       In u (nodes sample_graph) ->
       ~ In u (nodes (shrink_graph_degree sample_graph 3)) ->
       In v (nodes (shrink_graph_degree sample_graph 3)) ->
       graph_degree sample_graph u <= graph_degree sample_graph v.
Proof.
  apply (shrink_by_degree_removes_lowest sample_graph 3).
  repeat constructor; simpl; intuition discriminate.
Defined.

(** ** The artist extractor *)

Module ExtractFacts.

Lemma insert_everywhere_In {A} (x : A) l1 l2 :
  In (l1 ++ x :: l2) (insert_everywhere x (l1 ++ l2)).
Proof.
  induction l1 as [|y l1 IH]; simpl.
  - destruct l2; now left.
  - right; apply in_map, IH.
Qed.

(** Every order of a list is among its permutations. *)
Lemma permutations_complete {A} (l : list A) : forall l',
  Permutation l l' -> In l' (permutations l).
Proof.
  induction l as [|x l IH]; intros l' H; simpl.
  - apply Permutation_nil in H; subst; now left.
  - assert (Hx : In x l')
      by (eapply Permutation_in; [exact H | now left]).
    apply in_split in Hx as (l1 & l2 & ->).
    apply Permutation_cons_app_inv in H.
    apply in_flat_map; exists (l1 ++ l2); split; [now apply IH|].
    apply insert_everywhere_In.
Qed.

Lemma token_leaks_all :
  forallb token_leaks (permutations EXCEPTIONS) = true.
Proof. vm_compute; reflexivity. Qed.

End ExtractFacts.

Example extract_exception_alone :
  _extract_artists EXCEPTIONS "Tyler, the Creator" "N/A"
  = ["Tyler, the Creator"].
Proof. reflexivity. Qed.

Example extract_exception_delimited :
  _extract_artists EXCEPTIONS "Tyler, the Creator & Frank Ocean"
    "Earth, Wind & Fire / AC/DC"
  = ["Tyler, the Creator"; "Frank Ocean"; "Earth, Wind & Fire"; "AC/DC"].
Proof. reflexivity. Qed.

(** C6 fails when text that no delimiter separates follows (or precedes)
    the exception name in the field: in whatever order the exception names
    are enumerated, the field ["Tyler, the Creator feat. Frank Ocean"]
    yields one artist, the placeholder of the exception followed by
    [" feat. Frank Ocean"], and the exception name is not in the result. *)
Theorem exception_placeholder_leaks (excs : list string) :
  Permutation EXCEPTIONS excs ->
  ~ In "Tyler, the Creator" (_extract_artists excs embedded_field "N/A")
  /\ exists idx,
       _extract_artists excs embedded_field "N/A"
       = [(exc_token idx ++ " feat. Frank Ocean")%string].
Proof.
  intros H; apply ExtractFacts.permutations_complete in H.
  pose proof ExtractFacts.token_leaks_all as Hall.
  rewrite forallb_forall in Hall; apply Hall in H; clear Hall.
  unfold token_leaks in H; apply existsb_exists in H as (idx & _ & Hidx).
  destruct (list_eq_dec string_dec _ _) as [E|]; [|discriminate].
  split; [|exists idx; exact E].
  rewrite E; intros [F|[]]; discriminate.
Qed.

Lemma exception_placeholder_leaks_witness :
  ~ In "Tyler, the Creator"
      (_extract_artists EXCEPTIONS embedded_field "N/A")
  /\ exists idx,
       _extract_artists EXCEPTIONS embedded_field "N/A"
       = [(exc_token idx ++ " feat. Frank Ocean")%string].
Proof.
  apply (exception_placeholder_leaks EXCEPTIONS).
  apply Permutation_refl.
Defined.

(** ** Splitting at a separator *)

Module SplitFacts.
Import SearchFacts.

Lemma append_nil_r s : (s ++ "")%string = s.
Proof. induction s; simpl; congruence. Qed.

Lemma append_assoc (a b c : string) :
  ((a ++ b) ++ c)%string = (a ++ b ++ c)%string.
Proof. induction a; simpl; congruence. Qed.

Lemma split_aux_skip sep : forall s1 rest,
  split_aux sep (s1 ++ rest) (String.length s1) = split_aux sep rest 0.
Proof. induction s1 as [|c s1 IH]; intros rest; simpl; auto. Qed.

Lemma prefix_append sep rest : String.prefix sep (sep ++ rest) = true.
Proof. apply prefix_iff; eauto. Qed.

Lemma split_aux_at_sep sep rest :
  sep <> EmptyString ->
  split_aux sep (sep ++ rest) 0
  = (EmptyString, fst (split_aux sep rest 0) :: snd (split_aux sep rest 0)).
Proof.
  intros Hsep; destruct sep as [|c sep']; [congruence|].
  pose proof (prefix_append (String c sep') rest) as P.
  change ((String c sep' ++ rest)%string) with (String c (sep' ++ rest)) in *.
  cbn [split_aux]; rewrite P.
  cbn [String.length]; rewrite Nat.sub_1_r; cbn [Nat.pred].
  rewrite split_aux_skip; destruct (split_aux (String c sep') rest 0).
  reflexivity.
Qed.

Lemma split_aux_char sep x s :
  String.prefix sep (String x s) = false ->
  split_aux sep (String x s) 0
  = (String x (fst (split_aux sep s 0)), snd (split_aux sep s 0)).
Proof.
  intros P; cbn [split_aux]; rewrite P.
  destruct (split_aux sep s 0); reflexivity.
Qed.

Lemma clear_before_tail sep x a tail :
  clear_before sep (String x a) tail -> clear_before sep a tail.
Proof. intros H a1 y a2 ->; apply (H (String x a1) y a2); reflexivity. Qed.

Lemma split_aux_first sep rest : forall a,
  sep <> EmptyString ->
  clear_before sep a (sep ++ rest) ->
  split_aux sep (a ++ sep ++ rest) 0
  = (a, fst (split_aux sep rest 0) :: snd (split_aux sep rest 0)).
Proof.
  induction a as [|x a IH]; intros Hsep Hc.
  - exact (split_aux_at_sep sep rest Hsep).
  - change ((String x a ++ sep ++ rest)%string)
      with (String x (a ++ sep ++ rest)).
    rewrite split_aux_char.
    + rewrite IH; [reflexivity | assumption|].
      eapply clear_before_tail; eauto.
    + apply (Hc EmptyString x a); reflexivity.
Qed.

Lemma split_aux_last sep : forall a,
  clear_before sep a EmptyString ->
  split_aux sep a 0 = (a, []).
Proof.
  induction a as [|x a IH]; intros Hc; [reflexivity|].
  rewrite split_aux_char.
  - rewrite IH; [reflexivity | eapply clear_before_tail; eauto].
  - specialize (Hc EmptyString x a eq_refl); now rewrite append_nil_r in Hc.
Qed.

(** The first part of a split ends where the separator first occurs. *)
Lemma split_first sep a rest :
  sep <> EmptyString ->
  clear_before sep a (sep ++ rest) ->
  split (a ++ sep ++ rest) sep = a :: split rest sep.
Proof.
  intros Hsep Hc; unfold split; rewrite split_aux_first by assumption.
  destruct (split_aux sep rest 0); reflexivity.
Qed.

Lemma split_last sep a :
  clear_before sep a EmptyString -> split a sep = [a].
Proof. intros Hc; unfold split; now rewrite split_aux_last. Qed.

(** *** Where a separator of one repeated character can start *)

Lemma prefix_app_cases : forall sep u tail,
  String.prefix sep (u ++ tail) = true ->
  String.prefix sep u = true
  \/ exists s2, sep = (u ++ s2)%string /\ s2 <> EmptyString
                /\ String.prefix s2 tail = true.
Proof.
  induction sep as [|c sep IH]; intros u tail H.
  - left; now destruct u.
  - destruct u as [|x u].
    + right; exists (String c sep); repeat split; [discriminate | exact H].
    + simpl in H |- *; destruct (ascii_dec c x) as [->|]; [|discriminate].
      destruct (IH _ _ H) as [P | (s2 & -> & H2 & H3)]; [now left|].
      right; exists s2; auto.
Qed.

Lemma prefix_contains sep a1 u :
  String.prefix sep u = true -> contains sep (a1 ++ u) = true.
Proof.
  intros P; apply prefix_iff in P as [r ->].
  apply contains_iff; eauto.
Qed.

Lemma not_ending_with_app ch x y :
  y <> EmptyString -> not_ending_with ch (x ++ y) = not_ending_with ch y.
Proof.
  intros Hy; induction x as [|c x IH]; [reflexivity|].
  change ((String c x ++ y)%string) with (String c (x ++ y)).
  cbn [not_ending_with]; destruct (x ++ y)%string eqn:E; [|exact IH].
  destruct x, y; simpl in E; congruence.
Qed.

Lemma all_char_ends ch u :
  u <> EmptyString -> all_char ch u = true -> not_ending_with ch u = false.
Proof.
  induction u as [|c u IH]; intros Hu H; [congruence|].
  simpl in H; apply andb_true_iff in H as [Hc H].
  destruct u as [|c' u]; simpl.
  - now rewrite Hc.
  - apply IH; [discriminate | exact H].
Qed.

Lemma all_char_app ch u s2 :
  all_char ch (u ++ s2) = true -> all_char ch u = true /\ all_char ch s2 = true.
Proof.
  induction u as [|c u IH]; simpl; [auto|].
  rewrite !andb_true_iff; intuition.
Qed.

(** For a separator of one repeated character: a field that neither
    contains the separator nor ends with its character is followed by the
    first occurrence. *)
Lemma clear_before_field ch sep a tail :
  all_char ch sep = true -> contains sep a = false ->
  not_ending_with ch a = true -> clear_before sep a tail.
Proof.
  intros Hall Hc He a1 x a2 ->.
  destruct (String.prefix sep (String x a2 ++ tail)) eqn:P; [exfalso|reflexivity].
  apply prefix_app_cases in P as [P | (s2 & -> & _ & _)].
  - rewrite (prefix_contains _ a1 _ P) in Hc; discriminate.
  - apply all_char_app in Hall as [Hu _].
    rewrite not_ending_with_app in He by discriminate.
    rewrite all_char_ends in He; [discriminate | discriminate | exact Hu].
Qed.

(** A field that does not contain the separator is one part. *)
Lemma clear_before_whole sep a :
  contains sep a = false -> clear_before sep a EmptyString.
Proof.
  intros Hc a1 x a2 ->; rewrite append_nil_r.
  destruct (String.prefix sep (String x a2)) eqn:P; [|reflexivity].
  rewrite (prefix_contains _ a1 _ P) in Hc; discriminate.
Qed.

(** A string without the character of the separator. *)
Lemma char_free_tail ch a1 x a2 :
  char_free ch (a1 ++ String x a2) = true -> Ascii.eqb x ch = false.
Proof.
  induction a1 as [|c a1 IH]; simpl; rewrite andb_true_iff, negb_true_iff.
  - tauto.
  - intros [_ H]; auto.
Qed.

Lemma clear_before_char_free ch sep a tail :
  all_char ch sep = true -> sep <> EmptyString ->
  char_free ch a = true -> clear_before sep a tail.
Proof.
  intros Hall Hsep Hf a1 x a2 ->.
  apply char_free_tail in Hf.
  destruct sep as [|c sep]; [congruence|].
  simpl in Hall |- *; apply andb_true_iff in Hall as [Hc _].
  apply Ascii.eqb_eq in Hc; subst c.
  destruct (ascii_dec ch x) as [->|]; [|reflexivity].
  now rewrite Ascii.eqb_refl in Hf.
Qed.

End SplitFacts.

(** ** Numerals *)

Module NumeralFacts.

Lemma is_digit_facts c :
  is_digit c = true ->
  isspace c = false /\ Ascii.eqb c "_" = false /\ Ascii.eqb c "/" = false
  /\ c <> "+"%char /\ c <> "-"%char.
Proof.
  destruct c as [[] [] [] [] [] [] [] []]; intros H;
    try discriminate H; repeat split; discriminate.
Qed.

Lemma all_digits_uint u : all_digits (NilEmpty.string_of_uint u) = true.
Proof. induction u; simpl; auto. Qed.

Lemma rstrip_no_space s :
  (forall a1 c a2, s = (a1 ++ String c a2)%string -> isspace c = false) ->
  rstrip s = s.
Proof.
  induction s as [|c s IH]; intros H; [reflexivity|].
  rewrite rstrip_keep by (apply (H EmptyString c s); reflexivity).
  rewrite IH; [reflexivity|].
  intros a1 x a2 ->; apply (H (String c a1) x a2); reflexivity.
Qed.

Lemma all_digits_chars s a1 c a2 :
  all_digits s = true -> s = (a1 ++ String c a2)%string -> is_digit c = true.
Proof.
  intros H ->; induction a1 as [|x a1 IH]; simpl in H;
    apply andb_true_iff in H as [H1 H2]; auto.
Qed.

Lemma strip_digits s : all_digits s = true -> strip s = s.
Proof.
  intros H; unfold strip.
  assert (L : lstrip s = s).
  { destruct s as [|c s]; [reflexivity|].
    simpl in H; apply andb_true_iff in H as [Hc _].
    apply is_digit_facts in Hc as [Hc _]; now apply lstrip_fix. }
  rewrite L; apply rstrip_no_space; intros a1 c a2 E.
  eapply is_digit_facts, all_digits_chars; eauto.
Qed.

Lemma strip_minus_digits s :
  all_digits s = true -> strip (String "-" s) = String "-" s.
Proof.
  intros H; unfold strip; rewrite lstrip_fix by reflexivity.
  rewrite rstrip_keep by reflexivity.
  f_equal; apply rstrip_no_space; intros a1 c a2 E.
  eapply is_digit_facts, all_digits_chars; eauto.
Qed.

Lemma well_grouped_digits s :
  all_digits s = true -> well_grouped s true = true.
Proof.
  induction s as [|c s IH]; simpl; [reflexivity|].
  intros H; apply andb_true_iff in H as [Hc H]; rewrite Hc; auto.
Qed.

Lemma drop_underscores_digits s :
  all_digits s = true -> drop_underscores s = s.
Proof.
  induction s as [|c s IH]; simpl; [reflexivity|].
  intros H; apply andb_true_iff in H as [Hc H].
  apply is_digit_facts in Hc as (_ & -> & _); now rewrite IH.
Qed.

Lemma int_of_digits_uint u :
  u <> Decimal.Nil ->
  int_of_digits (NilEmpty.string_of_uint u) = Some (Z.of_uint u).
Proof.
  intros Hu; unfold int_of_digits.
  pose proof (all_digits_uint u) as Hd.
  assert (W : well_grouped (NilEmpty.string_of_uint u) false = true).
  { destruct (NilEmpty.string_of_uint u) as [|c s] eqn:E.
    - destruct u; simpl in E; congruence.
    - simpl in Hd |- *; apply andb_true_iff in Hd as [Hc Hd].
      rewrite Hc; now apply well_grouped_digits. }
  rewrite W, drop_underscores_digits, NilEmpty.usu by assumption.
  reflexivity.
Qed.

Lemma py_int_digits s :
  all_digits s = true -> s <> EmptyString -> py_int s = int_of_digits s.
Proof.
  intros H Hs; unfold py_int; rewrite strip_digits by assumption.
  destruct s as [|c s]; [congruence|].
  simpl in H; apply andb_true_iff in H as [Hc _].
  apply is_digit_facts in Hc as (_ & _ & _ & Hp & Hm).
  destruct c as [[] [] [] [] [] [] [] []]; try reflexivity; congruence.
Qed.

Lemma uint_nonempty u :
  u <> Decimal.Nil -> NilEmpty.string_of_uint u <> EmptyString.
Proof. destruct u; simpl; congruence. Qed.

Lemma of_uint_pos p : Z.of_uint (Pos.to_uint p) = Z.pos p.
Proof. exact (DecimalZ.of_to (Z.pos p)). Qed.

(** [int(str(z))] is [z]. *)
Lemma py_int_str z : py_int (str_of_Z z) = Some z.
Proof.
  unfold str_of_Z; destruct z as [|p|p]; simpl.
  - reflexivity.
  - rewrite py_int_digits, int_of_digits_uint, of_uint_pos;
      auto using all_digits_uint, uint_nonempty,
        DecimalPos.Unsigned.to_uint_nonnil.
  - unfold py_int; rewrite strip_minus_digits by apply all_digits_uint.
    rewrite int_of_digits_uint, of_uint_pos;
      [reflexivity | apply DecimalPos.Unsigned.to_uint_nonnil].
Qed.

Lemma char_free_digits s : all_digits s = true -> char_free "/" s = true.
Proof.
  induction s as [|c s IH]; simpl; [reflexivity|].
  intros H; apply andb_true_iff in H as [Hc H].
  apply is_digit_facts in Hc as (_ & _ & -> & _); simpl; auto.
Qed.

Lemma char_free_str z : char_free "/" (str_of_Z z) = true.
Proof.
  unfold str_of_Z; destruct z as [|p|p]; simpl; [reflexivity| |];
    apply char_free_digits, all_digits_uint.
Qed.

End NumeralFacts.

(** ** The round trip of the song key *)

Module SongFacts.
Import SplitFacts NumeralFacts SearchFacts.

Lemma contains_app_false sub : forall x y,
  clear_before sub x y -> contains sub y = false ->
  contains sub (x ++ y) = false.
Proof.
  induction x as [|c x IH]; intros y Hc Hy; [exact Hy|].
  change (contains sub (String c x ++ y))
    with (String.prefix sub (String c (x ++ y)) || contains sub (x ++ y)).
  pose proof (Hc EmptyString c x eq_refl) as P.
  change (String c x ++ y)%string with (String c (x ++ y)) in P.
  rewrite P, IH; auto.
  eapply clear_before_tail; eauto.
Qed.

(** A separator of one repeated character does not start inside a field
    that is followed by another character. *)
Lemma clear_before_other ch sep a x tail :
  all_char ch sep = true -> contains sep a = false ->
  Ascii.eqb x ch = false -> clear_before sep a (String x tail).
Proof.
  intros Hall Hc Hx a1 y a2 ->.
  destruct (String.prefix sep (String y a2 ++ String x tail)) eqn:P;
    [exfalso|reflexivity].
  apply prefix_app_cases in P as [P | (s2 & -> & Hs2 & P)].
  - rewrite (prefix_contains _ a1 _ P) in Hc; discriminate.
  - apply all_char_app in Hall as [_ H2].
    destruct s2 as [|c s2]; [congruence|].
    simpl in H2, P; apply andb_true_iff in H2 as [Hc2 _].
    apply Ascii.eqb_eq in Hc2; subst c.
    destruct (ascii_dec ch x) as [->|]; [|discriminate].
    now rewrite Ascii.eqb_refl in Hx.
Qed.

Lemma join_cons sep a b l :
  join sep (a :: b :: l) = (a ++ sep ++ join sep (b :: l))%string.
Proof. reflexivity. Qed.

Lemma contains_join l :
  Forall no_delimiter l -> contains "/////" (join "&&&" l) = false.
Proof.
  induction l as [|a l IH]; intros H; [reflexivity|].
  inversion H as [|? ? [Ha _] Hl]; subst.
  destruct l as [|b l]; [exact Ha|].
  rewrite join_cons; apply contains_app_false.
  - apply clear_before_other with (ch := "/"%char); auto.
  - apply contains_app_false; [|now apply IH].
    apply clear_before_char_free with (ch := "/"%char);
      [reflexivity | discriminate | reflexivity].
Qed.

Lemma join_end l :
  artists_end_well l = true -> not_ending_with "/" (join "&&&" l) = true.
Proof.
  induction l as [|a l IH]; intros H; [discriminate|].
  destruct l as [|b l]; [exact H|].
  change (artists_end_well (a :: b :: l))
    with (not_ending_with "&" a && artists_end_well (b :: l)) in H.
  apply andb_true_iff in H as [_ H].
  rewrite join_cons, not_ending_with_app by discriminate.
  destruct (join "&&&" (b :: l)) eqn:E; [reflexivity|].
  rewrite not_ending_with_app by discriminate; now apply IH.
Qed.

Lemma split_join l :
  Forall no_delimiter l -> artists_end_well l = true ->
  split (join "&&&" l) "&&&" = l.
Proof.
  induction l as [|a l IH]; intros H He; [discriminate|].
  inversion H as [|? ? [_ Ha] Hl]; subst.
  destruct l as [|b l].
  - apply split_last, clear_before_whole, Ha.
  - change (artists_end_well (a :: b :: l))
      with (not_ending_with "&" a && artists_end_well (b :: l)) in He.
    apply andb_true_iff in He as [Hea He].
    rewrite join_cons, split_first, IH; auto; [discriminate|].
    apply clear_before_field with (ch := "&"%char); auto.
Qed.

(** A song whose fields contain no delimiter, whose title does not end
    with a slash and whose artists end well, is read back as it was. *)
Lemma serialise_round_trip song :
  serialisable song ->
  not_ending_with "/" (title song) = true ->
  artists_end_well (artists song) = true ->
  deserialise (serialise song) = Return song.
Proof.
  destruct song as [t l z]; intros [[Ht _] Hl] He Hw.
  unfold deserialise, serialise; cbn [title artists top_rank] in *.
  rewrite split_first, split_first, split_last.
  - rewrite py_int_str, split_join by assumption; reflexivity.
  - apply clear_before_char_free with (ch := "/"%char);
      [reflexivity | discriminate | apply char_free_str].
  - discriminate.
  - apply clear_before_field with (ch := "/"%char);
      [reflexivity | now apply contains_join | now apply join_end].
  - discriminate.
  - apply clear_before_field with (ch := "/"%char); auto.
Qed.

End SongFacts.

(** ** The song key *)

Example serialise_sample :
  deserialise (serialise (mkSong "Song A" ["Artist X"; "Artist Y"] 1))
  = Return (mkSong "Song A" ["Artist X"; "Artist Y"] 1).
Proof. reflexivity. Qed.

(** C10 fails on a title that ends with a slash: no field of the song
    contains a delimiter, as the docstring of [serialise] asks, and the
    song read back has another title and another artist. *)
Theorem serialise_round_trip_fails :
  serialisable (mkSong "A/" ["B"] 1)
  /\ serialise (mkSong "A/" ["B"] 1) = "A//////B/////1"
  /\ deserialise (serialise (mkSong "A/" ["B"] 1))
     = Return (mkSong "A" ["/B"] 1)
  /\ deserialise (serialise (mkSong "A/" ["B"] 1))
     <> Return (mkSong "A/" ["B"] 1).
Proof.
  repeat split; try reflexivity.
  - repeat constructor.
  - discriminate.
Qed.

(** ** What the direct connections count *)

Module CountFacts.
Import DirectFacts BuilderFacts SetFacts.

Lemma tally_song_get a artists : forall (conn : dict nat) b,
  get (tally_song a conn artists) b
  = bump (if string_dec b a then 0 else count_occ string_dec artists b)
         (get conn b).
Proof.
  unfold tally_song; induction artists as [|o artists IH]; intros conn b; simpl.
  - destruct (string_dec b a); reflexivity.
  - rewrite IH; destruct (String.eqb_spec o a) as [->|N]; simpl.
    + destruct (string_dec b a) as [->|Nb]; [reflexivity|].
      destruct (string_dec a b); [congruence | reflexivity].
    + destruct (string_dec o b) as [->|Nob].
      * rewrite get_set_same.
        destruct (string_dec b a); [contradiction|].
        change (Some (match get conn b with Some n0 => n0 | None => 0 end + 1))
          with (bump 1 (get conn b)).
        now rewrite bump_bump.
      * rewrite get_set_other by assumption.
        destruct (string_dec b a); reflexivity.
Qed.

Lemma scan_get a idx : forall (conn : dict nat) b,
  get (scan a idx conn) b
  = bump (if string_dec b a then 0
          else list_sum
                 (map (fun e : string * list string =>
                         if mem a (snd e)
                         then count_occ string_dec (snd e) b else 0) idx))
         (get conn b).
Proof.
  unfold scan; induction idx as [|[song artists] idx IH]; intros conn b; simpl.
  - destruct (string_dec b a); reflexivity.
  - rewrite IH; destruct (mem a artists); simpl.
    + rewrite tally_song_get, bump_bump.
      destruct (string_dec b a); reflexivity.
    + reflexivity.
Qed.

Lemma shared_songs_with a b idx :
  Forall (fun e : string * list string => NoDup (snd e)) idx ->
  list_sum
    (map (fun e : string * list string =>
            if mem a (snd e) then count_occ string_dec (snd e) b else 0) idx)
  = songs_with a b idx.
Proof.
  unfold songs_with; induction idx as [|e idx IH]; intros H; simpl;
    [reflexivity|].
  inversion H as [|? ? He H']; subst.
  rewrite IH by assumption.
  rewrite count_occ_NoDup by assumption.
  destruct (mem a (snd e)), (mem b (snd e)); reflexivity.
Qed.

Lemma get_to_connection (l : dict nat) b :
  get (map to_connection l) b
  = option_map (fun n => mkConnection n 1) (get l b).
Proof.
  induction l as [|[k n] l IH]; simpl; [reflexivity|].
  destruct (k =? b)%string; [reflexivity | exact IH].
Qed.

Lemma songs_with_sym a b idx : songs_with a b idx = songs_with b a idx.
Proof.
  unfold songs_with; f_equal; apply filter_ext; intros e; apply andb_comm.
Qed.

Lemma raw_get idx a b :
  Forall (fun e : string * list string => NoDup (snd e)) idx ->
  get (_get_direct_collaborators_raw idx a) b
  = if string_dec b (strip a) then None
    else stored (songs_with (strip a) b idx).
Proof.
  intros H; rewrite raw_scan, scan_get; simpl.
  destruct (string_dec b (strip a)); [reflexivity|].
  now rewrite shared_songs_with, BuilderCounts.bump_None.
Qed.

End CountFacts.

(** X1. The count of a direct connection is the number of songs of the
    index that list both artists; the artist itself is never among its
    own connections. *)
Theorem direct_connections_count_songs
    (idx : SongIndex) (A B : string) :
  Forall (fun e : string * list string => NoDup (snd e)) idx ->
  get (_get_direct_connections idx A) B
  = if string_dec B (strip A) then None
    else option_map (fun n => mkConnection n 1)
           (stored (songs_with (strip A) B idx)).
Proof.
  intros H.
  rewrite ShortcutFacts.direct_as_map, CountFacts.get_to_connection.
  rewrite CountFacts.raw_get by assumption.
  destruct (string_dec B (strip A)); reflexivity.
Qed.

Lemma sample_index_NoDup :
  Forall (fun e : string * list string => NoDup (snd e)) sample_index.
Proof.
  repeat constructor; simpl; intuition discriminate.
Defined.

Lemma direct_connections_count_songs_witness :
  get (_get_direct_connections sample_index "Artist Y") "Artist Z"
  = if string_dec "Artist Z" (strip "Artist Y") then None
    else option_map (fun n => mkConnection n 1)
           (stored (songs_with (strip "Artist Y") "Artist Z" sample_index)).
Proof.
  apply (direct_connections_count_songs sample_index "Artist Y" "Artist Z").
  exact sample_index_NoDup.
Defined.

(** X2. Direct connections are mutual: [B] is a connection of [A] with
    some count exactly when [A] is a connection of [B] with that count. *)
Theorem direct_connections_mutual (idx : SongIndex) (A B : string) :
  Forall (fun e : string * list string => NoDup (snd e)) idx ->
  trimmed A -> trimmed B ->
  get (_get_direct_connections idx A) B
  = get (_get_direct_connections idx B) A.
Proof.
  intros H HA HB.
  rewrite !ShortcutFacts.direct_as_map, !CountFacts.get_to_connection.
  rewrite !CountFacts.raw_get by assumption.
  rewrite HA, HB, CountFacts.songs_with_sym.
  destruct (string_dec B A), (string_dec A B); congruence.
Qed.

Lemma direct_connections_mutual_witness :
  get (_get_direct_connections sample_index "Artist Y") "Artist Z"
  = get (_get_direct_connections sample_index "Artist Z") "Artist Y".
Proof.
  apply (direct_connections_mutual sample_index "Artist Y" "Artist Z").
  - exact sample_index_NoDup.
  - reflexivity.
  - reflexivity.
Defined.
(** ** Queries for an artist the index does not know *)

Module UnknownFacts.
Import DirectFacts.

Lemma scan_unknown a idx : forall conn,
  artist_exists idx a = false -> scan a idx conn = conn.
Proof.
  unfold scan, artist_exists; induction idx as [|e idx IH]; intros conn H;
    simpl in *; [reflexivity|].
  apply orb_false_iff in H as [He H]; rewrite He; auto.
Qed.

Lemma raw_unknown idx a :
  artist_exists idx (strip a) = false ->
  _get_direct_collaborators_raw idx a = [].
Proof. intros H; rewrite raw_scan; now apply scan_unknown. Qed.

Lemma bfs_loop_done fuel idx d vis conn :
  bfs_loop fuel idx d (mkBfs vis [] conn) = Some conn.
Proof. destruct fuel; reflexivity. Qed.

Lemma reach_loop_done fuel idx d vis all :
  reach_loop fuel idx d (mkReach vis [] all) = Some all.
Proof. destruct fuel; reflexivity. Qed.

End UnknownFacts.

(** X3. An artist that no song lists has no connections at any degree: the
    neighbour query returns the empty mapping and the subgraph query the
    artist alone, without edges. *)
Theorem unknown_artist_has_no_connections
    (idx : SongIndex) (A : string) (d : nat) :
  artist_exists idx (strip A) = false ->
  get_artist_connections idx A d = Some []
  /\ get_artist_connections_graph idx A d
     = Some ([mkNode (strip A) (strip A) 0], []).
Proof.
  intros H.
  assert (Hraw : _get_direct_collaborators_raw idx (strip A) = [])
    by (apply UnknownFacts.raw_unknown; now rewrite strip_idem).
  split.
  - unfold get_artist_connections.
    rewrite ShortcutFacts.direct_as_map, UnknownFacts.raw_unknown by assumption.
    destruct (d =? 1); [reflexivity|].
    unfold _get_connections_bfs, bfs_fuel; cbn [bfs_loop queue visited connections].
    rewrite Hraw; destruct (d <=? 0); simpl; apply UnknownFacts.bfs_loop_done.
  - unfold get_artist_connections_graph, bfs_fuel.
    cbn [reach_loop reach_queue reach_visited all_artists].
    rewrite Hraw; destruct (0 <? d); simpl;
      rewrite UnknownFacts.reach_loop_done; simpl; rewrite Hraw; reflexivity.
Qed.

Lemma unknown_artist_witness :
  get_artist_connections sample_index " Nobody " 3 = Some []
  /\ get_artist_connections_graph sample_index " Nobody " 3
     = Some ([mkNode (strip " Nobody ") (strip " Nobody ") 0], []).
Proof.
  apply (unknown_artist_has_no_connections sample_index " Nobody " 3).
  reflexivity.
Defined.

(** ** The degrees of a neighbourhood *)

Lemma get_artist_connections_bfs idx a d :
  get_artist_connections idx a d = _get_connections_bfs idx a d.
Proof.
  unfold get_artist_connections; destruct (d =? 1) eqn:E; [|reflexivity].
  apply Nat.eqb_eq in E; subst d; symmetry; apply ShortcutFacts.bfs_degree_one.
Qed.

(** X4. Raising the bound on the degree only adds artists: whoever is in
    the neighbourhood within [d] is in the neighbourhood within [d'] for
    [d <= d'], with the same degree. *)
Theorem neighborhood_grows_with_degree
    (idx : SongIndex) (A : string) (d d' : nat) :
  trimmed_index idx -> d <= d' ->
  exists r r',
    get_artist_connections idx A d = Some r
    /\ get_artist_connections idx A d' = Some r'
    /\ forall b c, get r b = Some c ->
         exists c', get r' b = Some c' /\ degree c' = degree c.
Proof.
  intros Htrim Hd; rewrite !get_artist_connections_bfs.
  destruct (bfs_correct idx A d Htrim) as (r & Hr & Hk & Hm).
  destruct (bfs_correct idx A d' Htrim) as (r' & Hr' & Hk' & Hm').
  exists r, r'; split; [assumption | split; [assumption|]].
  intros b c Hc.
  assert (Hb : In b (keys r')).
  { apply Hk'; apply get_Some_In in Hc as Hin.
    apply Hk in Hin as (N & n & Hn & Hh).
    split; [assumption | exists n; split; [lia | assumption]]. }
  apply In_keys_get in Hb as [c' Hc']; exists c'; split; [assumption|].
  eapply BfsFacts.min_hops_unique; eauto.
Qed.

Lemma neighborhood_grows_witness :
  exists r r',
    get_artist_connections sample_index "Artist X" 1 = Some r
    /\ get_artist_connections sample_index "Artist X" 2 = Some r'
    /\ forall b c, get r b = Some c ->
         exists c', get r' b = Some c' /\ degree c' = degree c.
Proof.
  apply (neighborhood_grows_with_degree sample_index "Artist X" 1 2).
  - exact sample_index_trimmed.
  - lia.
Defined.

Lemma hops_one idx x y : hops idx x 1 y <-> adjacent idx x y.
Proof.
  split.
  - intros H; inversion H as [|n z w Hz Hadj]; subst.
    inversion Hz; subst; assumption.
  - intros H; econstructor; [constructor | exact H].
Qed.

(** X5. Every degree recorded by the neighbour query lies between 1 and
    the bound, and the artists recorded at degree 1 are those that share a
    song with the queried artist. *)
Theorem neighborhood_degrees_bounded
    (idx : SongIndex) (A : string) (d : nat)
    (r : dict Connection) :
  trimmed_index idx ->
  get_artist_connections idx A d = Some r ->
  forall b c, get r b = Some c ->
    1 <= degree c <= d
    /\ (degree c = 1 <-> adjacent idx (strip A) b).
Proof.
  intros Htrim Hr b c Hc; rewrite get_artist_connections_bfs in Hr.
  destruct (bfs_correct idx A d Htrim) as (r0 & Hr0 & Hk & Hm).
  rewrite Hr in Hr0; injection Hr0 as <-.
  pose proof (Hm _ _ Hc) as [Hh Hmin].
  apply get_Some_In in Hc as Hin.
  apply Hk in Hin as (N & n & Hn & Hhn).
  split; [split|].
  - destruct (degree c) as [|k] eqn:E; [|lia].
    exfalso; apply N; inversion Hh; reflexivity.
  - specialize (Hmin _ Hhn); lia.
  - split.
    + intros E; rewrite E in Hh; now apply hops_one.
    + intros Hadj; apply hops_one in Hadj.
      specialize (Hmin _ Hadj).
      destruct (degree c) as [|k] eqn:E; [|lia].
      exfalso; apply N; inversion Hh; reflexivity.
Qed.

Lemma neighborhood_degrees_witness :
  1 <= degree (mkConnection 1 2) <= 2
  /\ (degree (mkConnection 1 2) = 1
      <-> adjacent sample_index (strip "Artist X") "Artist Z").
Proof.
  apply (neighborhood_degrees_bounded sample_index "Artist X" 2
           [ ("Artist Y", mkConnection 1 1); ("Artist Z", mkConnection 1 2) ]).
  - exact sample_index_trimmed.
  - reflexivity.
  - reflexivity.
Defined.
(** ** The subgraph query and the neighbour query *)

Module SubgraphFacts.
Import DirectFacts SetFacts.

Section Simulation.
Variables (idx : SongIndex) (s : string) (d : nat).




End Simulation.


End SubgraphFacts.

(** ** The edges of the subgraph *)

Module EdgeFacts.
Import DirectFacts SetFacts OrderFacts.

Lemma reach_visit_NoDup deg st c :
  NoDup (all_artists st) -> NoDup (all_artists (reach_visit deg st c)).
Proof.
  intros H; unfold reach_visit; destruct (mem c (reach_visited st)); simpl;
    [assumption | now apply set_add_NoDup].
Qed.

Lemma reach_fold_NoDup deg (l : list string) : forall st,
  NoDup (all_artists st) ->
  NoDup (all_artists (fold_left (reach_visit deg) l st)).
Proof.
  induction l as [|c l IH]; intros st H; simpl; [assumption|].
  now apply IH, reach_visit_NoDup.
Qed.

Lemma reach_loop_NoDup idx d : forall fuel st all,
  NoDup (all_artists st) ->
  reach_loop fuel idx d st = Some all -> NoDup all.
Proof.
  induction fuel as [|fuel IH]; intros [vis q a] all H; simpl;
    destruct q as [|[x k] rest]; try discriminate;
    try (intros E; injection E as <-; exact H).
  destruct (k <? d); apply IH; [now apply reach_fold_NoDup | exact H].
Qed.

Lemma pair_mem_In p ps : pair_mem p ps = true <-> In p ps.
Proof.
  unfold pair_mem; rewrite existsb_exists; split.
  - intros ([a b] & Hq & E); apply andb_true_iff in E as [E1 E2].
    apply String.eqb_eq in E1, E2; simpl in *; destruct p; simpl in *.
    now subst.
  - intros H; exists p; split; [assumption|].
    now rewrite !String.eqb_refl.
Qed.

Lemma sorted_pair_cases a c :
  (sorted_pair a c = (a, c) /\ str_leb a c = true)
  \/ (sorted_pair a c = (c, a) /\ str_leb c a = true).
Proof.
  unfold sorted_pair; simpl; destruct (str_leb a c) eqn:E; [now left|].
  right; split; [reflexivity|].
  destruct (str_leb_total a c); congruence.
Qed.

Lemma edge_visit_ok all artist acc kv :
  In artist all -> edges_ok all acc ->
  edges_ok all (edge_visit all artist acc kv).
Proof.
  intros Ha (He & Hm & Hn); unfold edge_visit.
  destruct (mem (fst kv) all) eqn:M; [|exact (conj He (conj Hm Hn))].
  apply mem_In in M.
  destruct (pair_mem (sorted_pair artist (fst kv)) (snd acc)) eqn:P; simpl;
    [exact (conj He (conj Hm Hn))|].
  assert (Hp : ~ In (sorted_pair artist (fst kv)) (snd acc)).
  { intros H; apply pair_mem_In in H; congruence. }
  split; [|split]; simpl.
  - intros e Hin; apply in_app_or in Hin as [Hin|[<-|[]]]; [now apply He|].
    simpl; destruct (sorted_pair_cases artist (fst kv)) as [[-> L]|[-> L]];
      simpl; auto.
  - rewrite map_app, Hm; simpl; unfold edge_ends; simpl.
    now destruct (sorted_pair artist (fst kv)).
  - now constructor.
Qed.

Lemma edge_fold_ok all artist (l : dict nat) : forall acc,
  In artist all -> edges_ok all acc ->
  edges_ok all (fold_left (edge_visit all artist) l acc).
Proof.
  induction l as [|kv l IH]; intros acc Ha H; simpl; [assumption|].
  apply IH; [assumption | now apply edge_visit_ok].
Qed.

Lemma edge_loop_ok idx all (l : list string) : forall acc,
  incl l all -> edges_ok all acc ->
  edges_ok all
    (fold_left
       (fun acc artist =>
          fold_left (edge_visit all artist)
            (_get_direct_collaborators_raw idx artist) acc) l acc).
Proof.
  induction l as [|a l IH]; intros acc Hl H; simpl; [assumption|].
  apply IH; [intros x Hx; apply Hl; now right|].
  apply edge_fold_ok; [apply Hl; now left | assumption].
Qed.

End EdgeFacts.

(** X7. In the graph the subgraph query returns, no node and no edge
    occurs twice, every edge joins two nodes of the graph, and its source
    is the smaller of the two names: a pair of artists is reported once,
    whichever of the two is met first. *)
Theorem subgraph_edges_well_formed
    (idx : SongIndex) (A : string) (d : nat)
    (nodes : list Node) (edges : list Edge) :
  get_artist_connections_graph idx A d = Some (nodes, edges) ->
  NoDup (map node_id nodes)
  /\ NoDup (map edge_ends edges)
  /\ forall e, In e edges ->
       In (edge_source e) (map node_id nodes)
       /\ In (edge_target e) (map node_id nodes)
       /\ str_leb (edge_source e) (edge_target e) = true.
Proof.
  unfold get_artist_connections_graph.
  destruct (reach_loop (bfs_fuel idx) idx d _) as [all|] eqn:Hall;
    [|discriminate].
  intros H; injection H as <- <-.
  assert (Hids : map node_id
                   (map (fun artist =>
                           mkNode artist artist
                             (List.length
                                (_get_direct_collaborators_raw idx artist)))
                      all) = all)
    by (rewrite map_map; simpl; apply map_id).
  rewrite Hids.
  pose proof (EdgeFacts.edge_loop_ok idx all all ([], []) (incl_refl _))
    as (He & Hm & Hn).
  { split; [intros e [] | split; [reflexivity | constructor]]. }
  split; [|split].
  - eapply EdgeFacts.reach_loop_NoDup; [|exact Hall].
    simpl; repeat constructor; intros [].
  - rewrite Hm; eapply Permutation_NoDup; [apply Permutation_rev | exact Hn].
  - exact He.
Qed.

Lemma subgraph_edges_witness :
  NoDup (map node_id
           [ mkNode "Artist X" "Artist X" 1; mkNode "Artist Y" "Artist Y" 2;
             mkNode "Artist Z" "Artist Z" 1 ])
  /\ NoDup (map edge_ends
              [ mkEdge "Artist X" "Artist Y" 1 "Artist X - Artist Y";
                mkEdge "Artist Y" "Artist Z" 1 "Artist Y - Artist Z" ])
  /\ forall e,
       In e [ mkEdge "Artist X" "Artist Y" 1 "Artist X - Artist Y";
              mkEdge "Artist Y" "Artist Z" 1 "Artist Y - Artist Z" ] ->
       In (edge_source e)
          (map node_id
             [ mkNode "Artist X" "Artist X" 1; mkNode "Artist Y" "Artist Y" 2;
               mkNode "Artist Z" "Artist Z" 1 ])
       /\ In (edge_target e)
            (map node_id
               [ mkNode "Artist X" "Artist X" 1;
                 mkNode "Artist Y" "Artist Y" 2;
                 mkNode "Artist Z" "Artist Z" 1 ])
       /\ str_leb (edge_source e) (edge_target e) = true.
Proof.
  apply (subgraph_edges_well_formed sample_index "Artist X" 2).
  reflexivity.
Defined.
(** ** More on search *)

Module SearchMore.
Import SearchFacts SortFacts.

Lemma isspace_lower_char c : isspace (lower_char c) = isspace c.
Proof. destruct c as [[] [] [] [] [] [] [] []]; reflexivity. Qed.

Lemma all_space_lower q : all_space (lower q) = all_space q.
Proof.
  induction q as [|c q IH]; simpl; [reflexivity|].
  now rewrite isspace_lower_char, IH.
Qed.

(** The full ranking of which the result is the head. *)
Lemma search_ranking idx query :
  all_space query = false ->
  let L := sorted (key_le (lower query)) (collect_matches (lower query) idx) in
  search_artists idx query = firstn 20 L
  /\ NoDup L
  /\ (forall a, In a L <-> In a (all_names idx) /\ substring_match query a)
  /\ StronglySorted (ranked_before query) L.
Proof.
  intros Hq L; unfold search_artists.
  rewrite strip_empty_all_space, Hq; fold L.
  assert (HP : Permutation L (collect_matches (lower query) idx))
    by apply sorted_perm.
  assert (ND : NoDup L).
  { eapply Permutation_NoDup; [symmetry; exact HP|].
    apply collect_matches_NoDup. }
  split; [reflexivity | split; [exact ND | split]].
  - intros a; rewrite <- collect_matches_In; split; intros H.
    + eapply Permutation_in; [exact HP | exact H].
    + eapply Permutation_in; [symmetry; exact HP | exact H].
  - eapply StronglySorted_strict;
      [ | exact ND
        | apply (sorted_strongly (key_le (lower query)));
          [apply key_le_total | apply key_le_trans] ].
    intros a b; apply key_le_ranked.
Qed.

Lemma exact_substring query a : exact_match query a -> substring_match query a.
Proof.
  unfold exact_match, substring_match; intros ->.
  exists EmptyString, EmptyString; simpl.
  now rewrite SplitFacts.append_nil_r.
Qed.

End SearchMore.

(** X8. Search does not look at the case of the query: two queries that
    differ in case only have the same result. *)
Theorem search_ignores_query_case (idx : SongIndex) (q q' : string) :
  lower q = lower q' -> search_artists idx q = search_artists idx q'.
Proof.
  intros H; unfold search_artists.
  rewrite !strip_empty_all_space.
  rewrite <- (SearchMore.all_space_lower q), <- (SearchMore.all_space_lower q').
  now rewrite H.
Qed.

Lemma search_ignores_query_case_witness :
  search_artists sample_index "ARTIST y" = search_artists sample_index "artist Y".
Proof.
  apply (search_ignores_query_case sample_index "ARTIST y" "artist Y").
  reflexivity.
Defined.

(** X9. When the query is, case apart, the name of an artist of the index,
    the first result is such a name: an exact match heads the list. *)
Theorem search_exact_match_first (idx : SongIndex) (query a : string) :
  all_space query = false ->
  In a (all_names idx) -> exact_match query a ->
  exists h t, search_artists idx query = h :: t /\ exact_match query h.
Proof.
  intros Hq Ha He.
  destruct (SearchMore.search_ranking idx query Hq) as (Hs & _ & Hin & Hsorted).
  set (L := sorted (key_le (lower query)) (collect_matches (lower query) idx))
    in *.
  assert (HaL : In a L)
    by (apply Hin; split; [assumption | now apply SearchMore.exact_substring]).
  destruct L as [|h t]; [contradiction|].
  exists h, (firstn 19 t); split; [exact Hs|].
  destruct HaL as [->|HaL]; [assumption|].
  inversion Hsorted as [|? ? _ Hall]; subst.
  rewrite Forall_forall in Hall; specialize (Hall a HaL).
  destruct Hall as [H|H1 H2 H3|H1 _ _]; [assumption | contradiction | tauto].
Qed.

Lemma search_exact_match_first_witness :
  exists h t,
    search_artists sample_index "artist y" = h :: t
    /\ exact_match "artist y" h.
Proof.
  apply (search_exact_match_first sample_index "artist y" "Artist Y").
  - reflexivity.
  - simpl; tauto.
  - reflexivity.
Defined.

(** ** The names the extractor returns *)

Module ProperFacts.
Import SetFacts.

Section Names.
Variable P : string -> Prop.
Hypothesis P_strip : forall a, strip a <> EmptyString -> P (strip a).

Lemma restore_Forall (token_map : dict string) temp :
  (forall k v, get token_map k = Some v -> P v) ->
  Forall P (restore token_map temp).
Proof.
  intros Hm; unfold restore.
  assert (G : forall acc, Forall P acc ->
    Forall P (fold_left
      (fun result a =>
         let a := strip a in
         if (a =? "")%string then result
         else match get token_map a with
              | Some exc => set_add exc result
              | None => set_add a result
              end) temp acc)).
  { induction temp as [|a temp IH]; intros acc H; simpl; [assumption|].
    apply IH; destruct (String.eqb_spec (strip a) "") as [E|N]; [assumption|].
    destruct (get token_map (strip a)) as [exc|] eqn:E;
      apply Forall_forall; intros x Hx; apply set_add_In in Hx as [->|Hx];
      try (rewrite Forall_forall in H; now apply H).
    - eapply Hm; eauto.
    - now apply P_strip. }
  apply G; constructor.
Qed.

Lemma protect_Forall excs : forall idx s (token_map : dict string),
  Forall P excs ->
  (forall k v, get token_map k = Some v -> P v) ->
  forall k v, get (snd (protect excs idx s token_map)) k = Some v -> P v.
Proof.
  induction excs as [|exc excs IH]; intros idx s token_map He Hm; simpl.
  - exact Hm.
  - inversion He as [|? ? Hexc He']; subst.
    destruct (subn exc (exc_token idx) s) as [s' n].
    apply IH; [assumption|].
    destruct (0 <? n); [|exact Hm].
    intros k v; destruct (string_dec (exc_token idx) k) as [<-|N].
    + rewrite get_set_same; intros E; injection E as <-; exact Hexc.
    + rewrite get_set_other by assumption; apply Hm.
Qed.

Lemma split_artists_Forall excs s :
  Forall P excs -> Forall P (split_artists excs s).
Proof.
  intros He; unfold split_artists; destruct (s =? "N/A")%string; [constructor|].
  destruct (protect excs 0 (strip s) []) as [tokenized token_map] eqn:E.
  apply restore_Forall.
  change token_map with (snd (tokenized, token_map)); rewrite <- E.
  apply protect_Forall; [assumption | discriminate].
Qed.

Lemma extract_artists_Forall excs a f :
  Forall P excs -> Forall P (_extract_artists excs a f).
Proof.
  intros He; apply Forall_forall; intros x Hx.
  apply set_union_In in Hx as [Hx|Hx];
    [pose proof (split_artists_Forall excs a He) as H
    | pose proof (split_artists_Forall excs f He) as H];
    rewrite Forall_forall in H; now apply H.
Qed.

End Names.

End ProperFacts.

(** X10. Whatever the two fields are and in whatever order the exception
    names are enumerated, the extractor returns a set of names none of
    which is empty or has whitespace at either end. *)
Theorem extracted_names_are_proper
    (excs : list string) (artist_str featured_str : string) :
  Permutation EXCEPTIONS excs ->
  NoDup (_extract_artists excs artist_str featured_str)
  /\ forall a, In a (_extract_artists excs artist_str featured_str) ->
       a <> "" /\ strip a = a /\ all_space a = false.
Proof.
  intros He; split; [apply SetFacts.extract_artists_NoDup|].
  assert (H : Forall (fun a => a <> "" /\ strip a = a /\ all_space a = false)
                (_extract_artists excs artist_str featured_str)).
  { apply ProperFacts.extract_artists_Forall.
    - intros x Hx; split; [assumption | split; [apply strip_idem|]].
      rewrite <- strip_empty_all_space, strip_idem.
      now apply String.eqb_neq.
    - eapply Permutation_Forall; [exact He|].
      repeat constructor; discriminate. }
  rewrite Forall_forall in H; exact H.
Qed.

Lemma extracted_names_witness :
  NoDup (_extract_artists EXCEPTIONS " Artist X &  Earth, Wind & Fire,, "
           "N/A")
  /\ forall a,
       In a (_extract_artists EXCEPTIONS
               " Artist X &  Earth, Wind & Fire,, " "N/A") ->
       a <> "" /\ strip a = a /\ all_space a = false.
Proof.
  apply (extracted_names_are_proper EXCEPTIONS).
  apply Permutation_refl.
Defined.

Example extract_messy_field :
  _extract_artists EXCEPTIONS " Artist X &  Earth, Wind & Fire,, " "N/A"
  = ["Artist X"; "Earth, Wind & Fire"].
Proof. reflexivity. Qed.

(** ** The entries of the adjacency map *)

Module AdjacencyFacts.
Import BuilderFacts BuilderCounts SetFacts.

Lemma pairs_in_rows_self excs a rows : pairs_in_rows excs a a rows = 0.
Proof.
  unfold pairs_in_rows, pair_count.
  induction rows as [|row rows IH]; simpl; [reflexivity|].
  rewrite IH; destruct (string_dec a a); [reflexivity | contradiction].
Qed.

Lemma built_weight excs file collaborations songs_to_artists a b :
  _build_relationship_dicts excs file
  = Return (collaborations, songs_to_artists) ->
  weight collaborations a b = stored (pairs_in_rows excs a b (tl file)).
Proof.
  intros Hb; destruct file as [|header rows]; [discriminate|].
  simpl in Hb; injection Hb as Hb.
  assert (Hc : collaborations = fst (fold_left (build_row excs) rows ([], [])))
    by now rewrite Hb.
  rewrite Hc, build_rows_weight; simpl; apply bump_None.
Qed.

Lemma keys_update_pair artist (collaborations : Adjacency) other x :
  In x (keys (update_pair artist collaborations other)) <->
  In x (keys collaborations) \/ (x = artist /\ other <> artist).
Proof.
  unfold update_pair; destruct (String.eqb_spec other artist) as [->|N]; simpl.
  - intuition.
  - rewrite keys_set; intuition.
Qed.

Lemma keys_inner_loop artist (l : list string) :
  forall (collaborations : Adjacency) x,
  In x (keys (fold_left (update_pair artist) l collaborations)) ->
  In x (keys collaborations) \/ x = artist.
Proof.
  induction l as [|o l IH]; intros collaborations x; simpl; [auto|].
  intros H; apply IH in H as [H|H]; [|auto].
  apply keys_update_pair in H; tauto.
Qed.

Lemma keys_inner_loop_mono artist (l : list string) :
  forall (collaborations : Adjacency) x,
  In x (keys collaborations) ->
  In x (keys (fold_left (update_pair artist) l collaborations)).
Proof.
  induction l as [|o l IH]; intros collaborations x H; simpl; [assumption|].
  apply IH, keys_update_pair; now left.
Qed.

Lemma keys_update_artist l (collaborations : Adjacency) artist x :
  In x (keys (update_artist l collaborations artist)) <->
  In x (keys collaborations) \/ x = artist.
Proof.
  unfold update_artist; split.
  - intros H; apply keys_inner_loop in H as [H|H]; [|auto].
    destruct (has collaborations artist); simpl in H; [auto|].
    apply keys_set in H; tauto.
  - intros H; apply keys_inner_loop_mono.
    destruct (has collaborations artist) eqn:E; simpl.
    + destruct H as [H| ->]; [assumption | now apply has_true].
    + apply keys_set; tauto.
Qed.

Lemma keys_outer_loop l2 (l1 : list string) :
  forall (collaborations : Adjacency) x,
  In x (keys (fold_left (update_artist l2) l1 collaborations)) <->
  In x (keys collaborations) \/ In x l1.
Proof.
  induction l1 as [|o l1 IH]; intros collaborations x; simpl; [tauto|].
  rewrite IH, keys_update_artist; intuition.
Qed.

Lemma keys_build_row excs acc row x :
  In x (keys (fst (build_row excs acc row))) <->
  In x (keys (fst acc)) \/ In x (row_artists excs row).
Proof.
  unfold build_row, row_artists.
  destruct row as [|position [|title [|artist_str [|featured [|]]]]];
    simpl; try tauto.
  destruct (_extract_artists excs artist_str featured) as [|y l] eqn:E;
    [simpl; tauto|].
  simpl fst; unfold _update_collaborations; apply keys_outer_loop.
Qed.

Lemma keys_build_rows excs rows : forall acc x,
  In x (keys (fst (fold_left (build_row excs) rows acc))) <->
  In x (keys (fst acc))
  \/ exists row, In row rows /\ In x (row_artists excs row).
Proof.
  induction rows as [|row rows IH]; intros acc x; simpl.
  - split; [auto | intros [H | (r & [] & _)]; assumption].
  - rewrite IH, keys_build_row; split.
    + intros [[H|H] | (r & Hr & Hx)]; eauto.
    + intros [H | (r & [<-|Hr] & Hx)]; eauto.
Qed.

Lemma names_build_rows excs rows : forall acc x,
  In x (all_names (snd (fold_left (build_row excs) rows acc))) ->
  In x (all_names (snd acc))
  \/ exists row, In row rows /\ In x (row_artists excs row).
Proof.
  induction rows as [|row rows IH]; intros acc x H; simpl in *; [auto|].
  apply IH in H as [H | (r & Hr & Hx)]; [|eauto].
  rewrite snd_build_row in H.
  destruct (row_entry_cases excs row) as [[E _] | (k & E & _)];
    rewrite E in H; [auto|].
  simpl in H; apply TrimmedFacts.all_names_set in H as [H|H]; eauto.
Qed.

Lemma set_nonempty {V} (d : dict V) k v : set d k v <> [].
Proof.
  destruct d as [|[k' v'] d]; simpl; [discriminate|].
  destruct (k' =? k)%string; discriminate.
Qed.

(** Both structures stay empty or neither does. *)
Lemma build_rows_both excs rows : forall acc,
  (fst acc = [] <-> snd acc = []) ->
  (fst (fold_left (build_row excs) rows acc) = []
   <-> snd (fold_left (build_row excs) rows acc) = []).
Proof.
  induction rows as [|row rows IH]; intros acc H; simpl; [assumption|].
  apply IH.
  destruct (row_entry_cases excs row) as [[E Ea] | (k & E & Ea)].
  - rewrite snd_build_row, E.
    assert (Hf : build_row excs acc row = acc); [|now rewrite Hf].
    unfold build_row, row_artists in *.
    destruct row as [|position [|title [|artist_str [|featured [|]]]]];
      try reflexivity.
    now rewrite Ea.
  - rewrite snd_build_row, E; simpl.
    destruct (row_artists excs row) as [|y l] eqn:Er; [congruence|].
    assert (Hy : In y (keys (fst (build_row excs acc row))))
      by (apply keys_build_row; right; rewrite Er; now left).
    split; intros H0.
    + unfold Adjacency, SongIndex, dict in *; rewrite H0 in Hy; destruct Hy.
    + exfalso; eapply set_nonempty; exact H0.
Qed.

End AdjacencyFacts.

(** X11. In the adjacency map the builder makes, no artist has an entry
    for itself, and every weight that is stored is at least 1. *)
Theorem stored_weights_positive
    (excs : list string) (file : list (list string))
    (collaborations : Adjacency) (songs_to_artists : SongIndex)
    (A B : string) (w : nat) :
  _build_relationship_dicts excs file
  = Return (collaborations, songs_to_artists) ->
  weight collaborations A B = Some w ->
  A <> B /\ 1 <= w.
Proof.
  intros Hb Hw; rewrite (AdjacencyFacts.built_weight _ _ _ _ A B Hb) in Hw.
  split.
  - intros <-; rewrite AdjacencyFacts.pairs_in_rows_self in Hw; discriminate.
  - destruct (pairs_in_rows excs A B (tl file)); simpl in Hw;
      [discriminate | injection Hw as <-; lia].
Qed.

Lemma stored_weights_positive_witness :
  "Artist X" <> "Artist Y" /\ 1 <= 1.
Proof.
  apply (stored_weights_positive EXCEPTIONS example_file
           [ ("Artist X", [("Artist Y", 1)]); ("Artist Y", [("Artist X", 1)]) ]
           [ ("Song A/////Artist X&&&Artist Y/////1",
              ["Artist X"; "Artist Y"]);
             ("Song B/////Artist X/////2", ["Artist X"]) ]).
  - reflexivity.
  - reflexivity.
Defined.

(** X12. The artists that have an entry in the adjacency map are exactly
    those extracted from some row, an artist without collaborator
    included; so every artist of the song index has an entry. *)
Theorem adjacency_keys_are_the_artists
    (excs : list string) (file : list (list string))
    (collaborations : Adjacency) (songs_to_artists : SongIndex) :
  _build_relationship_dicts excs file
  = Return (collaborations, songs_to_artists) ->
  (forall a, In a (keys collaborations) <->
             exists row, In row (tl file) /\ In a (row_artists excs row))
  /\ (forall a, In a (all_names songs_to_artists) ->
                In a (keys collaborations)).
Proof.
  intros Hb; destruct file as [|header rows]; [discriminate|].
  simpl in Hb; injection Hb as Hb.
  assert (Hc : collaborations = fst (fold_left (build_row excs) rows ([], [])))
    by now rewrite Hb.
  assert (Hs : songs_to_artists
               = snd (fold_left (build_row excs) rows ([], [])))
    by now rewrite Hb.
  assert (Hk : forall a, In a (keys collaborations) <->
                 exists row, In row rows /\ In a (row_artists excs row)).
  { intros a; rewrite Hc, AdjacencyFacts.keys_build_rows; simpl; tauto. }
  split; [exact Hk|].
  intros a Ha; apply Hk; rewrite Hs in Ha.
  apply AdjacencyFacts.names_build_rows in Ha as [[]|H]; exact H.
Qed.

Lemma adjacency_keys_witness :
  (forall a,
     In a (keys [ ("Artist X", [("Artist Y", 1)]);
                  ("Artist Y", [("Artist X", 1)]) ]) <->
     exists row, In row (tl example_file)
                 /\ In a (row_artists EXCEPTIONS row))
  /\ (forall a,
        In a (all_names
                [ ("Song A/////Artist X&&&Artist Y/////1",
                   ["Artist X"; "Artist Y"]);
                  ("Song B/////Artist X/////2", ["Artist X"]) ]) ->
        In a (keys [ ("Artist X", [("Artist Y", 1)]);
                     ("Artist Y", [("Artist X", 1)]) ])).
Proof.
  apply (adjacency_keys_are_the_artists EXCEPTIONS example_file).
  reflexivity.
Defined.

(** X13. The refresh never fails for want of songs alone: the adjacency
    map is empty exactly when the song index is, so the second check of
    the validation cannot be the one that raises. *)
Theorem no_songs_error_unreachable
    (config : ProcessingConfig) (excs : list string)
    (file : list (list string)) (fs : FileSystem) :
  fst (process_data config excs file fs)
  <> Raise (ValueError "No songs found").
Proof.
  unfold process_data, bind, lift, ret, _save_with_backup.
  destruct file as [|header rows]; [discriminate|].
  cbn [_build_relationship_dicts].
  pose proof (AdjacencyFacts.build_rows_both excs rows ([], [])) as H.
  destruct (fold_left (build_row excs) rows ([], [])) as [c s]; simpl in *.
  destruct c as [|x c]; simpl; [discriminate|].
  destruct s as [|y s]; simpl; [|discriminate].
  assert (E : x :: c = []) by (apply H; [tauto | reflexivity]).
  discriminate.
Qed.

(** ** Saving with a backup *)

Module SaveFacts.

Lemma get_del_other {V} (d : dict V) k q :
  k <> q -> get (del d k) q = get d q.
Proof.
  intros N; induction d as [|[a v] d IH]; simpl; [reflexivity|].
  destruct (String.eqb_spec a k) as [->|Na]; simpl.
  - apply String.eqb_neq in N; now rewrite N.
  - now rewrite IH.
Qed.

Lemma length_append (a b : string) :
  String.length (a ++ b) = String.length a + String.length b.
Proof. induction a; simpl; congruence. Qed.

Lemma backup_path_differs p : backup_path p <> p.
Proof.
  unfold backup_path; intros H.
  apply (f_equal String.length) in H; rewrite length_append in H.
  simpl in H; lia.
Qed.

Lemma append_cancel_r (a b s : string) :
  (a ++ s)%string = (b ++ s)%string -> a = b.
Proof.
  revert b; induction a as [|x a IH]; intros [|y b] H; simpl in H.
  - reflexivity.
  - exfalso; apply (f_equal String.length) in H; simpl in H.
    rewrite length_append in H; lia.
  - exfalso; apply (f_equal String.length) in H; simpl in H.
    rewrite length_append in H; lia.
  - injection H as -> H; f_equal; auto.
Qed.

Lemma backup_path_inj p q : backup_path p = backup_path q -> p = q.
Proof. apply append_cancel_r. Qed.

Section Save.
Variables (data : Json) (path : string) (fs : FileSystem).

Let fs' := snd (_save_with_backup data path fs).

Lemma save_returns : fst (_save_with_backup data path fs) = Return tt.
Proof. reflexivity. Qed.

Lemma get_saved : get fs' path = Some data.
Proof. apply get_set_same. Qed.

Lemma get_backup old :
  get fs path = Some old -> get fs' (backup_path path) = Some old.
Proof.
  intros H; unfold fs', _save_with_backup; simpl; rewrite H.
  rewrite get_set_other by (intros E; symmetry in E; now apply backup_path_differs in E).
  apply get_set_same.
Qed.

Lemma get_elsewhere q :
  q <> path -> q <> backup_path path -> get fs' q = get fs q.
Proof.
  intros N1 N2; unfold fs', _save_with_backup; simpl.
  rewrite get_set_other by congruence.
  destruct (get fs path) as [old|]; [|reflexivity].
  rewrite get_set_other by congruence.
  apply get_del_other; congruence.
Qed.

End Save.

End SaveFacts.

(** X14. After a save the path holds the data saved; what the path held
    before is at the backup path, replacing any older backup; no other
    path changes.  A path that did not exist gets no backup. *)
Theorem save_with_backup_keeps_previous
    (data : Json) (path : string) (fs : FileSystem) :
  get (snd (_save_with_backup data path fs)) path = Some data
  /\ (forall old, get fs path = Some old ->
        get (snd (_save_with_backup data path fs)) (backup_path path)
        = Some old)
  /\ (forall q, q <> path -> q <> backup_path path ->
        get (snd (_save_with_backup data path fs)) q = get fs q).
Proof.
  split; [apply SaveFacts.get_saved | split].
  - apply SaveFacts.get_backup.
  - apply SaveFacts.get_elsewhere.
Qed.

(** ** A refresh that succeeds *)

(** X15. When the build yields collaborations and the two output paths and
    their backup paths do not collide, the refresh returns the two
    structures, each output path holds its structure, and what each path
    held before is at its backup path. *)
Theorem refresh_writes_both_structures
    (config : ProcessingConfig) (excs : list string)
    (file : list (list string))
    (collaborations : Adjacency) (songs_to_artists : SongIndex)
    (fs : FileSystem) :
  _build_relationship_dicts excs file
  = Return (collaborations, songs_to_artists) ->
  collaborations <> [] ->
  collaborations_output config <> songs_output config ->
  backup_path (collaborations_output config) <> songs_output config ->
  backup_path (songs_output config) <> collaborations_output config ->
  exists fs',
    process_data config excs file fs
    = (Return (collaborations, songs_to_artists), fs')
    /\ get fs' (collaborations_output config)
       = Some (JsonAdjacency collaborations)
    /\ get fs' (songs_output config) = Some (JsonSongIndex songs_to_artists)
    /\ (forall old, get fs (collaborations_output config) = Some old ->
          get fs' (backup_path (collaborations_output config)) = Some old)
    /\ (forall old, get fs (songs_output config) = Some old ->
          get fs' (backup_path (songs_output config)) = Some old).
Proof.
  intros Hb Hc N1 N2 N3.
  assert (Hs : songs_to_artists <> []).
  { destruct file as [|header rows]; [discriminate|].
    simpl in Hb; injection Hb as Hb.
    pose proof (AdjacencyFacts.build_rows_both excs rows ([], [])) as H.
    rewrite Hb in H; simpl in H; intros E; apply Hc, H; tauto. }
  assert (Hv : _validate_data collaborations songs_to_artists = Return tt).
  { destruct collaborations; [congruence|].
    destruct songs_to_artists; [congruence|reflexivity]. }
  set (co := collaborations_output config) in *.
  set (so := songs_output config) in *.
  set (fs1 := snd (_save_with_backup (JsonAdjacency collaborations) co fs)).
  set (fs2 := snd (_save_with_backup (JsonSongIndex songs_to_artists) so fs1)).
  exists fs2; split; [|split; [|split; [|split]]].
  - unfold process_data, bind, lift, ret; rewrite Hb; cbn [fst snd].
    rewrite Hv; reflexivity.
  - unfold fs2; rewrite SaveFacts.get_elsewhere by congruence.
    apply SaveFacts.get_saved.
  - apply SaveFacts.get_saved.
  - intros old Ho; unfold fs2; rewrite SaveFacts.get_elsewhere.
    + now apply SaveFacts.get_backup.
    + assumption.
    + intros E; apply SaveFacts.backup_path_inj in E; contradiction.
  - intros old Ho; apply SaveFacts.get_backup.
    unfold fs1; rewrite SaveFacts.get_elsewhere by congruence; exact Ho.
Qed.

Lemma refresh_writes_witness :
  exists fs',
    process_data (mkConfig "cleaned.csv" "c.json" "s.json" 1)
      EXCEPTIONS example_file [("c.json", JsonAdjacency [])]
    = (Return
         ( [ ("Artist X", [("Artist Y", 1)]);
             ("Artist Y", [("Artist X", 1)]) ],
           [ ("Song A/////Artist X&&&Artist Y/////1",
              ["Artist X"; "Artist Y"]);
             ("Song B/////Artist X/////2", ["Artist X"]) ] ), fs')
    /\ get fs' "c.json"
       = Some (JsonAdjacency
                 [ ("Artist X", [("Artist Y", 1)]);
                   ("Artist Y", [("Artist X", 1)]) ])
    /\ get fs' "s.json"
       = Some (JsonSongIndex
                 [ ("Song A/////Artist X&&&Artist Y/////1",
                    ["Artist X"; "Artist Y"]);
                   ("Song B/////Artist X/////2", ["Artist X"]) ])
    /\ (forall old, get [("c.json", JsonAdjacency [])] "c.json" = Some old ->
          get fs' (backup_path "c.json") = Some old)
    /\ (forall old, get [("c.json", JsonAdjacency [])] "s.json" = Some old ->
          get fs' (backup_path "s.json") = Some old).
Proof.
  apply (refresh_writes_both_structures
           (mkConfig "cleaned.csv" "c.json" "s.json" 1) EXCEPTIONS
           example_file).
  - reflexivity.
  - discriminate.
  - discriminate.
  - discriminate.
  - discriminate.
Defined.

(** ** The adjacency map and the song index agree *)

Module AgreeFacts.
Import BuilderFacts BuilderCounts SetFacts CountFacts.

Lemma Forall_set {V} (P : string * V -> Prop) (d : dict V) k v :
  (forall k', P (k', v)) -> Forall P d -> Forall P (set d k v).
Proof.
  intros Hv H; induction H as [|[k' v'] d Hx H IH]; simpl.
  - constructor; [apply Hv | constructor].
  - destruct (k' =? k)%string; constructor; auto.
Qed.

Lemma build_rows_NoDup_lists excs rows : forall acc,
  Forall (fun e : string * list string => NoDup (snd e)) (snd acc) ->
  Forall (fun e : string * list string => NoDup (snd e))
    (snd (fold_left (build_row excs) rows acc)).
Proof.
  induction rows as [|row rows IH]; intros acc H; simpl; [assumption|].
  apply IH; rewrite snd_build_row.
  destruct (row_entry_cases excs row) as [[-> _] | (k & -> & _)];
    [assumption|].
  apply Forall_set; [|assumption].
  intros k'; simpl; apply row_artists_NoDup.
Qed.

Lemma built_index_NoDup_lists excs file collaborations songs_to_artists :
  _build_relationship_dicts excs file
  = Return (collaborations, songs_to_artists) ->
  Forall (fun e : string * list string => NoDup (snd e)) songs_to_artists.
Proof.
  intros Hb; destruct file as [|header rows]; [discriminate|].
  simpl in Hb; injection Hb as Hb.
  assert (Hs : songs_to_artists
               = snd (fold_left (build_row excs) rows ([], [])))
    by now rewrite Hb.
  rewrite Hs; apply build_rows_NoDup_lists; constructor.
Qed.

Lemma built_index_entries excs file collaborations songs_to_artists :
  _build_relationship_dicts excs file
  = Return (collaborations, songs_to_artists) ->
  NoDup (row_keys excs (tl file)) ->
  songs_to_artists = row_entries excs (tl file).
Proof.
  intros Hb Hk; destruct file as [|header rows]; [discriminate|].
  simpl in *; injection Hb as Hb.
  assert (Hs : songs_to_artists
               = snd (fold_left (build_row excs) rows ([], [])))
    by now rewrite Hb.
  rewrite Hs, build_rows_songs; [reflexivity | exact Hk].
Qed.

End AgreeFacts.

(** X16. The two structures a refresh writes agree: when the song keys of
    the rows differ, the weight the adjacency map stores for a pair of
    artists is the count the query layer computes for it from the song
    index. *)
Theorem stored_weight_is_query_count
    (excs : list string) (file : list (list string))
    (collaborations : Adjacency) (songs_to_artists : SongIndex)
    (A B : string) :
  _build_relationship_dicts excs file
  = Return (collaborations, songs_to_artists) ->
  NoDup (row_keys excs (tl file)) ->
  trimmed A ->
  A <> B ->
  option_map count (get (_get_direct_connections songs_to_artists A) B)
  = weight collaborations A B.
Proof.
  intros Hb Hk Ht N.
  rewrite ShortcutFacts.direct_as_map, CountFacts.get_to_connection.
  rewrite CountFacts.raw_get
    by exact (AgreeFacts.built_index_NoDup_lists _ _ _ _ Hb).
  rewrite Ht; destruct (string_dec B A) as [E|_]; [congruence|].
  rewrite (AdjacencyFacts.built_weight _ _ _ _ A B Hb).
  rewrite BuilderCounts.pairs_rows_with by assumption.
  rewrite (AgreeFacts.built_index_entries _ _ _ _ Hb Hk).
  rewrite BuilderCounts.songs_with_entries.
  destruct (rows_with excs A B (tl file)); reflexivity.
Qed.

Lemma stored_weight_query_witness :
  option_map count
    (get (_get_direct_connections
            [ ("Song A/////Artist X&&&Artist Y/////1",
               ["Artist X"; "Artist Y"]);
              ("Song B/////Artist X/////2", ["Artist X"]) ] "Artist X")
       "Artist Y")
  = weight [ ("Artist X", [("Artist Y", 1)]);
             ("Artist Y", [("Artist X", 1)]) ] "Artist X" "Artist Y".
Proof.
  apply (stored_weight_is_query_count EXCEPTIONS example_file).
  - reflexivity.
  - vm_compute; repeat constructor; simpl; intuition discriminate.
  - reflexivity.
  - discriminate.
Defined.

(** ** The first builder and the class *)

Module LegacyFacts.

Lemma set_set_same {V} (d : dict V) k v v' :
  set (set d k v) k v' = set d k v'.
Proof.
  induction d as [|[a x] d IH]; simpl.
  - now rewrite String.eqb_refl.
  - destruct (a =? k)%string eqn:E; simpl; rewrite E; [reflexivity|].
    now rewrite IH.
Qed.

Lemma update_pair_same artist collabs other :
  ProcessCsv.update_pair artist collabs other
  = update_pair artist collabs other.
Proof.
  unfold ProcessCsv.update_pair, update_pair.
  destruct (other =? artist)%string; simpl; [reflexivity|].
  destruct (has (getd collabs artist []) other) eqn:E; simpl; [reflexivity|].
  unfold has in E.
  destruct (get (getd collabs artist []) other) eqn:G; [discriminate|].
  rewrite set_set_same; unfold getd at 3; rewrite get_set_same; reflexivity.
Qed.

Lemma fold_left_ext {A B} (f g : A -> B -> A) l :
  (forall a b, f a b = g a b) ->
  forall a, fold_left f l a = fold_left g l a.
Proof.
  intros H; induction l as [|b l IH]; intros a; simpl; [reflexivity|].
  now rewrite H, IH.
Qed.

Lemma update_artist_same artists collabs artist :
  ProcessCsv.update_artist artists collabs artist
  = update_artist artists collabs artist.
Proof.
  unfold ProcessCsv.update_artist, update_artist.
  apply fold_left_ext; intros; apply update_pair_same.
Qed.

Lemma update_same collabs artists :
  ProcessCsv.update_collab_counts collabs artists
  = _update_collaborations collabs artists.
Proof.
  unfold ProcessCsv.update_collab_counts, _update_collaborations.
  apply fold_left_ext; intros; apply update_artist_same.
Qed.

Lemma subn_absent pat tok s :
  contains pat s = false -> subn pat tok s = (s, 0).
Proof.
  unfold subn; induction s as [|c s IH]; intros H; [reflexivity|].
  cbn [contains] in H; apply orb_false_iff in H as [Hp Hc].
  cbn [subn_aux]; rewrite Hp, (IH Hc); reflexivity.
Qed.

Lemma protect_absent s excs : forall idx token_map,
  Forall (fun exc => contains exc s = false) excs ->
  protect excs idx s token_map = (s, token_map).
Proof.
  induction excs as [|exc excs IH]; intros idx token_map H; [reflexivity|].
  inversion H as [|? ? He H']; subst.
  cbn [protect]; rewrite subn_absent by assumption.
  cbn [Nat.ltb Nat.leb]; now apply IH.
Qed.

Lemma split_plain excs s :
  plain_field excs s -> split_artists excs s = ProcessCsv.split_artists s.
Proof.
  intros [Ht He]; unfold split_artists, ProcessCsv.split_artists.
  destruct (s =? "N/A")%string; [reflexivity|].
  rewrite Ht, protect_absent by assumption; reflexivity.
Qed.


End LegacyFacts.

(** X17. The update of the first builder and the update of the class are
    one function: the first stores 1 for a pair met for the first time,
    the class stores 0 and adds 1. *)
Theorem update_collab_counts_same
    (collabs : Adjacency) (collaborating_artists : list string) :
  ProcessCsv.update_collab_counts collabs collaborating_artists
  = _update_collaborations collabs collaborating_artists.
Proof. apply LegacyFacts.update_same. Qed.

(** X18. On a field that is trimmed and in which no exception name occurs,
    the splitter of the class gives what the splitter of the first builder
    gives, in the same order. *)
Theorem split_artists_agree (excs : list string) (s : string) :
  plain_field excs s ->
  split_artists excs s = ProcessCsv.split_artists s.
Proof. apply LegacyFacts.split_plain. Qed.

Lemma split_artists_agree_witness :
  split_artists EXCEPTIONS "Artist X & Artist Y"
  = ProcessCsv.split_artists "Artist X & Artist Y".
Proof.
  apply (split_artists_agree EXCEPTIONS "Artist X & Artist Y").
  split; [reflexivity | repeat constructor].
Defined.

(** The two splitters differ on a field that is not trimmed: the class
    trims it before it looks for [" x "]. *)
Example split_artists_untrimmed :
  ProcessCsv.split_artists " x Artist Y" = ["Artist Y"]
  /\ split_artists EXCEPTIONS " x Artist Y" = ["x Artist Y"].
Proof. split; reflexivity. Qed.



(** A row of three fields stops the first builder; the class skips it. *)
Example first_builder_short_row :
  ProcessCsv.build_relationship_dicts
    [ ["position"; "track"; "artist"; "featured_artists"];
      ["1"; "Song A"; "Artist X"] ]
  = Raise (ValueError "wrong number of values to unpack")
  /\ _build_relationship_dicts EXCEPTIONS
       [ ["position"; "track"; "artist"; "featured_artists"];
         ["1"; "Song A"; "Artist X"] ]
     = Return ([], []).
Proof. split; reflexivity. Qed.

(** ** A song read back *)



(** X21. Two such songs with one key are one song. *)
Theorem song_keys_distinct (s1 s2 : Song) :
  serialisable s1 -> serialisable s2 ->
  not_ending_with "/" (title s1) = true ->
  not_ending_with "/" (title s2) = true ->
  artists_end_well (artists s1) = true ->
  artists_end_well (artists s2) = true ->
  serialise s1 = serialise s2 -> s1 = s2.
Proof.
  intros H1 H2 T1 T2 W1 W2 E.
  pose proof (SongFacts.serialise_round_trip s1 H1 T1 W1) as R1.
  pose proof (SongFacts.serialise_round_trip s2 H2 T2 W2) as R2.
  rewrite E in R1; congruence.
Qed.

Lemma song_keys_distinct_witness :
  mkSong "Song A" ["Artist X"] 1 = mkSong "Song A" ["Artist X"] 1.
Proof.
  apply (song_keys_distinct (mkSong "Song A" ["Artist X"] 1)
           (mkSong "Song A" ["Artist X"] 1));
    try reflexivity; repeat constructor.
Defined.

(** ** What a sample keeps of the graph *)

Module InducedFacts.
Import GraphFacts.

Lemma get_del_same {V} (d : dict V) k :
  NoDup (keys d) -> get (del d k) k = None.
Proof.
  induction d as [|[a v] d IH]; simpl; intros ND; [reflexivity|].
  inversion ND as [|? ? Ha ND']; subst.
  destruct (String.eqb_spec a k) as [->|N]; simpl.
  - now apply get_None.
  - apply String.eqb_neq in N; rewrite N; auto.
Qed.

Lemma get_del {V} (d : dict V) k q :
  NoDup (keys d) ->
  get (del d k) q = if (q =? k)%string then None else get d q.
Proof.
  intros ND; destruct (String.eqb_spec q k) as [->|N].
  - now apply get_del_same.
  - apply SaveFacts.get_del_other; congruence.
Qed.

Lemma get_set {V} (d : dict V) k v q :
  get (set d k v) q = if (q =? k)%string then Some v else get d q.
Proof.
  destruct (String.eqb_spec q k) as [->|N].
  - apply get_set_same.
  - apply get_set_other; congruence.
Qed.

Lemma detach_step_weight n u0 (g : Graph) u v :
  inner_NoDup g ->
  weight (match get g u0 with
          | Some adj_u => set g u0 (del adj_u n)
          | None => g
          end) u v
  = if ((u =? u0) && (v =? n))%string then None else weight g u v.
Proof.
  intros Hi; unfold weight.
  destruct (get g u0) as [adj|] eqn:E.
  - rewrite get_set; destruct (String.eqb_spec u u0) as [->|N]; simpl.
    + rewrite E, get_del by (eapply Hi; eauto).
      destruct (v =? n)%string; reflexivity.
    + reflexivity.
  - destruct (String.eqb_spec u u0) as [->|N]; simpl; [|reflexivity].
    rewrite E; destruct (v =? n)%string; reflexivity.
Qed.

Lemma detach_step_inner n u0 (g : Graph) :
  inner_NoDup g ->
  inner_NoDup (match get g u0 with
               | Some adj_u => set g u0 (del adj_u n)
               | None => g
               end).
Proof.
  intros Hi; destruct (get g u0) as [adj|] eqn:E; [|assumption].
  intros u a; rewrite get_set.
  destruct (String.eqb_spec u u0) as [->|N]; [|apply Hi].
  intros [= <-]; apply keys_del_NoDup; eapply Hi; eauto.
Qed.

Lemma detach_weight n nbrs : forall (g : Graph) u v,
  inner_NoDup g ->
  inner_NoDup (detach n nbrs g)
  /\ weight (detach n nbrs g) u v
     = if (mem u nbrs && (v =? n))%string then None else weight g u v.
Proof.
  unfold detach; induction nbrs as [|u0 nbrs IH]; intros g u v Hi; simpl.
  - split; [assumption | reflexivity].
  - destruct (IH _ u v (detach_step_inner n u0 g Hi)) as [H1 H2].
    split; [exact H1|].
    etransitivity; [exact H2|].
    rewrite detach_step_weight by assumption.
    destruct (u =? u0)%string, (mem u nbrs), (v =? n)%string; reflexivity.
Qed.

Lemma weight_del (g : Graph) n u v :
  NoDup (keys g) ->
  weight (del g n) u v = if (u =? n)%string then None else weight g u v.
Proof.
  intros ND; unfold weight; rewrite get_del by assumption.
  destruct (u =? n)%string; reflexivity.
Qed.

Lemma inner_del (g : Graph) n :
  NoDup (keys g) -> inner_NoDup g -> inner_NoDup (del g n).
Proof.
  intros ND Hi u adj; rewrite get_del by assumption.
  destruct (u =? n)%string; [discriminate | apply Hi].
Qed.

Lemma weight_Some_mem (g : Graph) u v w :
  weight g u v = Some w -> mem v (keys (getd g u [])) = true.
Proof.
  unfold weight, getd; destruct (get g u) as [adj|]; [|discriminate].
  intros H; apply mem_In; eapply get_Some_In; eauto.
Qed.

Lemma weight_Some_node (g : Graph) u v w :
  weight g u v = Some w -> In u (nodes g).
Proof.
  unfold weight, nodes; destruct (get g u) as [adj|] eqn:E; [|discriminate].
  intros _; eapply get_Some_In; eauto.
Qed.

(** One removal leaves the weights between the other nodes and no edge at
    the node removed. *)
Lemma remove_node_weight (g : Graph) n u v :
  undirected g ->
  weight (remove_node g n) u v
  = if ((u =? n) || (v =? n))%string then None else weight g u v.
Proof.
  intros (ND & Hi & Hs); unfold remove_node.
  fold (detach n (keys (getd g n [])) g).
  destruct (detach_weight n (keys (getd g n [])) g u v Hi) as [_ Hw].
  rewrite weight_del
    by (unfold detach; rewrite detach_keys; exact ND).
  rewrite Hw; destruct (String.eqb_spec u n) as [->|Nu]; simpl; [reflexivity|].
  destruct (String.eqb_spec v n) as [->|Nv]; simpl.
  - destruct (mem u (keys (getd g n []))) eqn:M; [reflexivity|].
    destruct (weight g u n) as [w|] eqn:W; [|reflexivity].
    rewrite Hs in W; apply weight_Some_mem in W; congruence.
  - now rewrite andb_false_r.
Qed.

Lemma remove_node_undirected (g : Graph) n :
  undirected g -> undirected (remove_node g n).
Proof.
  intros U; pose proof U as (ND & Hi & Hs).
  split; [now apply remove_node_NoDup | split].
  - unfold remove_node; fold (detach n (keys (getd g n [])) g).
    apply inner_del.
    + unfold detach; rewrite detach_keys; exact ND.
    + now apply (detach_weight n (keys (getd g n [])) g n n).
  - intros u v; rewrite !remove_node_weight by assumption.
    rewrite orb_comm, Hs; reflexivity.
Qed.

Lemma remove_all_weight (R : list string) : forall (g : Graph) u v,
  undirected g ->
  undirected (fold_left remove_node R g)
  /\ weight (fold_left remove_node R g) u v
     = if mem u R || mem v R then None else weight g u v.
Proof.
  induction R as [|r R IH]; intros g u v U; simpl.
  - split; [assumption | reflexivity].
  - destruct (IH (remove_node g r) u v (remove_node_undirected g r U))
      as [H1 H2].
    split; [exact H1|].
    rewrite H2, remove_node_weight by assumption.
    destruct (u =? r)%string, (v =? r)%string, (mem u R), (mem v R);
      reflexivity.
Qed.

Lemma remove_all_nodes (R : list string) : forall (g : Graph) x,
  NoDup (nodes g) ->
  NoDup (nodes (fold_left remove_node R g))
  /\ (In x (nodes (fold_left remove_node R g)) <->
      In x (nodes g) /\ ~ In x R).
Proof.
  induction R as [|r R IH]; intros g x ND; simpl.
  - split; [assumption | intuition].
  - destruct (IH (remove_node g r) x (remove_node_NoDup g r ND)) as [H1 H2].
    split; [exact H1|].
    rewrite H2, remove_node_In by assumption.
    intuition congruence.
Qed.

(** The graph left by a list of removals is the graph induced on the
    nodes left. *)
Lemma removals_induce (R : list string) (g : Graph) :
  undirected g ->
  undirected (fold_left remove_node R g)
  /\ (forall u v,
        In u (nodes (fold_left remove_node R g)) ->
        In v (nodes (fold_left remove_node R g)) ->
        weight (fold_left remove_node R g) u v = weight g u v)
  /\ (forall u v w,
        weight (fold_left remove_node R g) u v = Some w ->
        In u (nodes (fold_left remove_node R g))
        /\ In v (nodes (fold_left remove_node R g))).
Proof.
  intros U; pose proof U as (ND & Hi & Hs).
  split; [now apply (remove_all_weight R g "" "") | split].
  - intros u v Hu Hv.
    apply (remove_all_nodes R g u ND) in Hu as [_ Hu].
    apply (remove_all_nodes R g v ND) in Hv as [_ Hv].
    destruct (remove_all_weight R g u v U) as [_ ->].
    apply mem_false in Hu, Hv; rewrite Hu, Hv; reflexivity.
  - intros u v w H.
    destruct (remove_all_weight R g u v U) as [U' E].
    pose proof U' as (_ & _ & Hs').
    split; [eapply weight_Some_node; eauto|].
    rewrite Hs' in H; eapply weight_Some_node; eauto.
Qed.

Lemma random_loop_removals rands : forall goal i (g : Graph),
  NoDup (nodes g) ->
  goal <= List.length (nodes g) ->
  exists R,
    random_loop rands i g goal = Some (fold_left remove_node R g)
    /\ List.length (nodes (fold_left remove_node R g)) + goal
       = List.length (nodes g).
Proof.
  induction goal as [|goal IH]; intros i g ND Hle; simpl.
  - exists []; simpl; split; [reflexivity | lia].
  - unfold choice; destruct (nodes g) as [|x l] eqn:E; [simpl in Hle; lia|].
    rewrite <- E in *.
    assert (Hlen : List.length (nodes g) <> 0) by (rewrite E; discriminate).
    destruct (nth_error (nodes g) (rands i mod List.length (nodes g)))
      as [n|] eqn:En.
    + assert (Hn : In n (nodes g)) by (eapply nth_error_In; eauto).
      pose proof (remove_node_length g n Hn) as Hl.
      destruct (IH (S i) (remove_node g n)) as (R & HR & HL).
      * now apply remove_node_NoDup.
      * lia.
      * exists (n :: R); simpl; split; [exact HR | lia].
    + apply nth_error_None in En.
      pose proof (Nat.mod_upper_bound (rands i) _ Hlen); lia.
Qed.

Lemma shrink_random_removals rands (g : Graph) limit :
  NoDup (nodes g) ->
  exists R,
    shrink_graph_random rands g limit = Some (fold_left remove_node R g)
    /\ (number_of_nodes g <= limit -> R = [])
    /\ (limit < number_of_nodes g ->
        number_of_nodes (fold_left remove_node R g) = limit).
Proof.
  intros ND; unfold shrink_graph_random.
  assert (Hsize : forall h : Graph,
             number_of_nodes h = List.length (nodes h))
    by (intros h; unfold number_of_nodes, nodes, keys;
        now rewrite length_map).
  destruct (number_of_nodes g <=? limit) eqn:Hk.
  - exists []; simpl; apply Nat.leb_le in Hk.
    split; [reflexivity | split; [reflexivity | lia]].
  - apply Nat.leb_gt in Hk.
    destruct (random_loop_removals rands (number_of_nodes g - limit) 0 g ND)
      as (R & HR & HL); [rewrite Hsize; lia|].
    exists R; split; [exact HR | split; [lia|]].
    intros _; rewrite Hsize in *; lia.
Qed.

Lemma shrink_degree_removals (g : Graph) limit :
  exists R, shrink_graph_degree g limit = fold_left remove_node R g.
Proof.
  unfold shrink_graph_degree.
  destruct (number_of_nodes g <=? limit); [now exists []|].
  destruct (degree_groups g) as [degree degree_dct].
  rewrite shrink_loop_removed; eauto.
Qed.

End InducedFacts.

(** X22. The random sampler never raises: whatever numbers are drawn, it
    returns a graph; the graph given when it has no more than [limit]
    vertices, and otherwise a graph of exactly [limit] of its vertices. *)
Theorem shrink_random_returns_limit
    (rands : nat -> nat) (graph : Graph) (limit : nat) :
  NoDup (nodes graph) ->
  exists new_graph,
    shrink_graph_random rands graph limit = Some new_graph
    /\ NoDup (nodes new_graph)
    /\ incl (nodes new_graph) (nodes graph)
    /\ (number_of_nodes graph <= limit -> new_graph = graph)
    /\ (limit < number_of_nodes graph -> number_of_nodes new_graph = limit).
Proof.
  intros ND.
  destruct (InducedFacts.shrink_random_removals rands graph limit ND)
    as (R & HR & H0 & HL).
  exists (fold_left remove_node R graph).
  split; [exact HR | split; [|split; [|split]]].
  - now apply (InducedFacts.remove_all_nodes R graph "").
  - intros x Hx; now apply (InducedFacts.remove_all_nodes R graph x ND) in Hx.
  - intros H; now rewrite (H0 H).
  - exact HL.
Qed.

Lemma shrink_random_witness :
  exists new_graph,
    shrink_graph_random (fun i => i) sample_graph 3 = Some new_graph
    /\ NoDup (nodes new_graph)
    /\ incl (nodes new_graph) (nodes sample_graph)
    /\ (number_of_nodes sample_graph <= 3 -> new_graph = sample_graph)
    /\ (3 < number_of_nodes sample_graph -> number_of_nodes new_graph = 3).
Proof.
  apply (shrink_random_returns_limit (fun i => i) sample_graph 3).
  vm_compute; repeat constructor; simpl; intuition discriminate.
Defined.

(** X23. The graph the degree sampler returns is the graph induced on the
    vertices it keeps: an edge between two of them has the weight it had,
    there is no edge to a vertex that is gone, and every edge is still
    stored at both ends. *)
Theorem shrink_degree_is_induced (graph : Graph) (limit : nat) :
  undirected graph ->
  undirected (shrink_graph_degree graph limit)
  /\ (forall u v,
        In u (nodes (shrink_graph_degree graph limit)) ->
        In v (nodes (shrink_graph_degree graph limit)) ->
        weight (shrink_graph_degree graph limit) u v = weight graph u v)
  /\ (forall u v w,
        weight (shrink_graph_degree graph limit) u v = Some w ->
        In u (nodes (shrink_graph_degree graph limit))
        /\ In v (nodes (shrink_graph_degree graph limit))).
Proof.
  intros U; destruct (InducedFacts.shrink_degree_removals graph limit)
    as (R & ->).
  now apply InducedFacts.removals_induce.
Qed.

(** X24. So is the graph the random sampler returns. *)
Theorem shrink_random_is_induced
    (rands : nat -> nat) (graph new_graph : Graph) (limit : nat) :
  undirected graph ->
  shrink_graph_random rands graph limit = Some new_graph ->
  undirected new_graph
  /\ (forall u v,
        In u (nodes new_graph) -> In v (nodes new_graph) ->
        weight new_graph u v = weight graph u v)
  /\ (forall u v w,
        weight new_graph u v = Some w ->
        In u (nodes new_graph) /\ In v (nodes new_graph)).
Proof.
  intros U H; pose proof U as (ND & _).
  destruct (InducedFacts.shrink_random_removals rands graph limit ND)
    as (R & HR & _).
  rewrite HR in H; injection H as <-.
  now apply InducedFacts.removals_induce.
Qed.
(** ** The graph of the adjacency map *)

Module CreateFacts.
Import InducedFacts.

Lemma create_as_fold (data : Adjacency) :
  create_graph_from_json data = fold_left add_json_edge (json_edges data) [].
Proof.
  unfold create_graph_from_json, json_edges.
  generalize (@nil (string * dict nat) : Graph) as g.
  induction data as [|[a od] data IH]; intros g; simpl; [reflexivity|].
  rewrite fold_left_app, IH; f_equal.
  clear IH; revert g; induction od as [|[b w] od IH]; intros g; simpl;
    [reflexivity|].
  now rewrite IH.
Qed.

Lemma add_node_weight (g : Graph) n u v :
  weight (add_node g n) u v = weight g u v.
Proof.
  unfold add_node, has; destruct (get g n) eqn:E; [reflexivity|].
  unfold weight; rewrite get_set.
  destruct (String.eqb_spec u n) as [->|N]; [|reflexivity].
  now rewrite E.
Qed.

Lemma add_node_keys (g : Graph) n x :
  In x (keys (add_node g n)) <-> x = n \/ In x (keys g).
Proof.
  unfold add_node; destruct (has g n) eqn:E.
  - apply has_true in E; split; [auto | intros [->|H]; assumption].
  - apply keys_set.
Qed.

Lemma add_node_NoDup (g : Graph) n :
  NoDup (keys g) -> NoDup (keys (add_node g n)).
Proof.
  unfold add_node; destruct (has g n); [auto | apply NoDup_keys_set].
Qed.

Lemma add_node_inner (g : Graph) n :
  inner_NoDup g -> inner_NoDup (add_node g n).
Proof.
  unfold add_node; destruct (has g n); [auto|].
  intros Hi u adj; rewrite get_set.
  destruct (u =? n)%string; [intros [= <-]; constructor | apply Hi].
Qed.

(** One half of [add_edge]. *)
Lemma set_edge_weight (g : Graph) a b w u v :
  weight (set g a (set (getd g a []) b w)) u v
  = if ((u =? a) && (v =? b))%string then Some w else weight g u v.
Proof.
  unfold weight; rewrite get_set.
  destruct (String.eqb_spec u a) as [->|N]; simpl; [|reflexivity].
  rewrite get_set; destruct (v =? b)%string; [reflexivity|].
  unfold getd; destruct (get g a); reflexivity.
Qed.

Lemma set_edge_inner (g : Graph) a b w :
  inner_NoDup g -> inner_NoDup (set g a (set (getd g a []) b w)).
Proof.
  intros Hi u adj; rewrite get_set.
  destruct (u =? a)%string; [|apply Hi].
  intros [= <-]; apply NoDup_keys_set.
  unfold getd; destruct (get g a) eqn:E; [eapply Hi; eauto | constructor].
Qed.

Lemma add_edge_weight (g : Graph) a b w u v :
  weight (add_edge g a b w) u v
  = if ((u =? a) && (v =? b) || (u =? b) && (v =? a))%string
    then Some w else weight g u v.
Proof.
  unfold add_edge; rewrite !set_edge_weight, !add_node_weight.
  destruct ((u =? a) && (v =? b))%string, ((u =? b) && (v =? a))%string;
    reflexivity.
Qed.

Lemma add_edge_keys (g : Graph) a b w x :
  In x (keys (add_edge g a b w)) <-> x = a \/ x = b \/ In x (keys g).
Proof.
  unfold add_edge; rewrite !keys_set, !add_node_keys; tauto.
Qed.

Lemma add_edge_NoDup (g : Graph) a b w :
  NoDup (keys g) -> NoDup (keys (add_edge g a b w)).
Proof.
  intros H; unfold add_edge.
  now apply NoDup_keys_set, NoDup_keys_set, add_node_NoDup, add_node_NoDup.
Qed.

Lemma add_edge_inner (g : Graph) a b w :
  inner_NoDup g -> inner_NoDup (add_edge g a b w).
Proof.
  intros H; unfold add_edge.
  now apply set_edge_inner, set_edge_inner, add_node_inner, add_node_inner.
Qed.

Lemma step_weight (g : Graph) a b w u v :
  weight (add_json_edge g (a, b, w)) u v
  = if ((u =? a) && (v =? b) || (u =? b) && (v =? a))%string
    then Some w else weight g u v.
Proof.
  unfold add_json_edge; now rewrite add_edge_weight, !add_node_weight.
Qed.

Lemma step_keys (g : Graph) a b w x :
  In x (keys (add_json_edge g (a, b, w))) <-> x = a \/ x = b \/ In x (keys g).
Proof.
  unfold add_json_edge; rewrite add_edge_keys, !add_node_keys; tauto.
Qed.

Lemma step_undirected (g : Graph) e :
  undirected g -> undirected (add_json_edge g e).
Proof.
  destruct e as [[a b] w]; intros (ND & Hi & Hs).
  split; [|split].
  - unfold add_json_edge.
    now apply add_edge_NoDup, add_node_NoDup, add_node_NoDup.
  - unfold add_json_edge.
    now apply add_edge_inner, add_node_inner, add_node_inner.
  - intros u v; rewrite !step_weight, Hs.
    destruct (u =? a)%string, (v =? b)%string, (u =? b)%string,
      (v =? a)%string; reflexivity.
Qed.

Lemma fold_undirected (T : list (string * string * nat)) : forall g,
  undirected g -> undirected (fold_left add_json_edge T g).
Proof.
  induction T as [|e T IH]; intros g U; simpl; [assumption|].
  now apply IH, step_undirected.
Qed.

Lemma empty_undirected : undirected [].
Proof.
  split; [constructor | split]; [intros u adj; discriminate | reflexivity].
Qed.

(** Whatever the file holds, the graph is stored as [networkx] stores an
    undirected graph. *)
Lemma create_undirected (data : Adjacency) :
  undirected (create_graph_from_json data).
Proof.
  rewrite create_as_fold; apply fold_undirected, empty_undirected.
Qed.

Lemma fold_keys (T : list (string * string * nat)) : forall (g : Graph) x,
  In x (keys (fold_left add_json_edge T g)) <->
  In x (keys g)
  \/ exists a b w, In (a, b, w) T /\ (x = a \/ x = b).
Proof.
  induction T as [|[[a b] w] T IH]; intros g x; cbn [fold_left].
  - split; [auto | intros [H | (a & b & w & [] & _)]; exact H].
  - rewrite IH, step_keys; split.
    + intros [[->|[->|H]] | (a' & b' & w' & H & Hx)].
      * right; exists a, b, w; split; [now left | now left].
      * right; exists a, b, w; split; [now left | now right].
      * now left.
      * right; exists a', b', w'; split; [now right | assumption].
    + intros [H | (a' & b' & w' & [E|H] & Hx)].
      * left; auto.
      * injection E as <- <- <-; left; destruct Hx; auto.
      * right; eauto 10.
Qed.

Lemma step_keeps (g : Graph) e u v :
  weight g u v <> None -> weight (add_json_edge g e) u v <> None.
Proof.
  destruct e as [[a b] w]; rewrite step_weight.
  destruct (_ || _); [discriminate | auto].
Qed.

Lemma fold_keeps (T : list (string * string * nat)) : forall (g : Graph) u v,
  weight g u v <> None -> weight (fold_left add_json_edge T g) u v <> None.
Proof.
  induction T as [|e T IH]; intros g u v H; simpl; [assumption|].
  now apply IH, step_keeps.
Qed.

Lemma fold_complete (T : list (string * string * nat)) :
  forall (g : Graph) a b w,
  In (a, b, w) T -> weight (fold_left add_json_edge T g) a b <> None.
Proof.
  induction T as [|e T IH]; intros g a b w H; cbn [fold_left];
    [contradiction|].
  destruct H as [->|H]; [|eapply IH; eauto].
  apply fold_keeps; rewrite step_weight, !String.eqb_refl; discriminate.
Qed.

Section Sound.
Variable data : Adjacency.
Hypothesis data_sym : forall u v, weight data u v = weight data v u.

Lemma fold_sound (T : list (string * string * nat)) : forall g : Graph,
  (forall a b w, In (a, b, w) T -> weight data a b = Some w) ->
  (forall u v w, weight g u v = Some w -> weight data u v = Some w) ->
  forall u v w,
    weight (fold_left add_json_edge T g) u v = Some w ->
    weight data u v = Some w.
Proof.
  induction T as [|[[a b] x] T IH]; intros g HT Hg; cbn [fold_left];
    [exact Hg|].
  apply IH; [intros; apply HT; now right|].
  intros u v w; rewrite step_weight.
  pose proof (HT a b x (or_introl eq_refl)) as Hab.
  destruct (String.eqb_spec u a) as [->|Nu];
    destruct (String.eqb_spec v b) as [->|Nv]; simpl.
  - intros [= <-]; exact Hab.
  - destruct (String.eqb_spec a b) as [->|Nab]; simpl; [|apply Hg].
    destruct (String.eqb_spec v b) as [->|]; [contradiction | apply Hg].
  - destruct (String.eqb_spec u b) as [->|Nub]; simpl; [|apply Hg].
    destruct (String.eqb_spec b a) as [->|]; [contradiction | apply Hg].
  - destruct (String.eqb_spec u b) as [->|Nub]; simpl; [|apply Hg].
    destruct (String.eqb_spec v a) as [->|Nva]; [|apply Hg].
    intros [= <-]; now rewrite data_sym.
Qed.

End Sound.

Lemma json_edges_In (data : Adjacency) a b w :
  json_object data ->
  (In (a, b, w) (json_edges data) <-> weight data a b = Some w).
Proof.
  intros [ND Hi]; unfold json_edges, weight; rewrite in_flat_map; split.
  - intros ([a' od] & Hin & H); simpl in H.
    apply in_map_iff in H as ([b' w'] & E & H); simpl in E.
    injection E as -> -> ->.
    pose proof (get_NoDup_In _ _ _ ND Hin) as G; rewrite G.
    apply get_NoDup_In; [eapply Hi; eauto | assumption].
  - destruct (get data a) as [od|] eqn:G; [|discriminate].
    intros H; exists (a, od); split; [now apply get_In|].
    apply in_map_iff; exists (b, w); split; [reflexivity | now apply get_In].
Qed.

Lemma create_weight (data : Adjacency) u v :
  json_object data ->
  (forall u v, weight data u v = weight data v u) ->
  weight (create_graph_from_json data) u v = weight data u v.
Proof.
  intros J Hs; rewrite create_as_fold.
  destruct (weight (fold_left add_json_edge (json_edges data) []) u v)
    as [w|] eqn:E.
  - symmetry; revert E; apply (fold_sound data Hs (json_edges data) []).
    + intros a b x; now apply json_edges_In.
    + intros ? ? ?; discriminate.
  - destruct (weight data u v) as [w|] eqn:W; [|reflexivity].
    apply json_edges_In in W; [|assumption].
    eapply fold_complete in W; rewrite E in W; now contradiction W.
Qed.

Lemma create_nodes (data : Adjacency) n :
  json_object data ->
  (forall u v, weight data u v = weight data v u) ->
  (In n (nodes (create_graph_from_json data)) <->
   exists m, weight data n m <> None).
Proof.
  intros J Hs; unfold nodes; rewrite create_as_fold, fold_keys; split.
  - intros [[] | (a & b & w & H & Hn)].
    apply json_edges_In in H; [|assumption].
    destruct Hn as [->| ->]; [exists b | exists a; rewrite Hs];
      rewrite H; discriminate.
  - intros (m & H); right.
    destruct (weight data n m) as [w|] eqn:W; [|contradiction].
    exists n, m, w; split; [now apply json_edges_In | now left].
Qed.

End CreateFacts.

(** X25. The graph made of a symmetric adjacency map has the weights of
    the map, stored at both ends; its vertices are the artists that have a
    collaborator, so an artist with an empty entry is not in the graph. *)
Theorem graph_of_symmetric_map (data : Adjacency) :
  json_object data ->
  (forall u v, weight data u v = weight data v u) ->
  undirected (create_graph_from_json data)
  /\ (forall u v, weight (create_graph_from_json data) u v
                  = weight data u v)
  /\ (forall n, In n (nodes (create_graph_from_json data)) <->
                exists m, weight data n m <> None).
Proof.
  intros J Hs; split; [apply CreateFacts.create_undirected | split].
  - intros u v; now apply CreateFacts.create_weight.
  - intros n; now apply CreateFacts.create_nodes.
Qed.
(** ** The graph of a file *)

Module FileGraphFacts.
Import BuilderFacts BuilderCounts AdjacencyFacts.

Lemma set_json (c : Adjacency) k (inner : dict nat) :
  json_object c -> NoDup (keys inner) -> json_object (set c k inner).
Proof.
  intros [ND Hi] Hn; split; [now apply NoDup_keys_set|].
  intros a x; rewrite InducedFacts.get_set.
  destruct (a =? k)%string; [intros [= <-]; exact Hn | apply Hi].
Qed.

Lemma getd_json (c : Adjacency) k :
  json_object c -> NoDup (keys (getd c k [])).
Proof.
  intros [_ Hi]; unfold getd; destruct (get c k) eqn:E;
    [eapply Hi; eauto | constructor].
Qed.

Lemma update_pair_json artist (c : Adjacency) other :
  json_object c -> json_object (update_pair artist c other).
Proof.
  intros J; unfold update_pair.
  destruct (negb (other =? artist)%string); [|assumption].
  apply set_json; [assumption|].
  apply NoDup_keys_set.
  destruct (negb _); [apply NoDup_keys_set|]; now apply getd_json.
Qed.

Lemma fold_json {A} (f : Adjacency -> A -> Adjacency) (l : list A) :
  (forall c x, json_object c -> json_object (f c x)) ->
  forall c, json_object c -> json_object (fold_left f l c).
Proof.
  intros Hf; induction l as [|x l IH]; intros c J; simpl; auto.
Qed.

Lemma update_artist_json artists (c : Adjacency) artist :
  json_object c -> json_object (update_artist artists c artist).
Proof.
  intros J; unfold update_artist.
  apply fold_json; [intros; now apply update_pair_json|].
  destruct (negb _); [|assumption].
  apply set_json; [assumption | constructor].
Qed.

Lemma update_json (c : Adjacency) artists :
  json_object c -> json_object (_update_collaborations c artists).
Proof.
  intros J; unfold _update_collaborations.
  apply fold_json; [intros; now apply update_artist_json | assumption].
Qed.

Lemma build_rows_json excs rows : forall acc,
  json_object (fst acc) ->
  json_object (fst (fold_left (build_row excs) rows acc)).
Proof.
  induction rows as [|row rows IH]; intros acc J; simpl; [assumption|].
  apply IH; unfold build_row.
  destruct row as [|position [|title [|artist_str [|featured [|]]]]];
    try assumption.
  destruct (_extract_artists excs artist_str featured) eqn:E;
    [assumption|].
  cbn [fst]; now apply update_json.
Qed.

(** The adjacency map the builder returns has no key twice. *)
Lemma built_json excs file collaborations songs_to_artists :
  _build_relationship_dicts excs file
  = Return (collaborations, songs_to_artists) ->
  json_object collaborations.
Proof.
  intros Hb; destruct file as [|header rows]; [discriminate|].
  simpl in Hb; injection Hb as Hb.
  assert (Hc : collaborations = fst (fold_left (build_row excs) rows ([], [])))
    by now rewrite Hb.
  rewrite Hc; apply build_rows_json; split; [constructor|].
  intros a inner; discriminate.
Qed.

Lemma built_sym excs file collaborations songs_to_artists :
  _build_relationship_dicts excs file
  = Return (collaborations, songs_to_artists) ->
  forall u v, weight collaborations u v = weight collaborations v u.
Proof.
  intros Hb u v.
  rewrite (built_weight _ _ _ _ u v Hb), (built_weight _ _ _ _ v u Hb).
  now rewrite pairs_in_rows_sym.
Qed.

Lemma rows_with_pos excs a b rows :
  stored (rows_with excs a b rows) <> None <->
  exists row, In row rows
              /\ In a (row_artists excs row) /\ In b (row_artists excs row).
Proof.
  unfold rows_with; split.
  - intros H.
    destruct (filter _ rows) as [|row l] eqn:E; [now contradiction H|].
    assert (Hin : In row (filter
                            (fun row => mem a (row_artists excs row)
                                        && mem b (row_artists excs row))
                            rows))
      by (rewrite E; now left).
    apply filter_In in Hin as [Hin Hm]; apply andb_true_iff in Hm as [Ha Hb].
    exists row; rewrite <- !mem_In; auto.
  - intros (row & Hin & Ha & Hb).
    assert (Hf : In row (filter
                           (fun row => mem a (row_artists excs row)
                                       && mem b (row_artists excs row))
                           rows)).
    { apply filter_In; split; [assumption|].
      apply andb_true_iff; rewrite !mem_In; auto. }
    destruct (filter _ rows); [contradiction | discriminate].
Qed.

End FileGraphFacts.

(** X26. The graph of the adjacency map a file gives: the weight between
    two artists is the number of rows that list both, no artist is joined
    to itself, and the vertices are the artists that share a row with
    another artist. *)
Theorem graph_of_built_file
    (excs : list string) (file : list (list string))
    (collaborations : Adjacency) (songs_to_artists : SongIndex) :
  _build_relationship_dicts excs file
  = Return (collaborations, songs_to_artists) ->
  undirected (create_graph_from_json collaborations)
  /\ (forall A B, A <> B ->
        weight (create_graph_from_json collaborations) A B
        = stored (rows_with excs A B (tl file)))
  /\ (forall A, weight (create_graph_from_json collaborations) A A = None)
  /\ (forall A, In A (nodes (create_graph_from_json collaborations)) <->
        exists B row, B <> A /\ In row (tl file)
                      /\ In A (row_artists excs row)
                      /\ In B (row_artists excs row)).
Proof.
  intros Hb.
  pose proof (FileGraphFacts.built_json _ _ _ _ Hb) as J.
  pose proof (FileGraphFacts.built_sym _ _ _ _ Hb) as Hs.
  split; [apply CreateFacts.create_undirected | split; [|split]].
  - intros A B N; rewrite CreateFacts.create_weight by assumption.
    rewrite (AdjacencyFacts.built_weight _ _ _ _ A B Hb).
    now rewrite BuilderCounts.pairs_rows_with.
  - intros A; rewrite CreateFacts.create_weight by assumption.
    rewrite (AdjacencyFacts.built_weight _ _ _ _ A A Hb).
    now rewrite AdjacencyFacts.pairs_in_rows_self.
  - intros A; rewrite CreateFacts.create_nodes by assumption; split.
    + intros (B & H).
      rewrite (AdjacencyFacts.built_weight _ _ _ _ A B Hb) in H.
      destruct (string_dec A B) as [<-|N].
      * rewrite AdjacencyFacts.pairs_in_rows_self in H; now contradiction H.
      * rewrite BuilderCounts.pairs_rows_with in H by assumption.
        apply FileGraphFacts.rows_with_pos in H as (row & H1 & H2 & H3).
        exists B, row; auto.
    + intros (B & row & N & H1 & H2 & H3); exists B.
      rewrite (AdjacencyFacts.built_weight _ _ _ _ A B Hb).
      rewrite BuilderCounts.pairs_rows_with by auto.
      apply FileGraphFacts.rows_with_pos; eauto.
Qed.

Lemma graph_of_built_file_witness :
  undirected
    (create_graph_from_json
       [ ("Artist X", [("Artist Y", 1)]); ("Artist Y", [("Artist X", 1)]) ])
  /\ (forall A B, A <> B ->
        weight
          (create_graph_from_json
             [ ("Artist X", [("Artist Y", 1)]);
               ("Artist Y", [("Artist X", 1)]) ]) A B
        = stored (rows_with EXCEPTIONS A B (tl example_file)))
  /\ (forall A,
        weight
          (create_graph_from_json
             [ ("Artist X", [("Artist Y", 1)]);
               ("Artist Y", [("Artist X", 1)]) ]) A A = None)
  /\ (forall A,
        In A (nodes
                (create_graph_from_json
                   [ ("Artist X", [("Artist Y", 1)]);
                     ("Artist Y", [("Artist X", 1)]) ])) <->
        exists B row, B <> A /\ In row (tl example_file)
                      /\ In A (row_artists EXCEPTIONS row)
                      /\ In B (row_artists EXCEPTIONS row)).
Proof.
  apply (graph_of_built_file EXCEPTIONS example_file _
           [ ("Song A/////Artist X&&&Artist Y/////1",
              ["Artist X"; "Artist Y"]);
             ("Song B/////Artist X/////2", ["Artist X"]) ]).
  reflexivity.
Defined.

(** ** The samples of a graph, at an input *)

Lemma sample_graph_undirected : undirected sample_graph.
Proof.
  assert (E : create_graph_from_json sample_graph = sample_graph)
    by reflexivity.
  rewrite <- E; apply CreateFacts.create_undirected.
Qed.

Lemma shrink_degree_induced_witness :
  undirected (shrink_graph_degree sample_graph 3)
  /\ (forall u v,
        In u (nodes (shrink_graph_degree sample_graph 3)) ->
        In v (nodes (shrink_graph_degree sample_graph 3)) ->
        weight (shrink_graph_degree sample_graph 3) u v
        = weight sample_graph u v)
  /\ (forall u v w,
        weight (shrink_graph_degree sample_graph 3) u v = Some w ->
        In u (nodes (shrink_graph_degree sample_graph 3))
        /\ In v (nodes (shrink_graph_degree sample_graph 3))).
Proof.
  apply (shrink_degree_is_induced sample_graph 3).
  exact sample_graph_undirected.
Defined.

Lemma shrink_random_induced_witness :
  undirected [("B", []); ("D", []); ("E", [])]
  /\ (forall u v,
        In u (nodes [("B", []); ("D", []); ("E", [])]) ->
        In v (nodes [("B", []); ("D", []); ("E", [])]) ->
        weight [("B", []); ("D", []); ("E", [])] u v
        = weight sample_graph u v)
  /\ (forall u v w,
        weight [("B", []); ("D", []); ("E", [])] u v = Some w ->
        In u (nodes [("B", []); ("D", []); ("E", [])])
        /\ In v (nodes [("B", []); ("D", []); ("E", [])])).
Proof.
  apply (shrink_random_is_induced (fun i => i) sample_graph
           [("B", []); ("D", []); ("E", [])] 3).
  - exact sample_graph_undirected.
  - reflexivity.
Defined.

Lemma graph_of_symmetric_map_witness :
  undirected (create_graph_from_json sample_graph)
  /\ (forall u v, weight (create_graph_from_json sample_graph) u v
                  = weight sample_graph u v)
  /\ (forall n, In n (nodes (create_graph_from_json sample_graph)) <->
                exists m, weight sample_graph n m <> None).
Proof.
  apply (graph_of_symmetric_map sample_graph).
  - split; [|apply sample_graph_undirected].
    vm_compute; repeat constructor; simpl; intuition discriminate.
  - apply sample_graph_undirected.
Defined.

(** ** The cleaner *)

Module CleanerFacts.
Import InitialCleaner.

Lemma key_eqb_spec (a b : Key) : reflect (a = b) (key_eqb a b).
Proof.
  destruct a as [[a1 a2] a3], b as [[b1 b2] b3]; simpl.
  destruct (String.eqb_spec a1 b1) as [->|N1]; simpl;
    [|constructor; congruence].
  destruct (String.eqb_spec a2 b2) as [->|N2]; simpl;
    [|constructor; congruence].
  destruct (String.eqb_spec a3 b3) as [->|N3]; simpl;
    constructor; congruence.
Qed.

Lemma lookup_store d k r q :
  lookup (store d k r) q = if key_eqb k q then Some r else lookup d q.
Proof.
  induction d as [|[a x] d IH]; simpl.
  - reflexivity.
  - destruct (key_eqb_spec a k) as [->|N]; simpl.
    + destruct (key_eqb_spec k q); reflexivity.
    + rewrite IH; destruct (key_eqb_spec a q) as [->|Nq]; [|reflexivity].
      destruct (key_eqb_spec k q); [congruence | reflexivity].
Qed.

Lemma lookup_None d k : lookup d k = None <-> ~ In k (map fst d).
Proof.
  induction d as [|[a x] d IH]; simpl; [intuition|].
  destruct (key_eqb_spec a k) as [->|N].
  - split; [discriminate | intuition].
  - rewrite IH; intuition.
Qed.

Lemma lookup_In d k r : lookup d k = Some r -> In (k, r) d.
Proof.
  induction d as [|[a x] d IH]; simpl; [discriminate|].
  destruct (key_eqb_spec a k) as [->|N].
  - intros [= ->]; now left.
  - auto.
Qed.

Lemma In_lookup d k r : NoDup (map fst d) -> In (k, r) d -> lookup d k = Some r.
Proof.
  induction d as [|[a x] d IH]; simpl; intros ND H; [contradiction|].
  inversion ND as [|? ? Na ND']; subst.
  destruct H as [E|H].
  - injection E as -> ->; destruct (key_eqb_spec k k); congruence.
  - destruct (key_eqb_spec a k) as [->|N]; [|auto].
    exfalso; apply Na, in_map_iff; exists (k, r); auto.
Qed.

Lemma keys_store d k r x :
  In x (map fst (store d k r)) <-> x = k \/ In x (map fst d).
Proof.
  induction d as [|[a y] d IH]; simpl.
  - intuition.
  - destruct (key_eqb_spec a k) as [->|N]; simpl; [intuition|].
    rewrite IH; intuition.
Qed.

Lemma store_NoDup d k r : NoDup (map fst d) -> NoDup (map fst (store d k r)).
Proof.
  induction d as [|[a y] d IH]; simpl; intros ND.
  - repeat constructor; intros [].
  - inversion ND as [|? ? Na ND']; subst.
    destruct (key_eqb_spec a k) as [->|N]; simpl.
    + now constructor.
    + constructor; [|auto].
      rewrite keys_store; intros [E|H]; [congruence | contradiction].
Qed.

Lemma cleaned_more seen row d :
  parsed_row row = None -> cleaned seen d -> cleaned (seen ++ [row]) d.
Proof.
  intros Hp [H1 H2 H3]; split; [assumption| |].
  - intros k r H; destruct (H2 k r H) as (E & row' & Hin & Hr).
    split; [assumption | exists row'; split; [apply in_or_app; auto | auto]].
  - intros row' k p Hin Hr.
    apply in_app_or in Hin as [Hin|[<-|[]]]; [eauto | congruence].
Qed.

Lemma clean_row_cleaned seen d row :
  cleaned seen d ->
  match clean_row d row with
  | Return d' => cleaned (seen ++ [row]) d' /\ List.length row = 5
  | Raise _ => List.length row <> 5
  end.
Proof.
  intros C; unfold clean_row.
  destruct row as [|dt [|ps [|t [|a [|f [|extra row]]]]]];
    try (simpl; discriminate).
  destruct (py_int (strip ps)) as [p|] eqn:Ep.
  - assert (Hrow : parsed_row [dt; ps; t; a; f]
                   = Some ((strip t, strip a, strip f), p))
      by (unfold parsed_row; now rewrite Ep).
    set (key := (strip t, strip a, strip f)) in *.
    set (row := [dt; ps; t; a; f]) in *.
    destruct C as [H1 H2 H3].
    destruct (lookup d key) as [best|] eqn:El;
      [destruct (Z.ltb_spec p (position best)) as [Hlt|Hge]|].
    + (* a better position *)
      split; [|reflexivity]; split.
      * now apply store_NoDup.
      * intros k r; rewrite lookup_store.
        destruct (key_eqb_spec key k) as [<-|N].
        -- intros [= <-]; split; [reflexivity|].
           exists row; split; [apply in_or_app; right; now left | exact Hrow].
        -- intros H; destruct (H2 k r H) as (E & row' & Hin & Hr).
           split; [assumption|].
           exists row'; split; [apply in_or_app; auto | auto].
      * intros row' k q Hin Hr; rewrite lookup_store.
        destruct (key_eqb_spec key k) as [<-|N].
        -- eexists; split; [reflexivity|]; simpl.
           apply in_app_or in Hin as [Hin|[<-|[]]].
           ++ destruct (H3 _ _ _ Hin Hr) as (r & Hl & Hle).
              rewrite El in Hl; injection Hl as <-; lia.
           ++ rewrite Hrow in Hr; injection Hr as <-; lia.
        -- apply in_app_or in Hin as [Hin|[<-|[]]]; [eauto|].
           rewrite Hrow in Hr; congruence.
    + (* not better *)
      split; [|reflexivity]; split; [assumption| |].
      * intros k r H; destruct (H2 k r H) as (E & row' & Hin & Hr).
        split; [assumption|].
        exists row'; split; [apply in_or_app; auto | auto].
      * intros row' k q Hin Hr.
        apply in_app_or in Hin as [Hin|[<-|[]]]; [eauto|].
        rewrite Hrow in Hr; injection Hr as <- <-.
        exists best; split; [assumption | lia].
    + (* a new key *)
      split; [|reflexivity]; split.
      * now apply store_NoDup.
      * intros k r; rewrite lookup_store.
        destruct (key_eqb_spec key k) as [<-|N].
        -- intros [= <-]; split; [reflexivity|].
           exists row; split; [apply in_or_app; right; now left | exact Hrow].
        -- intros H; destruct (H2 k r H) as (E & row' & Hin & Hr).
           split; [assumption|].
           exists row'; split; [apply in_or_app; auto | auto].
      * intros row' k q Hin Hr; rewrite lookup_store.
        destruct (key_eqb_spec key k) as [<-|N].
        -- eexists; split; [reflexivity|]; simpl.
           apply in_app_or in Hin as [Hin|[<-|[]]].
           ++ destruct (H3 _ _ _ Hin Hr) as (r & Hl & Hle); congruence.
           ++ rewrite Hrow in Hr; injection Hr as <-; lia.
        -- apply in_app_or in Hin as [Hin|[<-|[]]]; [eauto|].
           rewrite Hrow in Hr; congruence.
  - split; [|reflexivity]; apply cleaned_more; [|assumption].
    unfold parsed_row; now rewrite Ep.
Qed.

Lemma clean_rows_cleaned rows : forall seen d,
  cleaned seen d ->
  match clean_rows rows d with
  | Return d' =>
      cleaned (seen ++ rows) d'
      /\ Forall (fun row => List.length row = 5) rows
  | Raise _ => ~ Forall (fun row => List.length row = 5) rows
  end.
Proof.
  induction rows as [|row rows IH]; intros seen d C; cbn [clean_rows].
  - rewrite app_nil_r; split; [assumption | constructor].
  - pose proof (clean_row_cleaned seen d row C) as H.
    destruct (clean_row d row) as [d'|e].
    + destruct H as [C' L].
      specialize (IH (seen ++ [row]) d' C').
      rewrite <- app_assoc in IH; simpl in IH.
      destruct (clean_rows rows d') as [d''|e].
      * destruct IH as [C'' F]; split; [assumption | now constructor].
      * intros F; inversion F; subst; now apply IH.
    + intros F; inversion F; subst; now apply H.
Qed.

Lemma cleaned_nil : cleaned [] [].
Proof.
  split; [constructor | intros k r; discriminate | intros ? ? ? []].
Qed.


(** The records written: one for each key, holding the least position of
    the rows of that key. *)
Lemma main_records file out :
  main file = Return out ->
  exists records,
    out = ["position"; "track"; "artist"; "featured_artists"]
            :: map record_row records
    /\ NoDup (map record_key records)
    /\ (forall r, In r records ->
          exists row, In row (tl file)
                      /\ parsed_row row = Some (record_key r, position r))
    /\ (forall row k p, In row (tl file) -> parsed_row row = Some (k, p) ->
          exists r, In r records /\ record_key r = k
                    /\ (position r <= p)%Z).
Proof.
  unfold main; destruct file as [|header rows]; [discriminate|].
  pose proof (clean_rows_cleaned rows [] [] cleaned_nil) as H.
  destruct (clean_rows rows []) as [d|e]; [|discriminate].
  intros [= <-]; destruct H as [[H1 H2 H3] _]; simpl in *.
  exists (map snd d); split; [reflexivity | split; [|split]].
  - assert (E : map record_key (map snd d) = map fst d).
    { rewrite map_map; apply map_ext_in; intros [k r] Hin; simpl.
      apply (In_lookup d k r H1) in Hin; now apply H2 in Hin. }
    now rewrite E.
  - intros r Hin; apply in_map_iff in Hin as ([k r'] & E & Hin).
    simpl in E; subst r'.
    apply (In_lookup d k r H1) in Hin.
    destruct (H2 k r Hin) as (Ek & row & Hr & Hp).
    exists row; split; [assumption | now rewrite Ek].
  - intros row k p Hin Hp.
    destruct (H3 row k p Hin Hp) as (r & Hl & Hle).
    exists r; split; [|split; [now apply (H2 k r) | assumption]].
    apply in_map_iff; exists (k, r); split; [reflexivity|].
    now apply lookup_In.
Qed.

Lemma main_returns file :
  (exists out, main file = Return out) <->
  file <> [] /\ Forall (fun row => List.length row = 5) (tl file).
Proof.
  unfold main; destruct file as [|header rows].
  - split; [intros (out & H); discriminate | intros [H _]; congruence].
  - pose proof (clean_rows_cleaned rows [] [] cleaned_nil) as H.
    simpl; destruct (clean_rows rows []) as [d|e].
    + split; [intros _; split; [discriminate | apply H] | eauto].
    + split; [intros (out & E); discriminate | intros [_ F]; contradiction].
Qed.

End CleanerFacts.


(** X28. The cleaner stops on a row that has not five fields, and on
    nothing else but a file without a header. *)
Theorem cleaner_returns_iff_five_fields (file : list (list string)) :
  (exists out, InitialCleaner.main file = Return out) <->
  file <> [] /\ Forall (fun row => List.length row = 5) (tl file).
Proof. apply CleanerFacts.main_returns. Qed.


(** ** The cleaner and the first builder *)

Module PipelineFacts.

Lemma build_rows_records (records : list InitialCleaner.BestRecord) :
  forall acc,
  exists collabs songs_artists,
    ProcessCsv.build_rows (map InitialCleaner.record_row records) acc
    = Return (collabs, songs_artists).
Proof.
  induction records as [|r records IH]; intros acc; cbn [map].
  - destruct acc as [c s]; exists c, s; reflexivity.
  - cbn [ProcessCsv.build_rows]; unfold InitialCleaner.record_row at 1.
    cbn [ProcessCsv.build_row]; rewrite NumeralFacts.py_int_str.
    apply IH.
Qed.

End PipelineFacts.

(** X29. The first builder reads what the cleaner writes: on the output of
    the cleaner it does not raise. *)
Theorem first_builder_reads_cleaned (file out : list (list string)) :
  InitialCleaner.main file = Return out ->
  exists collabs songs_artists,
    ProcessCsv.build_relationship_dicts out = Return (collabs, songs_artists).
Proof.
  intros H; destruct (CleanerFacts.main_records file out H)
    as (records & -> & _).
  apply PipelineFacts.build_rows_records.
Qed.

Lemma first_builder_reads_witness :
  exists collabs songs_artists,
    ProcessCsv.build_relationship_dicts
      [ ["position"; "track"; "artist"; "featured_artists"];
        ["1"; "Song A"; "Artist X"; "N/A"];
        ["7"; "Song B"; "Artist Y"; "Artist X"] ]
    = Return (collabs, songs_artists).
Proof.
  apply (first_builder_reads_cleaned
           [ ["date"; "position"; "track"; "artist"; "featured_artists"];
             ["2021-01-02"; " 3 "; "Song A"; "Artist X"; "N/A"];
             ["2021-01-09"; "7"; "Song B "; "Artist Y"; " Artist X"];
             ["2021-01-16"; "1"; " Song A"; "Artist X"; "N/A"];
             ["2021-01-23"; "first"; "Song C"; "Artist Z"; "N/A"] ]).
  vm_compute; reflexivity.
Defined.

(** ** The graph endpoint *)

Module EndpointFacts.
Import SetFacts.

Lemma by_degree_total a b : by_degree a b = true \/ by_degree b a = true.
Proof. unfold by_degree; rewrite !Z.leb_le; lia. Qed.

Lemma by_degree_trans a b c :
  by_degree a b = true -> by_degree b c = true -> by_degree a c = true.
Proof. unfold by_degree; rewrite !Z.leb_le; lia. Qed.

Lemma by_degree_le a b :
  by_degree a b = true -> sum_values (snd b) <= sum_values (snd a).
Proof. unfold by_degree; rewrite Z.leb_le; lia. Qed.

Lemma sorted_app_le {A} (R : A -> A -> Prop) (l1 l2 : list A) :
  StronglySorted R (l1 ++ l2) ->
  forall x y, In x l1 -> In y l2 -> R x y.
Proof.
  induction l1 as [|a l1 IH]; simpl; intros H x y Hx Hy; [contradiction|].
  inversion H as [|? ? Hs Hf]; subst.
  destruct Hx as [<-|Hx]; [|eauto].
  rewrite Forall_forall in Hf; apply Hf, in_or_app; now right.
Qed.

Lemma node_set_In (l : list string) x :
  mem x (fold_left (fun s artist => set_add artist s) l []) = true <->
  In x l.
Proof.
  rewrite mem_In; change (In x (set_union [] l) <-> In x l).
  rewrite set_union_In; simpl; tauto.
Qed.

Section Limited.
Variables (c : Adjacency) (n : nat).
Hypothesis c_json : json_object c.

Let sliced := firstn n (sorted by_degree c).
Let ids := map fst sliced.

Lemma sorted_keys : Permutation (map fst (sorted by_degree c)) (keys c).
Proof. apply Permutation_map, SortFacts.sorted_perm. Qed.

Lemma ids_NoDup : NoDup ids.
Proof.
  assert (H : NoDup (map fst (sorted by_degree c))).
  { eapply Permutation_NoDup; [symmetry; apply sorted_keys | apply c_json]. }
  rewrite <- (firstn_skipn n (sorted by_degree c)), map_app in H.
  now apply NoDup_app_remove_r in H.
Qed.

Lemma sliced_In e : In e sliced -> In e c.
Proof.
  intros H; apply (Permutation_in _ (SortFacts.sorted_perm by_degree c)).
  rewrite <- (firstn_skipn n (sorted by_degree c)); apply in_or_app; now left.
Qed.

Lemma ids_keys : incl ids (keys c).
Proof.
  intros a H; apply in_map_iff in H as (e & <- & H).
  apply in_map, sliced_In, H.
Qed.

Lemma ids_entry a :
  In a ids -> In (a, getd c a []) sliced.
Proof.
  intros H; apply in_map_iff in H as ([a' inner] & E & H); simpl in E; subst.
  pose proof (sliced_In _ H) as Hc.
  apply get_NoDup_In in Hc; [|apply c_json].
  unfold getd; now rewrite Hc.
Qed.

Lemma ids_length : List.length ids = Nat.min n (List.length c).
Proof.
  unfold ids, sliced; rewrite length_map, length_firstn.
  now rewrite (Permutation_length (SortFacts.sorted_perm by_degree c)).
Qed.

(** An artist left out has no more than an artist kept. *)
Lemma ids_best a b :
  In a ids -> In b (keys c) -> ~ In b ids ->
  sum_values (getd c b []) <= sum_values (getd c a []).
Proof.
  intros Ha Hb Nb.
  apply ids_entry in Ha.
  apply In_keys_get in Hb as (inner & Hb).
  assert (Hin : In (b, inner) (sorted by_degree c)).
  { apply (Permutation_in _ (Permutation_sym
                               (SortFacts.sorted_perm by_degree c))).
    now apply get_In. }
  rewrite <- (firstn_skipn n (sorted by_degree c)) in Hin.
  apply in_app_or in Hin as [Hin|Hin].
  - exfalso; apply Nb, in_map_iff; exists (b, inner); auto.
  - pose proof (SortFacts.sorted_strongly by_degree by_degree_total
                  by_degree_trans c) as Hs.
    rewrite <- (firstn_skipn n (sorted by_degree c)) in Hs.
    pose proof (sorted_app_le _ _ _ Hs _ _ Ha Hin) as Hle.
    apply by_degree_le in Hle; simpl in Hle.
    unfold getd at 1; now rewrite Hb.
Qed.

End Limited.

Lemma slice_to_firstn {A} (l : list A) k :
  exists n, slice_to l k = firstn n l
            /\ ((0 <= k)%Z -> n = Z.to_nat k).
Proof.
  unfold slice_to; destruct (Z.leb_spec 0 k).
  - eauto.
  - eexists; split; [reflexivity | lia].
Qed.

End EndpointFacts.

(** X30. With a vertex limit [k >= 0] the endpoint answers with the [k]
    artists of greatest weighted degree, or with all when there are fewer:
    no artist left out has a greater degree than one kept.  The edges are
    the entries of the map between two artists kept, each with the degree
    and the name of its source. *)
Theorem generate_graph_keeps_top_artists
    (collaborations : Adjacency) (settings : dict Setting) (k : Z) :
  json_object collaborations ->
  getd settings "vertexLimit" (SInt 100) = SInt k ->
  (0 <= k)%Z ->
  exists nodes edges,
    generate_graph (Some collaborations) settings
    = JSONResponse (nodes, edges)
    /\ List.length nodes
       = Nat.min (Z.to_nat k) (List.length collaborations)
    /\ NoDup (map node_id nodes)
    /\ (forall n, In n nodes ->
          In (node_id n) (keys collaborations)
          /\ node_name n = node_id n
          /\ node_degree n
             = sum_values (getd collaborations (node_id n) []))
    /\ (forall n b, In n nodes ->
          In b (keys collaborations) -> ~ In b (map node_id nodes) ->
          sum_values (getd collaborations b []) <= node_degree n)
    /\ (forall e, In e edges <->
          In (ge_source e) (map node_id nodes)
          /\ In (ge_target e) (map node_id nodes)
          /\ In (ge_target e, ge_weight e)
               (getd collaborations (ge_source e) [])
          /\ ge_degree e
             = sum_values (getd collaborations (ge_source e) [])
          /\ ge_name e = ge_source e).
Proof.
  intros J Hk Hpos; unfold generate_graph; rewrite Hk; cbn [slice_by].
  destruct (EndpointFacts.slice_to_firstn
              (sorted by_degree collaborations) k) as (n & -> & Hn).
  rewrite <- (Hn Hpos); clear Hn Hk Hpos k.
  set (ids := map fst (firstn n (sorted by_degree collaborations))).
  eexists; eexists; split; [reflexivity|].
  assert (Hids : map node_id
                   (map (fun artist =>
                           mkNode artist artist
                             (sum_values (getd collaborations artist [])))
                      ids) = ids)
    by (rewrite map_map; simpl; apply map_id).
  rewrite Hids; split; [|split; [|split; [|split]]].
  - rewrite length_map; apply EndpointFacts.ids_length.
  - now apply EndpointFacts.ids_NoDup.
  - intros x Hx; apply in_map_iff in Hx as (a & <- & Ha); simpl.
    split; [now apply (EndpointFacts.ids_keys collaborations n) | auto].
  - intros x b Hx Hb Nb; apply in_map_iff in Hx as (a & <- & Ha); simpl.
    now apply (EndpointFacts.ids_best collaborations n J).
  - intros [s t w dg nm]; simpl; rewrite in_flat_map; split.
    + intros (a & Ha & He); apply in_flat_map in He as ([b x] & Hb & He).
      destruct (mem b _) eqn:M; [|contradiction].
      destruct He as [E|[]]; injection E as <- <- <- <- <-.
      apply EndpointFacts.node_set_In in M; auto.
    + intros (Hs & Ht & Hw & -> & ->); exists s; split; [assumption|].
      apply in_flat_map; exists (t, w); split; [assumption|].
      apply EndpointFacts.node_set_In in Ht; fold ids; rewrite Ht.
      now left.
Qed.

Lemma generate_graph_witness :
  exists nodes edges,
    generate_graph (Some sample_graph) [("vertexLimit", SInt 2)]
    = JSONResponse (nodes, edges)
    /\ List.length nodes = Nat.min (Z.to_nat 2) (List.length sample_graph)
    /\ NoDup (map node_id nodes)
    /\ (forall n, In n nodes ->
          In (node_id n) (keys sample_graph)
          /\ node_name n = node_id n
          /\ node_degree n = sum_values (getd sample_graph (node_id n) []))
    /\ (forall n b, In n nodes ->
          In b (keys sample_graph) -> ~ In b (map node_id nodes) ->
          sum_values (getd sample_graph b []) <= node_degree n)
    /\ (forall e, In e edges <->
          In (ge_source e) (map node_id nodes)
          /\ In (ge_target e) (map node_id nodes)
          /\ In (ge_target e, ge_weight e)
               (getd sample_graph (ge_source e) [])
          /\ ge_degree e = sum_values (getd sample_graph (ge_source e) [])
          /\ ge_name e = ge_source e).
Proof.
  apply (generate_graph_keeps_top_artists sample_graph
           [("vertexLimit", SInt 2)] 2).
  - split; [|apply sample_graph_undirected].
    vm_compute; repeat constructor; simpl; intuition discriminate.
  - reflexivity.
  - lia.
Defined.

(** The two artists of greatest weighted degree of the sample, and the
    edge between them in both directions. *)
Example generate_graph_sample :
  generate_graph (Some sample_graph) [("vertexLimit", SInt 2)]
  = JSONResponse
      ( [mkNode "C" "C" 4; mkNode "B" "B" 3],
        [ mkGraphEdge "C" "B" 2 4 "C"; mkGraphEdge "B" "C" 2 3 "B" ] ).
Proof. reflexivity. Qed.
